(** * Colour-science core of the palette generator: a shallow embedding

    The embedded functions come from two modules of the repository:
    - [colorUtils]        (rgbToHex, hexToRgb, mixColors, mixMultipleColors,
                           getColorName, generateColorMixingAnimation, ...)
    - [advancedColorUtils] (calculateDeltaE2000, calculateDeltaE94,
                           checkWCAGCompliance, calculateAdvancedHarmony, ...)

    and, for the further properties, from
    - [educationalColorUtils] (generateColorScience, calculateHarmonyColors,
                           getColorPsychologyEffects, ...)
    - the mixer components (getContrastTextColor and the handlers that
                           maintain the list of colours to mix).

    The utility modules are thin layers over the chroma-js library
    (package.json pins ["chroma-js": "^2.4.2"]).  The parts of chroma-js
    that are plain integer,
    string or rational arithmetic are modelled in [Module Chroma]; the parts
    that need transcendental functions (CIEDE2000, relative luminance, LAB
    brighten/darken) are parameters of the development.

    Numbers.  A JavaScript number is modelled by an exact rational ([Q]):
    the arithmetic of the model is the real arithmetic that the binary64
    operations of the code approximate.  Values that the code itself tests
    with [isFinite]/[isNaN] have the type [JS.number], which adds NaN and the
    infinities.  Rational equality is [Qeq] ([==]).  Where an exact value
    falls on a rounding or comparison boundary the binary64 result can
    differ by one unit; the statements are about ranges, bounds and whole
    numbers, which the rounding of binary64 does not affect.

    Effects.  [Math.random()] is a sequence of numbers consumed in order;
    exceptions are an explicit [result]; the two [while] loops of the WCAG
    suggestion search run on fuel, [None] meaning "still running". *)

From Stdlib Require Import ZArith QArith Qround.
From Stdlib Require Import List String Ascii Bool Lia Lqa.
Import ListNotations.

Local Open Scope Z_scope.
Local Open Scope Q_scope.
Local Open Scope string_scope.

(* ------------------------------------------------------------------------- *)
(** ** JavaScript values *)

Module JS.

(** A number as the code can observe it through [isFinite] and [isNaN]. *)
Inductive number : Type :=
| Num (q : Q)
| NaN
| Infinity
| NegInfinity.

Definition isFinite (n : number) : bool :=
  match n with Num _ => true | _ => false end.

Definition isNaN (n : number) : bool :=
  match n with NaN => true | _ => false end.

(** Comparisons of rationals as booleans ([<], [<=], [>], [>=], [===]). *)
Definition ltb (x y : Q) : bool := negb (Qle_bool y x).
Definition leb (x y : Q) : bool := Qle_bool x y.
Definition gtb (x y : Q) : bool := ltb y x.
Definition geb (x y : Q) : bool := leb y x.
Definition eqb (x y : Q) : bool := Qeq_bool x y.

(** [Math.round]: nearest integer, ties towards plus infinity. *)
Definition round (x : Q) : Z := Qfloor (x + (1 # 2)).

(** [Math.floor]. *)
Definition floor (x : Q) : Z := Qfloor x.

(** [Math.max(a, b)] and [Math.min(a, b)]. *)
Definition max (a b : Q) : Q := if ltb a b then b else a.
Definition min (a b : Q) : Q := if ltb b a then b else a.

(** [x || d] for a number [x] that is finite or NaN ([None]): the default is
    taken when [x] is falsy, that is NaN or zero. *)
Definition orElse (x : option Q) (d : Q) : Q :=
  match x with
  | Some q => if eqb q 0 then d else q
  | None => d
  end.

(** [s || d] for strings: the empty string is falsy. *)
Definition strOrElse (s : option string) (d : string) : string :=
  match s with
  | Some EmptyString | None => d
  | Some s' => s'
  end.

(** [a % b] on numbers, for a positive integer modulus [b]: the remainder
    has the sign of the dividend. *)
Definition rem (a : Q) (b : Z) : Q :=
  if ltb a 0
  then - (- a - inject_Z (Qfloor (- a / inject_Z b) * b))
  else a - inject_Z (Qfloor (a / inject_Z b) * b).

(** ASCII [toUpperCase]. *)
Definition upperAscii (c : ascii) : ascii :=
  let n := nat_of_ascii c in
  if (Nat.leb 97 n && Nat.leb n 122)%bool then ascii_of_nat (n - 32) else c.

Fixpoint toUpperCase (s : string) : string :=
  match s with
  | EmptyString => EmptyString
  | String c s' => String (upperAscii c) (toUpperCase s')
  end.

(** [s.substr(start)]: the suffix from position [start]. *)
Fixpoint substrFrom (start : nat) (s : string) : string :=
  match start, s with
  | O, _ => s
  | S n, EmptyString => EmptyString
  | S n, String _ s' => substrFrom n s'
  end.

(** [array.join(sep)]. *)
Fixpoint join (sep : string) (l : list string) : string :=
  match l with
  | [] => ""
  | [x] => x
  | x :: rest => x ++ sep ++ join sep rest
  end.

(** One hexadecimal digit, lower case as [Number.prototype.toString(16)]
    prints it. *)
Definition hexDigit (n : Z) : ascii :=
  match n with
  | 0%Z => "0" | 1%Z => "1" | 2%Z => "2" | 3%Z => "3"
  | 4%Z => "4" | 5%Z => "5" | 6%Z => "6" | 7%Z => "7"
  | 8%Z => "8" | 9%Z => "9" | 10%Z => "a" | 11%Z => "b"
  | 12%Z => "c" | 13%Z => "d" | 14%Z => "e" | _ => "f"
  end%char.

(** Digits of a non-negative integer in base 16, most significant first;
    [fuel] bounds the number of digits. *)
Fixpoint toDigits16 (fuel : nat) (u : Z) (acc : string) : string :=
  match fuel with
  | O => acc
  | S fuel' =>
      let acc' := String (hexDigit (u mod 16)) acc in
      if (u / 16 =? 0)%Z then acc' else toDigits16 fuel' (u / 16) acc'
  end.

(** [u.toString(16)] for an integer [u]. *)
Definition toString16 (u : Z) : string :=
  if (u <? 0)%Z
  then String "-"%char (toDigits16 (S (Z.to_nat (Z.log2 (- u)))) (- u) "")
  else toDigits16 (S (Z.to_nat (Z.log2 u))) u "".

(** Value of one hexadecimal digit, either case. *)
Definition hexValue (c : ascii) : option Z :=
  let n := nat_of_ascii c in
  if (Nat.leb 48 n && Nat.leb n 57)%bool then Some (Z.of_nat (n - 48))
  else if (Nat.leb 97 n && Nat.leb n 102)%bool then Some (Z.of_nat (n - 87))
  else if (Nat.leb 65 n && Nat.leb n 70)%bool then Some (Z.of_nat (n - 55))
  else None.

Definition isHexDigit (c : ascii) : bool :=
  match hexValue c with Some _ => true | None => false end.

(** [parseInt(s, 16)] on a string of hexadecimal digits (the callers have
    matched the string against a hex-digit pattern before). *)
Fixpoint parseDigits16 (acc : Z) (s : string) : Z :=
  match s with
  | EmptyString => acc
  | String c s' =>
      match hexValue c with
      | Some v => parseDigits16 (acc * 16 + v)%Z s'
      | None => acc
      end
  end.

Definition parseInt16 (s : string) : Z := parseDigits16 0 s.

End JS.

(* ------------------------------------------------------------------------- *)
(** ** The chroma-js operations that are exact arithmetic *)

Module Chroma.

(** A chroma [Color]: the unrounded, clipped RGB channels and alpha
    (the [_rgb] array of the library). *)
Record Color : Type := mkColor { red : Q; green : Q; blue : Q; alpha : Q }.

(** [limit(x, min, max)]. *)
Definition limit (x lo hi : Q) : Q :=
  if JS.ltb x lo then lo else if JS.gtb x hi then hi else x.

(** [clip_rgb]: what the [Color] constructor applies to every input. *)
Definition clip_rgb (c : Color) : Color :=
  mkColor (limit (red c) 0 255) (limit (green c) 0 255)
          (limit (blue c) 0 255) (limit (alpha c) 0 1).

(** [chroma(r, g, b)]. *)
Definition ofRgb (r g b : Q) : Color := clip_rgb (mkColor r g b 1).

(** [color.rgb()], with the default rounding. *)
Definition rgb (c : Color) : Z * Z * Z :=
  (JS.round (red c), JS.round (green c), JS.round (blue c)).

(** Keep the last [n] characters: [str.substr(str.length - n)]. *)
Definition lastChars (n : nat) (s : string) : string :=
  JS.substrFrom (String.length s - n) s.

(** [rgb2hex] in its [auto] mode: six digits, eight when alpha < 1. *)
Definition hex (c : Color) : string :=
  let '(r, g, b) := rgb c in
  let u := Z.lor (Z.lor (Z.shiftl r 16) (Z.shiftl g 8)) b in
  let str := lastChars 6 ("000000" ++ JS.toString16 u) in
  let hxa := lastChars 2 ("0" ++ JS.toString16 (JS.round (alpha c * 255))) in
  if JS.ltb (alpha c) 1 then "#" ++ str ++ hxa else "#" ++ str.

(** The two patterns of [hex2rgb]:
    [/^#?([A-Fa-f0-9]{6}|[A-Fa-f0-9]{3})$/] and
    [/^#?([A-Fa-f0-9]{8}|[A-Fa-f0-9]{4})$/]. *)
Fixpoint allHexDigits (s : string) : bool :=
  match s with
  | EmptyString => true
  | String c s' => JS.isHexDigit c && allHexDigits s'
  end.

Definition stripHash (s : string) : string :=
  match s with
  | String "#"%char s' => s'
  | _ => s
  end.

Definition RE_HEX (s : string) : bool :=
  let d := stripHash s in
  allHexDigits d && (Nat.eqb (String.length d) 6 || Nat.eqb (String.length d) 3).

Definition RE_HEXA (s : string) : bool :=
  let d := stripHash s in
  allHexDigits d && (Nat.eqb (String.length d) 8 || Nat.eqb (String.length d) 4).

(** Short notation: every digit is doubled. *)
Fixpoint doubleDigits (s : string) : string :=
  match s with
  | EmptyString => EmptyString
  | String c s' => String c (String c (doubleDigits s'))
  end.

(** [hex2rgb]; [None] stands for the thrown "unknown hex color". *)
Definition hex2rgb (hex : string) : option Color :=
  if RE_HEX hex then
    let hex1 :=
      if Nat.eqb (String.length hex) 4 || Nat.eqb (String.length hex) 7
      then JS.substrFrom 1 hex else hex in
    let hex2 :=
      if Nat.eqb (String.length hex1) 3 then doubleDigits hex1 else hex1 in
    let u := JS.parseInt16 hex2 in
    Some (clip_rgb
            (mkColor (inject_Z (Z.shiftr u 16))
                     (inject_Z (Z.land (Z.shiftr u 8) 255))
                     (inject_Z (Z.land u 255))
                     1))
  else if RE_HEXA hex then
    let hex1 :=
      if Nat.eqb (String.length hex) 5 || Nat.eqb (String.length hex) 9
      then JS.substrFrom 1 hex else hex in
    let hex2 :=
      if Nat.eqb (String.length hex1) 4 then doubleDigits hex1 else hex1 in
    let u := JS.parseInt16 hex2 in
    Some (clip_rgb
            (mkColor (inject_Z (Z.land (Z.shiftr u 24) 255))
                     (inject_Z (Z.land (Z.shiftr u 16) 255))
                     (inject_Z (Z.land (Z.shiftr u 8) 255))
                     (inject_Z (JS.round (inject_Z (Z.land u 255) / 255 * 100))
                      / 100)))
  else None.

(** [rgb2hsl]: hue in degrees ([None] is NaN, the hue of an achromatic
    colour), saturation and lightness as fractions. *)
Definition rgb2hsl (c : Color) : option Q * Q * Q :=
  let r := red c / 255 in
  let g := green c / 255 in
  let b := blue c / 255 in
  let mn := JS.min (JS.min r g) b in
  let mx := JS.max (JS.max r g) b in
  let l := (mx + mn) / 2 in
  if JS.eqb mx mn then (None, 0, l)
  else
    let s := if JS.ltb l (1 # 2)
             then (mx - mn) / (mx + mn)
             else (mx - mn) / (2 - mx - mn) in
    let h := if JS.eqb r mx then (g - b) / (mx - mn)
             else if JS.eqb g mx then 2 + (b - r) / (mx - mn)
             else 4 + (r - g) / (mx - mn) in
    let h := h * 60 in
    let h := if JS.ltb h 0 then h + 360 else h in
    (Some h, s, l).

(** [color.hsl()]. *)
Definition hsl (c : Color) : option Q * Q * Q := rgb2hsl c.

(** One channel of [hsl2rgb], from the shifted hue [t3]. *)
Definition hslChannel (t1 t2 t3 : Q) : Q :=
  let t3 := if JS.ltb t3 0 then t3 + 1 else t3 in
  let t3 := if JS.gtb t3 1 then t3 - 1 else t3 in
  if JS.ltb (6 * t3) 1 then t1 + (t2 - t1) * 6 * t3
  else if JS.ltb (2 * t3) 1 then t2
  else if JS.ltb (3 * t3) 2 then t1 + (t2 - t1) * ((2 # 3) - t3) * 6
  else t1.

(** [chroma.hsl(h, s, l)]: [hsl2rgb] followed by the constructor's clip. *)
Definition ofHsl (h s l : Q) : Color :=
  if JS.eqb s 0 then clip_rgb (mkColor (l * 255) (l * 255) (l * 255) 1)
  else
    let t2 := if JS.ltb l (1 # 2) then l * (1 + s) else l + s - l * s in
    let t1 := 2 * l - t2 in
    let h_ := h / 360 in
    let ch t3 := inject_Z (JS.round (hslChannel t1 t2 t3 * 255)) in
    clip_rgb (mkColor (ch (h_ + (1 # 3))) (ch h_) (ch (h_ - (1 # 3))) 1).

(** [Math.round(Math.sqrt(v))], computed exactly:
    round(sqrt v) = floor((floor(sqrt(4v)) + 1) / 2). *)
Definition roundSqrt (v : Q) : Z :=
  ((Z.sqrt (Qfloor (4 * v)) + 1) / 2)%Z.

(** [chroma.mix(c1, c2, f)] in its default mode [lrgb]: every channel is
    sqrt(x1^2 (1-f) + x2^2 f), alpha is interpolated linearly.  The
    repository reads a mixed colour only through [.hex()] and [.rgb()],
    which round each channel with [Math.round]; the model stores that
    rounded channel.  Every caller passes a weight [f] in [0, 1]. *)
Definition lrgbChannel (x1 x2 f : Q) : Q :=
  inject_Z (roundSqrt (x1 * x1 * (1 - f) + x2 * x2 * f)).

Definition mix (c1 c2 : Color) (f : Q) : Color :=
  clip_rgb
    (mkColor (lrgbChannel (red c1) (red c2) f)
             (lrgbChannel (green c1) (green c2) f)
             (lrgbChannel (blue c1) (blue c2) f)
             (alpha c1 + f * (alpha c2 - alpha c1))).

End Chroma.

(* ------------------------------------------------------------------------- *)
(** ** Exceptions and the data model *)

(** What the embedded code can throw. *)
Inductive exn : Type :=
| InsufficientColors   (* new Error('2色以上の色が必要です') *)
| UnknownFormat        (* chroma: unknown format / unknown hex color *)
| TypeError.           (* a property read on undefined *)

Inductive result (A : Type) : Type :=
| Ok (a : A)
| Throw (e : exn).
Arguments Ok {A} a.
Arguments Throw {A} e.

Definition isOk {A} (x : result A) : bool :=
  match x with Ok _ => true | Throw _ => false end.

Record RGBColor : Type := mkRGB { r : Z; g : Z; b : Z }.
Record HSLColor : Type := mkHSL { h : Z; s : Z; l : Z }.

(** [ColorInfo]; [id] is optional in the source ([id?: string]). *)
Record ColorInfo : Type := mkColorInfo {
  hex : string;
  rgb : RGBColor;
  hsl : HSLColor;
  name : string;
  id : option string
}.

(** [MixedColor] extends [ColorInfo] ([info]) with the provenance fields. *)
Record MixedColor : Type := mkMixedColor {
  info : ColorInfo;
  parentColors : list (option string);
  ratio : list Q
}.

(** A frame [{ hex, progress }] of the mixing animation ([frameHex] is the
    source's [hex], a name that [ColorInfo] already uses here). *)
Record Frame : Type := mkFrame { frameHex : string; progress : Q }.

Definition withName (c : ColorInfo) (n : string) : ColorInfo :=
  mkColorInfo (hex c) (rgb c) (hsl c) n (id c).

(* ------------------------------------------------------------------------- *)
(** ** colorUtils *)

Section ColorUtils.

(** [chroma(s)] for the inputs that are not hexadecimal notation: named
    colours and CSS functional notation.  No such input has the shape of a
    hexadecimal colour, so trying the hexadecimal reading first gives the
    library's answer. *)
Variable chromaOther : string -> option Chroma.Color.

(** The successive values of [Math.random()]. *)
Variable random : nat -> Q.

(** [x.toString(36).substr(2, 9)] for a random [x]. *)
Variable base36 : Q -> string.

(** [chroma(s)]: [Throw] when the string is not a colour.  The constructor
    clips whatever the format reader returns. *)
Definition chroma (s : string) : result Chroma.Color :=
  match Chroma.hex2rgb s with
  | Some c => Ok c
  | None =>
      match chromaOther s with
      | Some c => Ok (Chroma.clip_rgb c)
      | None => Throw UnknownFormat
      end
  end.

(** [chroma.valid(s)]: the constructor does not throw. *)
Definition valid (s : string) : bool := isOk (chroma s).

(** Computations that draw random numbers and may throw: the state is the
    number of draws made so far. *)
Definition M (A : Type) : Type := nat -> result (A * nat).

Definition ret {A} (a : A) : M A := fun n => Ok (a, n).

Definition bind {A B} (m : M A) (k : A -> M B) : M B :=
  fun n => match m n with
           | Ok (a, n') => k a n'
           | Throw e => Throw e
           end.

Definition throw {A} (e : exn) : M A := fun _ => Throw e.

Definition lift {A} (x : result A) : M A :=
  fun n => match x with Ok a => Ok (a, n) | Throw e => Throw e end.

Definition Math_random : M Q := fun n => Ok (random n, S n).

Notation "x <- m ;; k" := (bind m (fun x => k))
  (at level 61, m at next level, right associativity).

(** Pure computations that may throw. *)
Definition rbind {A B} (x : result A) (k : A -> result B) : result B :=
  match x with Ok a => k a | Throw e => Throw e end.

Notation "x <-- m ;; k" := (rbind m (fun x => k))
  (at level 61, m at next level, right associativity).

Definition rgbToHex (r g b : Z) : string :=
  Chroma.hex (Chroma.ofRgb (inject_Z r) (inject_Z g) (inject_Z b)).

Definition hexToRgb (hex : string) : result RGBColor :=
  color <-- chroma hex ;;
  let '(r, g, b) := Chroma.rgb color in
  Ok (mkRGB (JS.round (inject_Z r)) (JS.round (inject_Z g))
            (JS.round (inject_Z b))).

Definition rgbToHsl (r g b : Z) : HSLColor :=
  let color := Chroma.ofRgb (inject_Z r) (inject_Z g) (inject_Z b) in
  let '(h, s, l) := Chroma.hsl color in
  mkHSL (JS.round (JS.orElse h 0)) (JS.round (s * 100)) (JS.round (l * 100)).

Definition generateColorId : M string :=
  x <- Math_random ;;
  ret ("color_" ++ base36 x).

(** The table of exact names of [getColorName]. *)
Definition colorNames : list (string * string) :=
  [ ("#FF0000", "レッド");
    ("#00FF00", "グリーン");
    ("#0000FF", "ブルー");
    ("#FFFF00", "イエロー");
    ("#FF00FF", "マゼンタ");
    ("#00FFFF", "シアン");
    ("#000000", "ブラック");
    ("#FFFFFF", "ホワイト");
    ("#808080", "グレー");
    ("#FFA500", "オレンジ");
    ("#800080", "パープル");
    ("#FFC0CB", "ピンク");
    ("#A52A2A", "ブラウン");
    ("#008000", "ダークグリーン");
    ("#000080", "ネイビー") ].

Fixpoint lookup (table : list (string * string)) (key : string)
  : option string :=
  match table with
  | [] => None
  | (k, v) :: rest => if String.eqb k key then Some v else lookup rest key
  end.

Definition getColorName (hex : string) : result string :=
  match lookup colorNames (JS.toUpperCase hex) with
  | Some n => Ok n
  | None =>
      color <-- chroma hex ;;
      let '(h0, s0, l0) := Chroma.hsl color in
      let h := JS.orElse h0 0 in
      let s := JS.orElse (Some s0) 0 in
      let l := JS.orElse (Some l0) 0 in
      if JS.ltb s (1 # 10) then
        if JS.ltb l (2 # 10) then Ok "ダークグレー"
        else if JS.ltb l (5 # 10) then Ok "グレー"
        else if JS.ltb l (8 # 10) then Ok "ライトグレー"
        else Ok "ホワイト"
      else if JS.ltb l (15 # 100) then Ok "ダーク"
      else if JS.gtb l (85 # 100) then Ok "ライト"
      else if JS.ltb h 15 || JS.gtb h 345 then Ok "レッド系"
      else if JS.ltb h 45 then Ok "オレンジ系"
      else if JS.ltb h 75 then Ok "イエロー系"
      else if JS.ltb h 150 then Ok "グリーン系"
      else if JS.ltb h 180 then Ok "シアン系"
      else if JS.ltb h 250 then Ok "ブルー系"
      else if JS.ltb h 290 then Ok "パープル系"
      else if JS.ltb h 345 then Ok "ピンク系"
      else Ok "カスタム"
  end.

(** [id || generateColorId()]: an absent or empty id is replaced. *)
Definition createColorInfo (r g b : Z) (id : option string) : M ColorInfo :=
  let hex := rgbToHex r g b in
  let rgb := mkRGB r g b in
  let hsl := rgbToHsl r g b in
  name <- lift (getColorName hex) ;;
  id' <- match id with
         | Some (String c rest) => ret (String c rest)
         | _ => generateColorId
         end ;;
  ret (mkColorInfo hex rgb hsl name (Some id')).

(** [chroma.mix(a, b, f)] on colour strings. *)
Definition chromaMix (a b : string) (f : Q) : result Chroma.Color :=
  c1 <-- chroma a ;;
  c2 <-- chroma b ;;
  Ok (Chroma.mix c1 c2 f).

Definition mixColors (color1 color2 : ColorInfo) (ratio : Q) : M MixedColor :=
  mixed <- lift (chromaMix (hex color1) (hex color2) ratio) ;;
  let '(r, g, b) := Chroma.rgb mixed in
  mixedColorInfo <-
    createColorInfo (JS.round (inject_Z r)) (JS.round (inject_Z g))
                    (JS.round (inject_Z b)) None ;;
  ret (mkMixedColor
         (withName mixedColorInfo (name color1 ++ " × " ++ name color2))
         [id color1; id color2]
         [1 - ratio; ratio]).

(** The loop shared by [mixMultipleColors] and [getMixedColorAtProgress]:
    [for (i = start; ...; i++)
       currentMix = chroma.mix(currentMix, colors[i].hex, 1 / (i + 1)).hex()],
    run for [count] iterations.  Reading [.hex] of a missing element throws. *)
Fixpoint mixLoop (count i : nat) (colors : list ColorInfo)
                 (currentMix : string) : result string :=
  match count with
  | O => Ok currentMix
  | S count' =>
      match nth_error colors i with
      | None => Throw TypeError
      | Some c =>
          m <-- chromaMix currentMix (hex c) (1 / inject_Z (Z.of_nat i + 1)) ;;
          mixLoop count' (S i) colors (Chroma.hex m)
      end
  end.

Definition mixMultipleColors (colors : list ColorInfo) : M MixedColor :=
  if Nat.ltb (List.length colors) 2 then throw InsufficientColors
  else
    match colors with
    | [c0; c1] => mixColors c0 c1 (1 # 2)
    | [] => throw TypeError
    | c0 :: _ =>
        currentMix <- lift (mixLoop (List.length colors - 1) 1 colors (hex c0)) ;;
        color <- lift (chroma currentMix) ;;
        let '(r, g, b) := Chroma.rgb color in
        mixedColorInfo <-
          createColorInfo (JS.round (inject_Z r)) (JS.round (inject_Z g))
                          (JS.round (inject_Z b)) None ;;
        let parentIds := map id colors in
        let colorNames := JS.join " × " (map name colors) in
        ret (mkMixedColor
               (withName mixedColorInfo ("混合色: " ++ colorNames))
               parentIds
               (map (fun _ => 1 / inject_Z (Z.of_nat (List.length colors))) colors))
    end.

Definition getComplementaryColor (hex : string) : result string :=
  color <-- chroma hex ;;
  let '(h, s, l) := Chroma.hsl color in
  let complementaryHue := JS.rem (JS.orElse h 0 + 180) 360 in
  Ok (Chroma.hex (Chroma.ofHsl complementaryHue s l)).

Definition hexAt (colors : list ColorInfo) (i : nat) : result string :=
  match nth_error colors i with
  | Some c => Ok (hex c)
  | None => Throw TypeError
  end.

Definition getMixedColorAtProgress (colors : list ColorInfo) (progress : Q)
  : result string :=
  if JS.leb progress 0 then hexAt colors 0
  else if JS.geb progress 1 then
    result0 <-- hexAt colors 0 ;;
    mixLoop (List.length colors - 1) 1 colors result0
  else
    let totalColors := Z.of_nat (List.length colors) in
    let currentStage := progress * inject_Z (totalColors - 1) in
    let stageIndex := JS.floor currentStage in
    let stageProgress := currentStage - inject_Z stageIndex in
    if (stageIndex =? 0)%Z then
      c0 <-- hexAt colors 0 ;;
      c1 <-- hexAt colors 1 ;;
      m <-- chromaMix c0 c1 stageProgress ;;
      Ok (Chroma.hex m)
    else
      c0 <-- hexAt colors 0 ;;
      currentMix <-- mixLoop (Z.to_nat stageIndex) 1 colors c0 ;;
      if (stageIndex + 1 <? totalColors)%Z then
        let nextColorWeight := stageProgress / inject_Z (stageIndex + 2) in
        next <-- hexAt colors (Z.to_nat (stageIndex + 1)) ;;
        m <-- chromaMix currentMix next nextColorWeight ;;
        Ok (Chroma.hex m)
      else Ok currentMix.

(** [(Math.random() - 0.5) * 0.1] and the clamped progress. *)
Definition jitterOf (x : Q) : Q := (x - (1 # 2)) * (1 # 10).

Definition adjustedProgressOf (progress jitter : Q) : Q :=
  JS.max 0 (JS.min 1 (progress + jitter)).

(** The colour of one frame, at the adjusted progress. *)
Definition frameColor (colors : list ColorInfo) (adjustedProgress : Q)
  : result string :=
  if Nat.eqb (List.length colors) 2 then
    c0 <-- hexAt colors 0 ;;
    c1 <-- hexAt colors 1 ;;
    m <-- chromaMix c0 c1 adjustedProgress ;;
    Ok (Chroma.hex m)
  else getMixedColorAtProgress colors adjustedProgress.

(** The body of [for (let i = 0; i <= steps; i++)], for [count] remaining
    iterations starting at [i]. *)
Fixpoint framesLoop (colors : list ColorInfo) (steps : positive)
                    (count : nat) (i : Z) : M (list Frame) :=
  match count with
  | O => ret []
  | S count' =>
      let progress := inject_Z i / inject_Z (Zpos steps) in
      x <- Math_random ;;
      let jitter := jitterOf x in
      let adjustedProgress := adjustedProgressOf progress jitter in
      mixedColor <- lift (frameColor colors adjustedProgress) ;;
      rest <- framesLoop colors steps count' (i + 1)%Z ;;
      ret (mkFrame mixedColor progress :: rest)
  end.

(** [steps] is a positive integer: the default is 30 and the callers pass
    40 and 45. *)
Definition generateColorMixingAnimation (colors : list ColorInfo)
                                        (steps : positive)
  : M (list Frame) :=
  if Nat.ltb (List.length colors) 2 then
    ret [ mkFrame (JS.strOrElse (option_map hex (nth_error colors 0)) "#000000")
                  1 ]
  else framesLoop colors steps (S (Pos.to_nat steps)) 0%Z.

End ColorUtils.

(* ------------------------------------------------------------------------- *)
(** ** advancedColorUtils *)

Record Level : Type := mkLevel { normal : bool; large : bool }.

Record Suggestions : Type := mkSuggestions {
  lightVersion : string;
  darkVersion : string
}.

Record WCAGResult : Type := mkWCAGResult {
  foreground : string;
  background : string;
  contrastRatio : Q;
  aaLevel : Level;
  aaaLevel : Level;
  suggestions : Suggestions
}.

Record Harmony : Type := mkHarmony {
  complementary : list string;
  triadic : list string;
  tetradic : list string;
  analogous : list string;
  splitComplementary : list string
}.

Section AdvancedColorUtils.

Variable chromaOther : string -> option Chroma.Color.

(** chroma-js operations built on transcendental functions:
    [chroma.deltaE] (CIEDE2000 in LAB), [chroma.contrast] (ratio of
    relative luminances), [color.brighten(amount)] and
    [color.darken(amount)] (a shift of L in LAB). *)
Variable deltaE : Chroma.Color -> Chroma.Color -> JS.number.
Variable contrast : Chroma.Color -> Chroma.Color -> JS.number.
Variable brighten : Chroma.Color -> Q -> Chroma.Color.
Variable darken : Chroma.Color -> Q -> Chroma.Color.

(** [Math.sqrt]. *)
Variable Math_sqrt : Q -> Q.

Notation "x <-- m ;; k" := (rbind m (fun x => k))
  (at level 61, m at next level, right associativity).

(** [chroma.deltaE(a, b)] and [chroma.contrast(a, b)] on colour strings. *)
Definition chromaDeltaE (a b : string) : result JS.number :=
  c1 <-- chroma chromaOther a ;;
  c2 <-- chroma chromaOther b ;;
  Ok (deltaE c1 c2).

Definition chromaContrast (a b : string) : result JS.number :=
  c1 <-- chroma chromaOther a ;;
  c2 <-- chroma chromaOther b ;;
  Ok (contrast c1 c2).

(** [Math.round(x * 100) / 100]. *)
Definition round2 (x : Q) : Q := inject_Z (JS.round (x * 100)) / 100.

Definition createEmptyWCAGResult (foreground background : string)
  : WCAGResult :=
  mkWCAGResult foreground background 1
               (mkLevel false false) (mkLevel false false)
               (mkSuggestions foreground foreground).

(** The last-resort distance of the [catch] blocks: Euclidean distance of
    the RGB triples, scaled to 0..100 and by [scale]. *)
Definition simpleDiff (color1 color2 : string) (scale : Q) : result Q :=
  c1 <-- chroma chromaOther color1 ;;
  c2 <-- chroma chromaOther color2 ;;
  let '(r1, g1, b1) := Chroma.rgb c1 in
  let '(r2, g2, b2) := Chroma.rgb c2 in
  let sq (x : Z) := inject_Z (x * x)%Z in
  Ok (Math_sqrt (sq (r1 - r2)%Z + sq (g1 - g2)%Z + sq (b1 - b2)%Z)
      / Math_sqrt (3 * 255 * 255) * 100 * scale).

Definition calculateDeltaE2000 (color1 color2 : string) : Q :=
  match
    (chromaColor1 <-- chroma chromaOther color1 ;;
     chromaColor2 <-- chroma chromaOther color2 ;;
     if negb (valid chromaOther color1) || negb (valid chromaOther color2) then Ok 100
     else
       deltaE <-- chromaDeltaE color1 color2 ;;
       if negb (JS.isFinite deltaE) || JS.isNaN deltaE then Ok 100
       else match deltaE with
            | JS.Num d => Ok (round2 d)
            | _ => Ok 100
            end)
  with
  | Ok v => v
  | Throw _ =>
      match simpleDiff color1 color2 1 with
      | Ok d => round2 d
      | Throw _ => 100
      end
  end.

Definition calculateDeltaE94 (color1 color2 : string) : Q :=
  match
    (chromaColor1 <-- chroma chromaOther color1 ;;
     chromaColor2 <-- chroma chromaOther color2 ;;
     if negb (valid chromaOther color1) || negb (valid chromaOther color2) then Ok 100
     else
       baseDeltaE <-- chromaDeltaE color1 color2 ;;
       if negb (JS.isFinite baseDeltaE) || JS.isNaN baseDeltaE then Ok 100
       else match baseDeltaE with
            | JS.Num d => let deltaE94 := d * (95 # 100) in Ok (round2 deltaE94)
            | _ => Ok 100
            end)
  with
  | Ok v => v
  | Throw _ =>
      match simpleDiff color1 color2 (95 # 100) with
      | Ok d => round2 d
      | Throw _ => 100
      end
  end.

Definition targetRatio : Q := 45 # 10.
Definition maxIterations : nat := 20.

(** [n <= q] for a number [n] that may be NaN or infinite. *)
Definition numLeb (n : JS.number) (q : Q) : bool :=
  match n with
  | JS.Num x => JS.leb x q
  | JS.NegInfinity => true
  | _ => false
  end.

(** One of the two [while] loops of [generateWCAGSuggestions]; [adjust] is
    [c => c.brighten(0.3)] or [c => c.darken(0.3)].  [fuel] bounds the
    number of times the loop body is entered: [None] means that the loop is
    still running when the fuel is spent. *)
Fixpoint suggestionLoop (adjust : Chroma.Color -> Chroma.Color)
                        (background : string) (fuel : nat)
                        (version : string) (ratio : Q) (iterations : nat)
  : option string :=
  if JS.ltb ratio targetRatio && Nat.ltb iterations maxIterations then
    match fuel with
    | O => None
    | S fuel' =>
        match
          (c <-- chroma chromaOther version ;;
           let newColor := Chroma.hex (adjust c) in
           newRatio <-- chromaContrast newColor background ;;
           Ok (newColor, newRatio))
        with
        | Throw _ => Some version
        | Ok (newColor, newRatio) =>
            if negb (JS.isFinite newRatio) || JS.isNaN newRatio
               || numLeb newRatio ratio
            then Some version
            else match newRatio with
                 | JS.Num q =>
                     if JS.gtb q 21 then Some newColor
                     else suggestionLoop adjust background fuel'
                                         newColor q (S iterations)
                 | _ => Some version
                 end
        end
    end
  else Some version.

Definition generateWCAGSuggestions (fuel : nat)
    (foreground background : string) (currentRatio : Q)
  : option Suggestions :=
  match suggestionLoop (fun c => brighten c (3 # 10)) background fuel
                       foreground currentRatio 0 with
  | None => None
  | Some lightVersion =>
      match suggestionLoop (fun c => darken c (3 # 10)) background fuel
                           foreground currentRatio 0 with
      | None => None
      | Some darkVersion => Some (mkSuggestions lightVersion darkVersion)
      end
  end.

(** [None]: one of the suggestion loops has not finished within [fuel]
    passes. *)
Definition checkWCAGCompliance (fuel : nat) (foreground background : string)
  : option WCAGResult :=
  match
    (chromaFg <-- chroma chromaOther foreground ;;
     chromaBg <-- chroma chromaOther background ;;
     if negb (valid chromaOther foreground) || negb (valid chromaOther background)
     then Ok (Some (createEmptyWCAGResult foreground background))
     else
       contrastRatio <-- chromaContrast foreground background ;;
       if negb (JS.isFinite contrastRatio) || JS.isNaN contrastRatio
       then Ok (Some (createEmptyWCAGResult foreground background))
       else match contrastRatio with
            | JS.Num q =>
                let roundedRatio := round2 q in
                let aaLevel := mkLevel (JS.geb roundedRatio (45 # 10))
                                       (JS.geb roundedRatio 3) in
                let aaaLevel := mkLevel (JS.geb roundedRatio 7)
                                        (JS.geb roundedRatio (45 # 10)) in
                Ok (option_map
                      (fun suggestions =>
                         mkWCAGResult foreground background roundedRatio
                                      aaLevel aaaLevel suggestions)
                      (generateWCAGSuggestions fuel foreground background
                                               roundedRatio))
            | _ => Ok (Some (createEmptyWCAGResult foreground background))
            end)
  with
  | Ok res => res
  | Throw _ => Some (createEmptyWCAGResult foreground background)
  end.

Definition calculateAdvancedHarmony (baseColor : string) : result Harmony :=
  color <-- chroma chromaOther baseColor ;;
  let '(h0, s0, l0) := Chroma.hsl color in
  let h := JS.orElse h0 0 in
  let s := JS.orElse (Some s0) (1 # 2) in
  let l := JS.orElse (Some l0) (1 # 2) in
  let rot (hue : Q) := Chroma.hex (Chroma.ofHsl (JS.rem hue 360) s l) in
  Ok (mkHarmony
        [rot (h + 180)]
        [rot (h + 120); rot (h + 240)]
        [rot (h + 90); rot (h + 180); rot (h + 270)]
        [rot (h - 30 + 360); rot (h + 30)]
        [rot (h + 150); rot (h + 210)]).

End AdvancedColorUtils.

(* ------------------------------------------------------------------------- *)
(** ** colorUtils: random colours, temperature and jitter *)

Inductive Temperature : Type := warm | cool | neutral.

Section ColorUtilsHelpers.

Variable chromaOther : string -> option Chroma.Color.
Variable random : nat -> Q.
Variable base36 : Q -> string.

Notation "x <- m ;; k" := (bind m (fun x => k))
  (at level 61, m at next level, right associativity).

Notation "x <-- m ;; k" := (rbind m (fun x => k))
  (at level 61, m at next level, right associativity).

Definition generateRandomColor : M ColorInfo :=
  x <- Math_random random ;;
  let r := JS.floor (x * 256) in
  y <- Math_random random ;;
  let g := JS.floor (y * 256) in
  z <- Math_random random ;;
  let b := JS.floor (z * 256) in
  createColorInfo chromaOther random base36 r g b None.

Definition getColorTemperature (hex : string) : result Temperature :=
  color <-- chroma chromaOther hex ;;
  let '(h0, _, _) := Chroma.hsl color in
  let hue := JS.orElse h0 0 in
  if JS.geb hue 45 && JS.leb hue 135 then Ok cool
  else if JS.geb hue 225 && JS.leb hue 315 then Ok cool
  else if (JS.geb hue 315 && JS.leb hue 360) || (JS.geb hue 0 && JS.leb hue 45)
  then Ok warm
  else if JS.geb hue 135 && JS.leb hue 225 then Ok warm
  else Ok neutral.

(** [h + x] and [h % 360] are NaN when the hue [h] is NaN; [newH || 0]
    then takes the default. *)
Definition addColorJitter (hex : string) (intensity : Q) : M string :=
  color <- lift (chroma chromaOther hex) ;;
  let '(h, s, l) := Chroma.hsl color in
  x <- Math_random random ;;
  let newH :=
    option_map (fun h => JS.rem (h + (x - (1 # 2)) * intensity * 360) 360) h in
  y <- Math_random random ;;
  let newS := JS.max 0 (JS.min 1 (s + (y - (1 # 2)) * intensity)) in
  z <- Math_random random ;;
  let newL := JS.max 0 (JS.min 1 (l + (z - (1 # 2)) * intensity)) in
  ret (Chroma.hex (Chroma.ofHsl (JS.orElse newH 0) newS newL)).

End ColorUtilsHelpers.

(* ------------------------------------------------------------------------- *)
(** ** advancedColorUtils: palettes and colour-vision simulation *)

Record LABColor : Type := mkLAB { lab_l : Q; lab_a : Q; lab_b : Q }.

Record Accessibility : Type := mkAccessibility {
  isAccessible : bool;
  issues : list string;
  recommendations : list string
}.

Record ColorBlindnessResult : Type := mkColorBlindnessResult {
  original : list ColorInfo;
  protanomaly : list ColorInfo;
  deuteranomaly : list ColorInfo;
  tritanomaly : list ColorInfo;
  monochromacy : list ColorInfo;
  accessibility : Accessibility
}.

Module Advanced.

Section Palette.

Variable chromaOther : string -> option Chroma.Color.
Variable deltaE : Chroma.Color -> Chroma.Color -> JS.number.
Variable contrast : Chroma.Color -> Chroma.Color -> JS.number.
Variable brighten : Chroma.Color -> Q -> Chroma.Color.
Variable darken : Chroma.Color -> Q -> Chroma.Color.
Variable Math_sqrt : Q -> Q.

(** [color.luminance()]: the WCAG relative luminance. *)
Variable luminance : Chroma.Color -> Q.

(** culori's [lab] on an [rgb] colour with channels in 0..1; [None] is
    [undefined]. *)
Variable lab : Q -> Q -> Q -> option (Q * Q * Q).

(** The conversion of a number in a template literal. *)
Variable numberToString : Q -> string.

Notation "x <-- m ;; k" := (rbind m (fun x => k))
  (at level 61, m at next level, right associativity).

Definition rgbToLab (r g b : Z) : LABColor :=
  let labColor := lab (inject_Z r / 255) (inject_Z g / 255) (inject_Z b / 255) in
  let field (proj : Q * Q * Q -> Q) :=
    inject_Z (JS.round (JS.orElse (option_map proj labColor) 0 * 100)) / 100 in
  mkLAB (field (fun c => fst (fst c))) (field (fun c => snd (fst c)))
        (field (fun c => snd c)).

Definition getColorName (hex : string) : result string :=
  color <-- chroma chromaOther hex ;;
  let '(r, g, b) := Chroma.rgb color in
  let labColor := rgbToLab r g b in
  if JS.ltb (lab_l labColor) 20 then Ok "ダークトーン"
  else if JS.gtb (lab_l labColor) 80 then Ok "ライトトーン"
  else
    color' <-- chroma chromaOther hex ;;
    let '(h0, s0, _) := Chroma.hsl color' in
    let h := JS.orElse h0 0 in
    let s := JS.orElse (Some s0) 0 in
    if JS.ltb s (1 # 10) then Ok "グレートーン"
    else if JS.geb h 0 && JS.ltb h 15 then Ok "レッド系"
    else if JS.geb h 15 && JS.ltb h 45 then Ok "オレンジ系"
    else if JS.geb h 45 && JS.ltb h 75 then Ok "イエロー系"
    else if JS.geb h 75 && JS.ltb h 105 then Ok "イエローグリーン系"
    else if JS.geb h 105 && JS.ltb h 135 then Ok "グリーン系"
    else if JS.geb h 135 && JS.ltb h 165 then Ok "ブルーグリーン系"
    else if JS.geb h 165 && JS.ltb h 195 then Ok "シアン系"
    else if JS.geb h 195 && JS.ltb h 225 then Ok "スカイブルー系"
    else if JS.geb h 225 && JS.ltb h 255 then Ok "ブルー系"
    else if JS.geb h 255 && JS.ltb h 285 then Ok "バイオレット系"
    else if JS.geb h 285 && JS.ltb h 315 then Ok "パープル系"
    else if JS.geb h 315 && JS.ltb h 345 then Ok "マゼンタ系"
    else if JS.geb h 345 && JS.leb h 360 then Ok "レッド系"
    else Ok "カスタムカラー".

(** The inner loop [for (j = i + 1; ...)]: one colour against each later
    colour of the palette. *)
Fixpoint checkAgainst (fuel : nat) (c : ColorInfo) (later : list ColorInfo)
  : option (list WCAGResult) :=
  match later with
  | [] => Some []
  | d :: later' =>
      match checkWCAGCompliance chromaOther contrast brighten darken fuel
                                (hex c) (hex d) with
      | None => None
      | Some res =>
          match checkAgainst fuel c later' with
          | None => None
          | Some rest => Some (res :: rest)
          end
      end
  end.

(** The outer loop [for (i = 0; ...)]; [None] when a suggestion loop has
    not finished within [fuel] passes. *)
Fixpoint evaluatePaletteWCAG (fuel : nat) (colors : list ColorInfo)
  : option (list WCAGResult) :=
  match colors with
  | [] => Some []
  | c :: later =>
      match checkAgainst fuel c later with
      | None => None
      | Some row =>
          match evaluatePaletteWCAG fuel later with
          | None => None
          | Some rest => Some (row ++ rest)%list
          end
      end
  end.

(** A comparison with a NaN hue is false: an achromatic colour is returned
    as it is. *)
Definition simulateProtanomaly (hex : string) : result string :=
  color <-- chroma chromaOther hex ;;
  match Chroma.hsl color with
  | (Some h, s, l) =>
      if JS.geb h 0 && JS.leb h 60
      then Ok (Chroma.hex (Chroma.ofHsl (JS.rem (h + 30) 360) (s * (7 # 10)) l))
      else Ok hex
  | (None, _, _) => Ok hex
  end.

Definition simulateDeuteranomaly (hex : string) : result string :=
  color <-- chroma chromaOther hex ;;
  match Chroma.hsl color with
  | (Some h, s, l) =>
      if JS.geb h 60 && JS.leb h 180
      then Ok (Chroma.hex (Chroma.ofHsl (h - 20) (s * (6 # 10)) l))
      else Ok hex
  | (None, _, _) => Ok hex
  end.

Definition simulateTritanomaly (hex : string) : result string :=
  color <-- chroma chromaOther hex ;;
  match Chroma.hsl color with
  | (Some h, s, l) =>
      if JS.geb h 180 && JS.leb h 300
      then Ok (Chroma.hex (Chroma.ofHsl (JS.rem (h + 60) 360) (s * (8 # 10)) l))
      else Ok hex
  | (None, _, _) => Ok hex
  end.

Definition simulateMonochromacy (hex : string) : result string :=
  color <-- chroma chromaOther hex ;;
  let grayValue := inject_Z (JS.round (luminance color * 255)) in
  Ok (Chroma.hex (Chroma.ofRgb grayValue grayValue grayValue)).

(** [colors.map(color => ({...color, hex: simulate(color.hex),
                           name: `${color.name || 'Color'} (suffix)`}))]. *)
Fixpoint simulateAll (simulate : string -> result string) (suffix : string)
                     (colors : list ColorInfo) : result (list ColorInfo) :=
  match colors with
  | [] => Ok []
  | color :: rest =>
      hex' <-- simulate (hex color) ;;
      rest' <-- simulateAll simulate suffix rest ;;
      Ok (mkColorInfo hex' (rgb color) (hsl color)
                      (JS.strOrElse (Some (name color)) "Color" ++ suffix)
                      (id color)
          :: rest')
  end.

(** [for (j = i + 1; j < variant.length; j++)] for one [i]: [i] and [j] are
    the positions from 0. *)
Fixpoint issuesAgainst (typeName : string) (i j : nat) (ci : ColorInfo)
                       (later : list ColorInfo) : list string :=
  match later with
  | [] => []
  | cj :: later' =>
      let deltaE := calculateDeltaE2000 chromaOther deltaE Math_sqrt
                                        (hex ci) (hex cj) in
      let found :=
        if JS.ltb deltaE 3
        then [typeName ++ "で色" ++ numberToString (inject_Z (Z.of_nat i + 1))
              ++ "と色" ++ numberToString (inject_Z (Z.of_nat j + 1))
              ++ "の区別が困難 (ΔE: " ++ numberToString deltaE ++ ")"]
        else [] in
      (found ++ issuesAgainst typeName i (S j) ci later')%list
  end.

(** [for (i = 0; i < variant.length - 1; i++)], from position [i]. *)
Fixpoint issuesOf (typeName : string) (i : nat) (variant : list ColorInfo)
  : list string :=
  match variant with
  | [] => []
  | ci :: later =>
      (issuesAgainst typeName i (S i) ci later
       ++ issuesOf typeName (S i) later)%list
  end.

Definition typeNames : list string :=
  ["1型色覚"; "2型色覚"; "3型色覚"; "1色型色覚"].

(** [variants.forEach((variant, index) => ...)], from position [index];
    [typeNames[index]] is [undefined] past the fourth variant. *)
Fixpoint issuesOfVariants (index : nat) (variants : list (list ColorInfo))
  : list string :=
  match variants with
  | [] => []
  | variant :: rest =>
      (issuesOf (nth index typeNames "undefined") 0 variant
       ++ issuesOfVariants (S index) rest)%list
  end.

Definition evaluateColorBlindnessAccessibility
    (original : list ColorInfo) (variants : list (list ColorInfo))
  : Accessibility :=
  let issues := issuesOfVariants 0 variants in
  let recommendations :=
    if Nat.ltb 0 (List.length issues)
    then ["💡 明度差を大きくする";
          "💡 パターンやテクスチャを併用する";
          "💡 色以外の視覚的手がかり（形状、サイズ）を活用する"]
    else [] in
  mkAccessibility (Nat.eqb (List.length issues) 0) issues recommendations.

Definition simulateColorBlindness (colors : list ColorInfo)
  : result ColorBlindnessResult :=
  protanomaly <-- simulateAll simulateProtanomaly " (1型色覚)" colors ;;
  deuteranomaly <-- simulateAll simulateDeuteranomaly " (2型色覚)" colors ;;
  tritanomaly <-- simulateAll simulateTritanomaly " (3型色覚)" colors ;;
  monochromacy <-- simulateAll simulateMonochromacy " (1色型)" colors ;;
  let accessibility :=
    evaluateColorBlindnessAccessibility
      colors [protanomaly; deuteranomaly; tritanomaly; monochromacy] in
  Ok (mkColorBlindnessResult colors protanomaly deuteranomaly tritanomaly
                             monochromacy accessibility).

End Palette.

End Advanced.

(* ------------------------------------------------------------------------- *)
(** ** educationalColorUtils *)

Module Educational.

Record ColorScience : Type := mkColorScience {
  wavelength : option Q;
  luminance : Q;
  chromaticity : Q * Q
}.

Record WheelPosition : Type := mkWheelPosition { angle : Z; radius : Z }.

Record HarmonyColors : Type := mkHarmonyColors {
  complementary : string;
  analogous : list string;
  triadic : list string;
  tetradic : list string
}.

(** The inner function [getWavelength] of [generateColorScience]; the
    argument is [None] for NaN and the result [None] for [undefined]. *)
Definition getWavelength (hue : option Q) : option Q :=
  match hue with
  | None => None
  | Some hue =>
      if JS.geb hue 0 && JS.ltb hue 60 then Some (700 - (hue / 60) * 75)
      else if JS.geb hue 60 && JS.ltb hue 120
      then Some (625 - ((hue - 60) / 60) * 95)
      else if JS.geb hue 120 && JS.ltb hue 180
      then Some (530 - ((hue - 120) / 60) * 30)
      else if JS.geb hue 180 && JS.ltb hue 240
      then Some (500 - ((hue - 180) / 60) * 25)
      else if JS.geb hue 240 && JS.ltb hue 300
      then Some (475 - ((hue - 240) / 60) * 65)
      else Some (410 - ((hue - 300) / 60) * 30)
  end.

Section Educational.

Variable chromaOther : string -> option Chroma.Color.

(** [color.luminance()] and [Math.pow]. *)
Variable chromaLuminance : Chroma.Color -> Q.
Variable Math_pow : Q -> Q -> Q.

Notation "x <-- m ;; k" := (rbind m (fun x => k))
  (at level 61, m at next level, right associativity).

(** The inner function [getChromaticity] of [generateColorScience]. *)
Definition getChromaticity (rgb : Z * Z * Z) : Q * Q :=
  let linear (v : Z) : Q :=
    let val := inject_Z v / 255 in
    let val := if JS.gtb val (4045 # 100000)
               then Math_pow ((val + (55 # 1000)) / (1055 # 1000)) (24 # 10)
               else val / (1292 # 100) in
    val * 100 in
  let '(r0, g0, b0) := rgb in
  let r := linear r0 in
  let g := linear g0 in
  let b := linear b0 in
  let X := r * (4124 # 10000) + g * (3576 # 10000) + b * (1805 # 10000) in
  let Y := r * (2126 # 10000) + g * (7152 # 10000) + b * (722 # 10000) in
  let Z := r * (193 # 10000) + g * (1192 # 10000) + b * (9505 # 10000) in
  let sum := X + Y + Z in
  if JS.eqb sum 0 then (0, 0)
  else (inject_Z (JS.round ((X / sum) * 10000)) / 10000,
        inject_Z (JS.round ((Y / sum) * 10000)) / 10000).

Definition generateColorScience (color : ColorInfo) : result ColorScience :=
  chromaColor <-- chroma chromaOther (hex color) ;;
  let '(h0, _, _) := Chroma.hsl chromaColor in
  let hue := JS.orElse h0 0 in
  Ok (mkColorScience
        (getWavelength (Some hue))
        (inject_Z (JS.round (chromaLuminance chromaColor * 10000)) / 10000)
        (getChromaticity (Chroma.rgb chromaColor))).

Definition calculateWheelPosition (color : ColorInfo) : result WheelPosition :=
  c <-- chroma chromaOther (hex color) ;;
  let '(h0, s0, _) := Chroma.hsl c in
  Ok (mkWheelPosition (JS.round (JS.orElse h0 0))
                      (JS.round (JS.orElse (Some s0) 0 * 100))).

Definition getColorPsychologyEffects (color : ColorInfo) : result (list string) :=
  c <-- chroma chromaOther (hex color) ;;
  let '(h0, s0, l0) := Chroma.hsl c in
  let hue := JS.orElse h0 0 in
  let saturation := JS.orElse (Some s0) 0 in
  let lightness := JS.orElse (Some l0) 0 in
  let byHue :=
    if JS.geb hue 345 || JS.ltb hue 15
    then ["情熱的"; "活力"; "興奮"; "注意喚起"]
    else if JS.ltb hue 45
    then ["暖かさ"; "親しみやすさ"; "創造性"; "活発さ"]
    else if JS.ltb hue 75 then ["明るさ"; "楽観的"; "注意"; "知性"]
    else if JS.ltb hue 150 then ["自然"; "安らぎ"; "成長"; "バランス"]
    else if JS.ltb hue 180 then ["爽快感"; "清潔感"; "リフレッシュ"]
    else if JS.ltb hue 250 then ["冷静"; "信頼"; "安定"; "集中"]
    else if JS.ltb hue 290 then ["神秘的"; "高貴"; "創造的"; "想像力"]
    else ["優雅"; "ロマンチック"; "愛情"; "柔らかさ"] in
  let bySaturation :=
    if JS.ltb saturation (3 # 10) then ["落ち着いた"; "上品な"]
    else if JS.gtb saturation (7 # 10) then ["鮮やか"; "インパクトのある"]
    else [] in
  let byLightness :=
    if JS.ltb lightness (3 # 10) then ["重厚感"; "安定感"]
    else if JS.gtb lightness (7 # 10) then ["軽やか"; "清潔感"]
    else [] in
  Ok (firstn 6 (byHue ++ bySaturation ++ byLightness)%list).

Definition calculateHarmonyColors (color : ColorInfo) : result HarmonyColors :=
  c <-- chroma chromaOther (hex color) ;;
  let '(h0, s0, l0) := Chroma.hsl c in
  let hue := JS.orElse h0 0 in
  let saturation := JS.orElse (Some s0) 0 in
  let lightness := JS.orElse (Some l0) 0 in
  let at_ (h : Q) := Chroma.hex (Chroma.ofHsl h saturation lightness) in
  Ok (mkHarmonyColors
        (at_ (JS.rem (hue + 180) 360))
        [at_ (JS.rem (hue - 30 + 360) 360); at_ (JS.rem (hue + 30) 360)]
        [at_ (JS.rem (hue + 120) 360); at_ (JS.rem (hue + 240) 360)]
        [at_ (JS.rem (hue + 90) 360); at_ (JS.rem (hue + 180) 360);
         at_ (JS.rem (hue + 270) 360)]).

End Educational.

(** [angle] is a whole number: the caller passes the rounded angle of a
    wheel position.  On whole numbers of magnitude below 2^53 the binary64
    [%] and [+] of the code are exact, and [%] is the remainder that has the
    sign of the dividend ([Z.rem]). *)
Definition getColorNameFromAngle (angle : Z) : string :=
  let normalizedAngle := Z.rem (Z.rem angle 360 + 360) 360 in
  if (normalizedAngle <? 15)%Z || (normalizedAngle >=? 345)%Z then "赤"
  else if (normalizedAngle <? 45)%Z then "赤オレンジ"
  else if (normalizedAngle <? 75)%Z then "オレンジ"
  else if (normalizedAngle <? 105)%Z then "黄オレンジ"
  else if (normalizedAngle <? 135)%Z then "黄"
  else if (normalizedAngle <? 165)%Z then "黄緑"
  else if (normalizedAngle <? 195)%Z then "緑"
  else if (normalizedAngle <? 225)%Z then "青緑"
  else if (normalizedAngle <? 255)%Z then "青"
  else if (normalizedAngle <? 285)%Z then "青紫"
  else if (normalizedAngle <? 315)%Z then "紫"
  else "赤紫".

Definition getWavelengthDescription (wavelength : Q) : string :=
  if JS.geb wavelength 700 && JS.leb wavelength 750
  then "深い赤色領域 - 強い存在感と情熱を表現"
  else if JS.geb wavelength 650 && JS.ltb wavelength 700
  then "赤色領域 - 暖かく情熱的な印象"
  else if JS.geb wavelength 590 && JS.ltb wavelength 650
  then "オレンジ色領域 - 活力と親しみやすさを演出"
  else if JS.geb wavelength 570 && JS.ltb wavelength 590
  then "黄色領域 - 明るく注意を引く色"
  else if JS.geb wavelength 495 && JS.ltb wavelength 570
  then "緑色領域 - 自然で安らぎを与える色"
  else if JS.geb wavelength 450 && JS.ltb wavelength 495
  then "青色領域 - 冷静で信頼感を与える色"
  else if JS.geb wavelength 380 && JS.ltb wavelength 450
  then "紫色領域 - 神秘的で高貴な印象"
  else "可視光線外 - 特殊な光の領域".

End Educational.

(* ------------------------------------------------------------------------- *)
(** ** The mixer components: text colour and the list of colours to mix *)

Module ElementaryMixer.

(** ASCII white space, which [parseInt] skips. *)
Definition isWhiteSpace (c : ascii) : bool :=
  let n := nat_of_ascii c in
  Nat.eqb n 32 || (Nat.leb 9 n && Nat.leb n 13).

Fixpoint trimStart (s : string) : string :=
  match s with
  | String c s' => if isWhiteSpace c then trimStart s' else s
  | EmptyString => s
  end.

(** [parseInt(s, 16)] on an ASCII string: white space, a sign and a [0x]
    prefix are skipped, then the longest run of hexadecimal digits is read;
    [None] is NaN (no digit). *)
Definition parseInt (s : string) : option Z :=
  let s1 := trimStart s in
  let '(sign, s2) :=
    match s1 with
    | String "-"%char rest => ((-1)%Z, rest)
    | String "+"%char rest => (1%Z, rest)
    | _ => (1%Z, s1)
    end in
  let s3 :=
    match s2 with
    | String "0"%char (String "x"%char rest) => rest
    | String "0"%char (String "X"%char rest) => rest
    | _ => s2
    end in
  match s3 with
  | String c _ =>
      if JS.isHexDigit c then Some (sign * JS.parseInt16 s3)%Z else None
  | EmptyString => None
  end.

(** [s.slice(from, to)] for [0 <= from <= to]. *)
Definition slice (from to : nat) (s : string) : string :=
  String.substring from (to - from) s.

(** A comparison with NaN is false. *)
Definition getContrastTextColor (hex : string) : string :=
  let r := parseInt (slice 1 3 hex) in
  let g := parseInt (slice 3 5 hex) in
  let b := parseInt (slice 5 7 hex) in
  match r, g, b with
  | Some r, Some g, Some b =>
      let brightness :=
        (inject_Z r * 299 + inject_Z g * 587 + inject_Z b * 114) / 1000 in
      if JS.leb brightness 128 then "#ffffff" else "#000000"
  | _, _, _ => "#000000"
  end.

(** The list of colours that [handleColorMix] stores for a mixer, from the
    list that it reads. *)
Definition handleColorMix (currentMixingColors : list ColorInfo)
                          (color : ColorInfo) : list ColorInfo :=
  let isDuplicate :=
    existsb (fun c => String.eqb (hex c) (hex color)) currentMixingColors in
  if isDuplicate then currentMixingColors
  else (currentMixingColors ++ [color])%list.

End ElementaryMixer.

Module MiddleSchoolMixer.

(** The same handler of MiddleSchoolColorMixer: at most three colours. *)
Definition handleColorMix (currentMixingColors : list ColorInfo)
                          (color : ColorInfo) : list ColorInfo :=
  let isDuplicate :=
    existsb (fun c => String.eqb (hex c) (hex color)) currentMixingColors in
  if isDuplicate || Nat.leb 3 (List.length currentMixingColors)
  then currentMixingColors
  else (currentMixingColors ++ [color])%list.

Definition handleRemoveMixingColor (currentColors : list ColorInfo)
                                   (colorToRemove : ColorInfo)
  : list ColorInfo :=
  filter (fun c => negb (String.eqb (hex c) (hex colorToRemove))) currentColors.

Definition handleClearMixer (currentColors : list ColorInfo) : list ColorInfo :=
  [].

(** The user's actions on one mixer; every handler reads the list that the
    previous one has stored. *)
Inductive Event : Type :=
| Mix (color : ColorInfo)
| Remove (color : ColorInfo)
| Clear.

Definition handle (colors : list ColorInfo) (e : Event) : list ColorInfo :=
  match e with
  | Mix c => handleColorMix colors c
  | Remove c => handleRemoveMixingColor colors c
  | Clear => handleClearMixer colors
  end.

End MiddleSchoolMixer.

(* ------------------------------------------------------------------------- *)
(** ** Auxiliary definitions of the properties *)

(** The invariant of every [Color] that the constructor has produced. *)
Definition clipped (c : Chroma.Color) : Prop :=
  (0 <= Chroma.red c <= 255) /\ (0 <= Chroma.green c <= 255)
  /\ (0 <= Chroma.blue c <= 255) /\ (0 <= Chroma.alpha c <= 1).

Definition packed (c : Chroma.Color) : Z :=
  (JS.round (Chroma.red c) * 65536 + JS.round (Chroma.green c) * 256
   + JS.round (Chroma.blue c))%Z.

Definition alphaByte (c : Chroma.Color) : Z := JS.round (Chroma.alpha c * 255).

(** Refinement target, in the words of the specification: blend colour 1 and
    colour 2 at weight 1/2, blend that result with colour 3 at weight 1/3,
    and so on; [k] is the position (from 1) of the next colour. *)
Fixpoint sequentialBlend (acc : Chroma.Color) (k : nat)
                         (rest : list Chroma.Color) : Chroma.Color :=
  match rest with
  | [] => acc
  | c :: rest' =>
      sequentialBlend (Chroma.mix acc c (1 / inject_Z (Z.of_nat k))) (S k) rest'
  end.

Definition sequentialBlendAll (cols : list Chroma.Color) : option Chroma.Color :=
  match cols with
  | [] => None
  | c0 :: rest => Some (sequentialBlend c0 2 rest)
  end.

Definition rgbOf (c : Chroma.Color) : RGBColor :=
  let '(r, g, b) := Chroma.rgb c in mkRGB r g b.

(** Two colours with the same RGB channels (alpha may differ). *)
Definition sameChannels (a b : Chroma.Color) : Prop :=
  Chroma.red a = Chroma.red b /\ Chroma.green a = Chroma.green b
  /\ Chroma.blue a = Chroma.blue b.

(** A chroma that reads hexadecimal notation only, and sample colours. *)
Definition hexOnly : string -> option Chroma.Color := fun _ => None.

Definition blackInfo : ColorInfo :=
  mkColorInfo "#000000" (mkRGB 0 0 0) (mkHSL 0 0 0) "ブラック" (Some "color_k").

Definition whiteInfo : ColorInfo :=
  mkColorInfo "#ffffff" (mkRGB 255 255 255) (mkHSL 0 0 100) "ホワイト"
              (Some "color_w").

Definition redInfo : ColorInfo :=
  mkColorInfo "#ff0000" (mkRGB 255 0 0) (mkHSL 0 100 50) "レッド"
              (Some "color_r").

(** The base distance of two pairs of near-blue colours, as a finite table:
    CIEDE2000 gives about 0.1024 for (#0000ff, #0101fe) and about 0.1076 for
    (#0000ff, #0302fe). *)
Definition sampleDeltaE (c1 c2 : Chroma.Color) : JS.number :=
  match Chroma.rgb c2 with
  | (1, 1, 254)%Z => JS.Num (1024 # 10000)
  | (3, 2, 254)%Z => JS.Num (1076 # 10000)
  | _ => JS.Num 0
  end.

Ltac split_ifs :=
  repeat match goal with
         | |- context [if ?b then _ else _] => destruct b
         end.

(** The whole numbers that binary64 represents exactly, with exact sums and
    remainders: [Number.isSafeInteger]. *)
Definition safeInteger (z : Z) : Prop :=
  (- 9007199254740991 <= z <= 9007199254740991)%Z.

(** A channel clamped to a byte, as the chroma constructor does. *)
Definition clampByte (z : Z) : Z := Z.max 0 (Z.min 255 z).

(** A channel between two integer bounds. *)
Definition within (lo hi : Z) (x : Q) : Prop :=
  inject_Z lo <= x <= inject_Z hi.

(** The pairs [(colors[i].hex, colors[j].hex)] for [i < j], in the order of
    the two nested loops. *)
Fixpoint laterPairs (hexes : list string) : list (string * string) :=
  match hexes with
  | [] => []
  | x :: later => (map (fun y => (x, y)) later ++ laterPairs later)%list
  end.

(** The hexadecimal digits and their values. *)
Definition hexTable : list (ascii * Z) :=
  [ ("0", 0); ("1", 1); ("2", 2); ("3", 3); ("4", 4); ("5", 5); ("6", 6);
    ("7", 7); ("8", 8); ("9", 9);
    ("a", 10); ("b", 11); ("c", 12); ("d", 13); ("e", 14); ("f", 15);
    ("A", 10); ("B", 11); ("C", 12); ("D", 13); ("E", 14); ("F", 15)
  ]%char%Z.

(** [parseInt] reads every pair of hexadecimal digits as a byte. *)
Definition parseIntReadsPairs : bool :=
  forallb
    (fun '(c1, v1) =>
       forallb
         (fun '(c2, v2) =>
            match ElementaryMixer.parseInt (String c1 (String c2 "")) with
            | Some z => (z =? v1 * 16 + v2)%Z
            | None => false
            end)
         hexTable)
    hexTable.

(** The list of colours of a mixer after a sequence of actions, from the
    empty mixer. *)
Definition mixerAfter (events : list MiddleSchoolMixer.Event)
  : list ColorInfo :=
  fold_left MiddleSchoolMixer.handle events [].

(* ========================================================================= *)
(** * Properties *)

(* ------------------------------------------------------------------------- *)
(** ** The chroma model on sample values *)

Example chroma_hex_red : Chroma.hex (Chroma.ofRgb 255 0 0) = "#ff0000".
Proof. reflexivity. Qed.

Example chroma_parse_short :
  option_map Chroma.rgb (Chroma.hex2rgb "#Fa0") = Some (255, 170, 0)%Z.
Proof. reflexivity. Qed.

Example chroma_hsl_teal :
  Chroma.hex (Chroma.ofHsl 180 (1 # 2) (1 # 2)) = "#40bfbf".
Proof. reflexivity. Qed.

Example chroma_mix_black_white :
  Chroma.hex (Chroma.mix (Chroma.ofRgb 0 0 0) (Chroma.ofRgb 255 255 255) (95 # 100))
  = "#f9f9f9".
Proof. reflexivity. Qed.

(* ------------------------------------------------------------------------- *)
(** ** Comparisons and rounding *)

Lemma ltb_lt (x y : Q) : JS.ltb x y = true <-> x < y.
Proof.
  unfold JS.ltb. rewrite negb_true_iff. split; intro H.
  - apply Qnot_le_lt. intro Hle. apply Qle_bool_iff in Hle. congruence.
  - destruct (Qle_bool y x) eqn:E; [|reflexivity].
    apply Qle_bool_iff in E. exfalso. apply (Qlt_not_le _ _ H E).
Qed.

Lemma ltb_ge (x y : Q) : JS.ltb x y = false <-> y <= x.
Proof.
  unfold JS.ltb. rewrite negb_false_iff. apply Qle_bool_iff.
Qed.

Lemma leb_le (x y : Q) : JS.leb x y = true <-> x <= y.
Proof. apply Qle_bool_iff. Qed.

Lemma leb_gt (x y : Q) : JS.leb x y = false <-> y < x.
Proof.
  unfold JS.leb. split; intro H.
  - apply Qnot_le_lt. intro Hle. apply Qle_bool_iff in Hle. congruence.
  - destruct (Qle_bool x y) eqn:E; [|reflexivity].
    apply Qle_bool_iff in E. exfalso. apply (Qlt_not_le _ _ H E).
Qed.

Lemma Qfloor_eq (x : Q) (n : Z) :
  inject_Z n <= x -> x < inject_Z (n + 1) -> Qfloor x = n.
Proof.
  intros Hlo Hhi.
  pose proof (Qfloor_le x) as H1. pose proof (Qlt_floor x) as H2.
  assert (Hb1 : (n < Qfloor x + 1)%Z).
  { rewrite Zlt_Qlt. eapply Qle_lt_trans; eassumption. }
  assert (Hb2 : (Qfloor x < n + 1)%Z).
  { rewrite Zlt_Qlt. eapply Qle_lt_trans; eassumption. }
  lia.
Qed.

Lemma round_inject_Z (z : Z) : JS.round (inject_Z z) = z.
Proof.
  unfold JS.round. apply Qfloor_eq.
  - unfold Qle; simpl. lia.
  - unfold Qlt; simpl. lia.
Qed.

Lemma inject_Z_le (a b : Z) : (a <= b)%Z -> inject_Z a <= inject_Z b.
Proof. intro H. rewrite <- Zle_Qle. exact H. Qed.

Lemma limit_byte (z : Z) :
  (0 <= z <= 255)%Z -> Chroma.limit (inject_Z z) 0 255 = inject_Z z.
Proof.
  intros [H0 H1]. unfold Chroma.limit, JS.gtb.
  assert (E1 : JS.ltb (inject_Z z) 0 = false).
  { apply ltb_ge. apply (inject_Z_le 0 z H0). }
  assert (E2 : JS.ltb 255 (inject_Z z) = false).
  { apply ltb_ge. apply (inject_Z_le z 255 H1). }
  rewrite E1, E2. reflexivity.
Qed.

(* ------------------------------------------------------------------------- *)
(** ** Hexadecimal printing and parsing *)

Lemma hexValue_hexDigit (d : Z) :
  (0 <= d < 16)%Z -> JS.hexValue (JS.hexDigit d) = Some d.
Proof.
  intro H.
  assert (C : (d = 0 \/ d = 1 \/ d = 2 \/ d = 3 \/ d = 4 \/ d = 5 \/ d = 6
               \/ d = 7 \/ d = 8 \/ d = 9 \/ d = 10 \/ d = 11 \/ d = 12
               \/ d = 13 \/ d = 14 \/ d = 15)%Z) by lia.
  repeat (destruct C as [C | C]; [subst d; reflexivity|]).
  subst d; reflexivity.
Qed.

Lemma allHexDigits_app (s t : string) :
  Chroma.allHexDigits (s ++ t)
  = Chroma.allHexDigits s && Chroma.allHexDigits t.
Proof.
  induction s as [|c s IH]; simpl; [reflexivity|].
  rewrite IH. apply andb_assoc.
Qed.

Lemma string_app_assoc (s t u : string) : (s ++ t) ++ u = s ++ (t ++ u).
Proof. induction s as [|c s IH]; simpl; [reflexivity|]. now rewrite IH. Qed.

Lemma string_app_nil_r (s : string) : s ++ "" = s.
Proof. induction s as [|c s IH]; simpl; [reflexivity|]. now rewrite IH. Qed.

Lemma string_length_app (s t : string) :
  String.length (s ++ t) = (String.length s + String.length t)%nat.
Proof. induction s as [|c s IH]; simpl; [reflexivity|]. now rewrite IH. Qed.

(** What [toDigits16] prints: a non-empty block [ds] of hexadecimal digits, in
    front of the accumulator, that parses back to [u] and has no more digits
    than any bound 16^n on [u] requires. *)
Lemma toDigits16_spec (fuel : nat) :
  forall (u : Z) (acc : string),
    (0 < fuel)%nat -> (0 <= u < 16 ^ Z.of_nat fuel)%Z ->
    exists ds,
      JS.toDigits16 fuel u acc = ds ++ acc
      /\ Chroma.allHexDigits ds = true
      /\ (forall a rest,
             JS.parseDigits16 a (ds ++ rest)
             = JS.parseDigits16 (a * 16 ^ Z.of_nat (String.length ds) + u) rest)
      /\ (forall n, (0 < n)%nat -> (u < 16 ^ Z.of_nat n)%Z ->
                    (1 <= String.length ds <= n)%nat).
Proof.
  induction fuel as [|fuel IH]; intros u acc Hf Hu; [lia|].
  assert (Hmod : (0 <= u mod 16 < 16)%Z) by (apply Z.mod_pos_bound; lia).
  simpl JS.toDigits16.
  destruct (u / 16 =? 0)%Z eqn:E.
  - apply Z.eqb_eq in E.
    assert (Hsmall : (u mod 16 = u)%Z).
    { pose proof (Z.div_mod u 16 ltac:(lia)). lia. }
    exists (String (JS.hexDigit (u mod 16)) "").
    split; [reflexivity|]. split.
    + simpl. unfold JS.isHexDigit. rewrite hexValue_hexDigit by assumption.
      reflexivity.
    + split.
      * intros a rest. simpl. rewrite hexValue_hexDigit by assumption.
        rewrite Hsmall. f_equal.
      * intros n Hn _. simpl. lia.
  - apply Z.eqb_neq in E.
    assert (Hq : (0 < u / 16)%Z).
    { assert (0 <= u / 16)%Z by (apply Z.div_pos; lia). lia. }
    assert (Hfuel : (0 < fuel)%nat).
    { destruct fuel; [|lia]. exfalso.
      change (16 ^ Z.of_nat 1)%Z with 16%Z in Hu.
      rewrite Z.div_small in E by lia. lia. }
    assert (Hu' : (0 <= u / 16 < 16 ^ Z.of_nat fuel)%Z).
    { split; [lia|]. apply Z.div_lt_upper_bound; [lia|].
      replace (Z.of_nat (S fuel)) with (Z.of_nat fuel + 1)%Z in Hu by lia.
      rewrite Z.pow_add_r in Hu by lia. lia. }
    destruct (IH (u / 16)%Z (String (JS.hexDigit (u mod 16)) acc) Hfuel Hu')
      as (ds & Eds & Hhex & Hparse & Hlen).
    exists (ds ++ String (JS.hexDigit (u mod 16)) "").
    split.
    { rewrite Eds, string_app_assoc. reflexivity. }
    split.
    { rewrite allHexDigits_app, Hhex. simpl. unfold JS.isHexDigit.
      rewrite hexValue_hexDigit by assumption. reflexivity. }
    split.
    + intros a rest. rewrite string_app_assoc, Hparse. simpl.
      rewrite hexValue_hexDigit by assumption. f_equal.
      rewrite string_length_app. simpl String.length.
      replace (Z.of_nat (String.length ds + 1)) with
        (Z.of_nat (String.length ds) + 1)%Z by lia.
      rewrite Z.pow_add_r by lia.
      pose proof (Z.div_mod u 16 ltac:(lia)). lia.
    + intros n Hn Hun. rewrite string_length_app. simpl String.length.
      destruct n as [|n]; [lia|].
      destruct n as [|n].
      { exfalso. change (16 ^ Z.of_nat 1)%Z with 16%Z in Hun.
        rewrite Z.div_small in E by lia. lia. }
      assert (Hdiv : (u / 16 < 16 ^ Z.of_nat (S n))%Z).
      { apply Z.div_lt_upper_bound; [lia|].
        replace (Z.of_nat (S (S n))) with (Z.of_nat (S n) + 1)%Z in Hun by lia.
        rewrite Z.pow_add_r in Hun by lia. lia. }
      specialize (Hlen (S n) ltac:(lia) Hdiv). lia.
Qed.

Lemma parse_leading_zero (s : string) :
  JS.parseDigits16 0 (String "0"%char s) = JS.parseDigits16 0 s.
Proof. reflexivity. Qed.

(** [u.toString(16)] for 0 <= u < 16^n: between 1 and n hexadecimal digits
    that parse back to [u]. *)
Lemma toString16_digits (u : Z) (n : nat) :
  (0 < n)%nat -> (0 <= u < 16 ^ Z.of_nat n)%Z ->
  Chroma.allHexDigits (JS.toString16 u) = true
  /\ JS.parseInt16 (JS.toString16 u) = u
  /\ (1 <= String.length (JS.toString16 u) <= n)%nat.
Proof.
  intros Hn Hu. unfold JS.toString16.
  assert (E : (u <? 0)%Z = false) by (apply Z.ltb_ge; lia).
  rewrite E.
  assert (Hfuel : (0 <= u < 16 ^ Z.of_nat (S (Z.to_nat (Z.log2 u))))%Z).
  { split; [lia|].
    destruct (Z.eq_dec u 0) as [->|Hnz].
    - apply Z.pow_pos_nonneg; lia.
    - pose proof (Z.log2_spec u ltac:(lia)) as [_ Hlt].
      pose proof (Z.log2_nonneg u) as Hlog.
      replace (Z.of_nat (S (Z.to_nat (Z.log2 u)))) with (Z.succ (Z.log2 u))
        by lia.
      eapply Z.lt_le_trans; [exact Hlt|].
      apply Z.pow_le_mono_l. lia. }
  destruct (toDigits16_spec (S (Z.to_nat (Z.log2 u))) u "" ltac:(lia) Hfuel)
    as (ds & Eds & Hhex & Hparse & Hlen).
  rewrite Eds, string_app_nil_r.
  specialize (Hlen n Hn (proj2 Hu)).
  specialize (Hparse 0%Z ""). rewrite string_app_nil_r in Hparse.
  simpl JS.parseDigits16 in Hparse at 2.
  unfold JS.parseInt16. rewrite Hparse.
  repeat split; try assumption; lia.
Qed.

(** The six-digit padding of [rgb2hex]: for u < 16^6 the padded string has
    six hexadecimal digits and parses back to [u]. *)
Lemma padded_hex6 (u : Z) :
  (0 <= u < 16777216)%Z ->
  let str := Chroma.lastChars 6 ("000000" ++ JS.toString16 u) in
  String.length str = 6%nat
  /\ Chroma.allHexDigits str = true
  /\ JS.parseInt16 str = u.
Proof.
  intros Hu.
  destruct (toString16_digits u 6 ltac:(lia) ltac:(simpl; lia))
    as (Hhex & Hparse & Hlen).
  unfold JS.parseInt16 in *.
  destruct (JS.toString16 u) as [|c1 [|c2 [|c3 [|c4 [|c5 [|c6 [|c7 ds]]]]]]];
    simpl String.length in Hlen; try lia;
    cbn [append Chroma.lastChars String.length Nat.sub JS.substrFrom Nat.add];
    (split; [reflexivity|]); (split; [exact Hhex || (cbn; exact Hhex)|]);
    rewrite ?parse_leading_zero; exact Hparse.
Qed.

(** The two-digit padding of the alpha byte. *)
Lemma padded_hex2 (a : Z) :
  (0 <= a < 256)%Z ->
  let str := Chroma.lastChars 2 ("0" ++ JS.toString16 a) in
  String.length str = 2%nat
  /\ Chroma.allHexDigits str = true
  /\ JS.parseInt16 str = a.
Proof.
  intros Ha.
  destruct (toString16_digits a 2 ltac:(lia) ltac:(simpl; lia))
    as (Hhex & Hparse & Hlen).
  unfold JS.parseInt16 in *.
  destruct (JS.toString16 a) as [|c1 [|c2 [|c3 ds]]];
    simpl String.length in Hlen; try lia;
    cbn [append Chroma.lastChars String.length Nat.sub JS.substrFrom Nat.add];
    (split; [reflexivity|]); (split; [exact Hhex || (cbn; exact Hhex)|]);
    rewrite ?parse_leading_zero; exact Hparse.
Qed.

Lemma parseDigits16_app (s t : string) :
  forall acc,
    Chroma.allHexDigits s = true ->
    JS.parseDigits16 acc (s ++ t) = JS.parseDigits16 (JS.parseDigits16 acc s) t.
Proof.
  induction s as [|c s IH]; intros acc Hs; simpl; [reflexivity|].
  simpl in Hs. apply andb_true_iff in Hs as [Hc Hs].
  unfold JS.isHexDigit in Hc.
  destruct (JS.hexValue c) as [v|]; [|discriminate].
  apply IH. exact Hs.
Qed.

Lemma parseDigits16_shift (s : string) :
  forall acc,
    Chroma.allHexDigits s = true ->
    JS.parseDigits16 acc s
    = (acc * 16 ^ Z.of_nat (String.length s) + JS.parseDigits16 0 s)%Z.
Proof.
  induction s as [|c s IH]; intros acc Hs.
  - simpl. lia.
  - simpl in Hs. apply andb_true_iff in Hs as [Hc Hs].
    unfold JS.isHexDigit in Hc. simpl JS.parseDigits16.
    destruct (JS.hexValue c) as [v|]; [|discriminate].
    rewrite (IH (acc * 16 + v)%Z Hs), (IH v Hs).
    simpl String.length.
    replace (Z.of_nat (S (String.length s)))
      with (Z.of_nat (String.length s) + 1)%Z by lia.
    rewrite Z.pow_add_r by lia. lia.
Qed.

(* ------------------------------------------------------------------------- *)
(** ** Packing three bytes into one integer *)

Lemma lor_shiftl_low (hi lo k : Z) :
  (0 <= k)%Z -> (0 <= lo < 2 ^ k)%Z ->
  Z.lor (Z.shiftl hi k) lo = (hi * 2 ^ k + lo)%Z.
Proof.
  intros Hk Hlo.
  assert (Hland : Z.land (Z.shiftl hi k) lo = 0%Z).
  { apply Z.bits_inj'. intros n Hn.
    rewrite Z.land_spec, Z.bits_0.
    destruct (Z.lt_ge_cases n k) as [Hlt | Hge].
    - rewrite Z.shiftl_spec_low by assumption. reflexivity.
    - assert (Hbit : Z.testbit lo n = false).
      { destruct (Z.eq_dec lo 0) as [->|Hnz]; [apply Z.bits_0|].
        apply Z.bits_above_log2; [lia|].
        apply Z.log2_lt_pow2; [lia|].
        eapply Z.lt_le_trans; [apply Hlo|].
        apply Z.pow_le_mono_r; lia. }
      rewrite Hbit. apply andb_false_r. }
  pose proof (Z.add_lor_land (Z.shiftl hi k) lo) as Hadd.
  rewrite Hland, Z.shiftl_mul_pow2 in Hadd by assumption.
  rewrite Z.shiftl_mul_pow2 by assumption. lia.
Qed.

Lemma pack_rgb (r g b : Z) :
  (0 <= r <= 255)%Z -> (0 <= g <= 255)%Z -> (0 <= b <= 255)%Z ->
  Z.lor (Z.lor (Z.shiftl r 16) (Z.shiftl g 8)) b
  = (r * 65536 + g * 256 + b)%Z.
Proof.
  intros Hr Hg Hb.
  rewrite (Z.shiftl_mul_pow2 g 8) by lia.
  rewrite (lor_shiftl_low r (g * 2 ^ 8) 16) by (simpl; lia).
  replace (r * 2 ^ 16 + g * 2 ^ 8)%Z with ((r * 2 ^ 8 + g) * 2 ^ 8)%Z
    by (simpl; lia).
  rewrite <- (Z.shiftl_mul_pow2 (r * 2 ^ 8 + g) 8) by lia.
  rewrite (lor_shiftl_low (r * 2 ^ 8 + g) b 8) by (simpl; lia).
  simpl; lia.
Qed.

Lemma unpack_rgb (r g b : Z) :
  (0 <= r <= 255)%Z -> (0 <= g <= 255)%Z -> (0 <= b <= 255)%Z ->
  let u := (r * 65536 + g * 256 + b)%Z in
  Z.shiftr u 16 = r /\ Z.land (Z.shiftr u 8) 255 = g /\ Z.land u 255 = b.
Proof.
  intros Hr Hg Hb u. subst u.
  change 255%Z with (Z.ones 8).
  rewrite !Z.land_ones, !Z.shiftr_div_pow2 by lia.
  change (2 ^ 16)%Z with 65536%Z. change (2 ^ 8)%Z with 256%Z.
  repeat split.
  - symmetry. apply (Z.div_unique _ _ _ (g * 256 + b)); lia.
  - replace ((r * 65536 + g * 256 + b) / 256)%Z with (r * 256 + g)%Z.
    + symmetry. apply (Z.mod_unique _ _ r); lia.
    + apply (Z.div_unique _ _ _ b); lia.
  - symmetry. apply (Z.mod_unique _ _ (r * 256 + g)); lia.
Qed.

Lemma unpack_rgba (r g b a : Z) :
  (0 <= r <= 255)%Z -> (0 <= g <= 255)%Z -> (0 <= b <= 255)%Z ->
  (0 <= a <= 255)%Z ->
  let u := ((r * 65536 + g * 256 + b) * 256 + a)%Z in
  Z.land (Z.shiftr u 24) 255 = r /\ Z.land (Z.shiftr u 16) 255 = g
  /\ Z.land (Z.shiftr u 8) 255 = b /\ Z.land u 255 = a.
Proof.
  intros Hr Hg Hb Ha u. subst u.
  change 255%Z with (Z.ones 8).
  rewrite !Z.land_ones, !Z.shiftr_div_pow2 by lia.
  change (2 ^ 24)%Z with 16777216%Z. change (2 ^ 16)%Z with 65536%Z.
  change (2 ^ 8)%Z with 256%Z.
  repeat split.
  - replace (((r * 65536 + g * 256 + b) * 256 + a) / 16777216)%Z with r.
    + apply Z.mod_small; lia.
    + apply (Z.div_unique _ _ _ ((g * 256 + b) * 256 + a)); lia.
  - replace (((r * 65536 + g * 256 + b) * 256 + a) / 65536)%Z
      with (r * 256 + g)%Z.
    + symmetry. apply (Z.mod_unique _ _ r); lia.
    + apply (Z.div_unique _ _ _ (b * 256 + a)); lia.
  - replace (((r * 65536 + g * 256 + b) * 256 + a) / 256)%Z
      with (r * 65536 + g * 256 + b)%Z.
    + symmetry. apply (Z.mod_unique _ _ (r * 256 + g)); lia.
    + apply (Z.div_unique _ _ _ a); lia.
  - symmetry. apply (Z.mod_unique _ _ (r * 65536 + g * 256 + b)); lia.
Qed.

(* ------------------------------------------------------------------------- *)
(** ** Clipped colours *)

Lemma limit_bounds (x lo hi : Q) : lo <= hi -> lo <= Chroma.limit x lo hi <= hi.
Proof.
  intro H. unfold Chroma.limit, JS.gtb.
  destruct (JS.ltb x lo) eqn:E1.
  - split; [apply Qle_refl | exact H].
  - apply ltb_ge in E1. destruct (JS.ltb hi x) eqn:E2.
    + split; [exact H | apply Qle_refl].
    + apply ltb_ge in E2. split; assumption.
Qed.

Lemma limit_in_range (x lo hi : Q) :
  lo <= x <= hi -> Chroma.limit x lo hi = x.
Proof.
  intros [H1 H2]. unfold Chroma.limit, JS.gtb.
  assert (E1 : JS.ltb x lo = false) by (apply ltb_ge; exact H1).
  assert (E2 : JS.ltb hi x = false) by (apply ltb_ge; exact H2).
  rewrite E1, E2. reflexivity.
Qed.

Lemma clip_rgb_clipped (c : Chroma.Color) : clipped (Chroma.clip_rgb c).
Proof.
  unfold clipped, Chroma.clip_rgb; simpl.
  repeat split; apply limit_bounds; unfold Qle; simpl; lia.
Qed.

Lemma clip_rgb_id (c : Chroma.Color) :
  clipped c ->
  Chroma.clip_rgb c = c.
Proof.
  intros (Hr & Hg & Hb & Ha). destruct c as [cr cg cb ca]; simpl in *.
  unfold Chroma.clip_rgb; simpl.
  rewrite !limit_in_range by assumption. reflexivity.
Qed.

Lemma round_bounds (q : Q) (lo hi : Z) :
  inject_Z lo <= q <= inject_Z hi -> (lo <= JS.round q <= hi)%Z.
Proof.
  intros [H1 H2]. unfold JS.round.
  split.
  - rewrite <- (Qfloor_Z lo). apply Qfloor_resp_le. lra.
  - assert (H : (Qfloor (q + (1 # 2)) < hi + 1)%Z).
    { rewrite Zlt_Qlt. eapply Qle_lt_trans; [apply Qfloor_le|].
      rewrite inject_Z_plus. change (inject_Z 1) with 1. lra. }
    lia.
Qed.

(* ------------------------------------------------------------------------- *)
(** ** Printing a colour and reading it back *)

Lemma clipped_round_bytes (c : Chroma.Color) :
  clipped c ->
  (0 <= JS.round (Chroma.red c) <= 255)%Z
  /\ (0 <= JS.round (Chroma.green c) <= 255)%Z
  /\ (0 <= JS.round (Chroma.blue c) <= 255)%Z
  /\ (0 <= alphaByte c <= 255)%Z.
Proof.
  intros (Hr & Hg & Hb & Ha). unfold alphaByte.
  split; [|split; [|split]]; apply round_bounds;
    change (inject_Z 0) with 0; change (inject_Z 255) with 255; lra.
Qed.

Lemma hex_shape (c : Chroma.Color) :
  clipped c ->
  Chroma.hex c
  = if JS.ltb (Chroma.alpha c) 1
    then String "#"%char
           (Chroma.lastChars 6 ("000000" ++ JS.toString16 (packed c))
            ++ Chroma.lastChars 2 ("0" ++ JS.toString16 (alphaByte c)))
    else String "#"%char
           (Chroma.lastChars 6 ("000000" ++ JS.toString16 (packed c))).
Proof.
  intros Hc. destruct (clipped_round_bytes c Hc) as (Hr & Hg & Hb & _).
  unfold Chroma.hex, Chroma.rgb, packed, alphaByte.
  rewrite pack_rgb by assumption. reflexivity.
Qed.

Lemma hex2rgb_hash6 (str : string) (u : Z) :
  String.length str = 6%nat -> Chroma.allHexDigits str = true ->
  JS.parseInt16 str = u ->
  Chroma.hex2rgb (String "#"%char str)
  = Some (Chroma.clip_rgb
            (Chroma.mkColor (inject_Z (Z.shiftr u 16))
                            (inject_Z (Z.land (Z.shiftr u 8) 255))
                            (inject_Z (Z.land u 255)) 1)).
Proof.
  intros Hlen Hhex Hparse. unfold Chroma.hex2rgb, Chroma.RE_HEX.
  cbn [Chroma.stripHash String.length JS.substrFrom].
  rewrite Hhex, Hlen. cbn [Nat.eqb andb orb]. rewrite Hlen.
  cbn [Nat.eqb]. rewrite Hparse. reflexivity.
Qed.

Lemma hex2rgb_hash8 (str : string) (u : Z) :
  String.length str = 8%nat -> Chroma.allHexDigits str = true ->
  JS.parseInt16 str = u ->
  Chroma.hex2rgb (String "#"%char str)
  = Some (Chroma.clip_rgb
            (Chroma.mkColor
               (inject_Z (Z.land (Z.shiftr u 24) 255))
               (inject_Z (Z.land (Z.shiftr u 16) 255))
               (inject_Z (Z.land (Z.shiftr u 8) 255))
               (inject_Z (JS.round (inject_Z (Z.land u 255) / 255 * 100))
                / 100))).
Proof.
  intros Hlen Hhex Hparse. unfold Chroma.hex2rgb, Chroma.RE_HEX, Chroma.RE_HEXA.
  cbn [Chroma.stripHash String.length JS.substrFrom].
  rewrite Hhex, Hlen. cbn [Nat.eqb andb orb]. rewrite Hlen.
  cbn [Nat.eqb]. rewrite Hparse. reflexivity.
Qed.

(** Reading back what [hex] printed gives the rounded channels. *)
Lemma hex2rgb_hex (c : Chroma.Color) :
  clipped c ->
  exists c',
    Chroma.hex2rgb (Chroma.hex c) = Some c'
    /\ clipped c'
    /\ Chroma.red c' = inject_Z (JS.round (Chroma.red c))
    /\ Chroma.green c' = inject_Z (JS.round (Chroma.green c))
    /\ Chroma.blue c' = inject_Z (JS.round (Chroma.blue c)).
Proof.
  intros Hc. destruct (clipped_round_bytes c Hc) as (Hr & Hg & Hb & Ha).
  rewrite (hex_shape c Hc).
  destruct (padded_hex6 (packed c) ltac:(unfold packed; lia))
    as (Hlen6 & Hhex6 & Hparse6).
  destruct (JS.ltb (Chroma.alpha c) 1).
  - destruct (padded_hex2 (alphaByte c) ltac:(lia))
      as (Hlen2 & Hhex2 & Hparse2).
    erewrite hex2rgb_hash8; [| | |reflexivity].
    2:{ rewrite string_length_app, Hlen6, Hlen2. reflexivity. }
    2:{ rewrite allHexDigits_app, Hhex6, Hhex2. reflexivity. }
    unfold JS.parseInt16 in *.
    rewrite parseDigits16_app, Hparse6, parseDigits16_shift, Hlen2, Hparse2
      by assumption.
    change (16 ^ Z.of_nat 2)%Z with 256%Z.
    destruct (unpack_rgba _ _ _ _ Hr Hg Hb Ha) as (E1 & E2 & E3 & E4).
    unfold packed at 1 2 3 4. rewrite E1, E2, E3.
    eexists. split; [reflexivity|]. split; [apply clip_rgb_clipped|].
    unfold Chroma.clip_rgb.
    cbn [Chroma.red Chroma.green Chroma.blue Chroma.alpha].
    rewrite !limit_byte by assumption. repeat split.
  - erewrite hex2rgb_hash6; [|exact Hlen6|exact Hhex6|exact Hparse6].
    destruct (unpack_rgb _ _ _ Hr Hg Hb) as (E1 & E2 & E3).
    unfold packed. rewrite E1, E2, E3.
    eexists. split; [reflexivity|]. split; [apply clip_rgb_clipped|].
    unfold Chroma.clip_rgb.
    cbn [Chroma.red Chroma.green Chroma.blue Chroma.alpha].
    rewrite !limit_byte by assumption. repeat split.
Qed.

Lemma Some_eq {A : Type} (x y : A) : Some x = Some y -> x = y.
Proof. intro H. injection H. auto. Qed.

Lemma Ok_eq {A : Type} (x y : A) : Ok x = Ok y -> x = y.
Proof. intro H. injection H. auto. Qed.

Section ChromaStrings.

Variable chromaOther : string -> option Chroma.Color.

Lemma hex2rgb_clipped (s : string) (c : Chroma.Color) :
  Chroma.hex2rgb s = Some c -> clipped c.
Proof.
  unfold Chroma.hex2rgb. intro H.
  destruct (Chroma.RE_HEX s).
  - apply Some_eq in H. subst c. apply clip_rgb_clipped.
  - destruct (Chroma.RE_HEXA s); [|discriminate].
    apply Some_eq in H. subst c. apply clip_rgb_clipped.
Qed.

Lemma chroma_clipped (s : string) (c : Chroma.Color) :
  chroma chromaOther s = Ok c -> clipped c.
Proof.
  unfold chroma. intro H.
  destruct (Chroma.hex2rgb s) as [c0|] eqn:E.
  - apply Ok_eq in H. subst c0. eapply hex2rgb_clipped; eassumption.
  - destruct (chromaOther s); [|discriminate].
    apply Ok_eq in H. subst c. apply clip_rgb_clipped.
Qed.

(** A printed colour is always a colour string. *)
Lemma chroma_hex (c : Chroma.Color) :
  clipped c ->
  exists c',
    chroma chromaOther (Chroma.hex c) = Ok c'
    /\ clipped c'
    /\ Chroma.red c' = inject_Z (JS.round (Chroma.red c))
    /\ Chroma.green c' = inject_Z (JS.round (Chroma.green c))
    /\ Chroma.blue c' = inject_Z (JS.round (Chroma.blue c)).
Proof.
  intro Hc. destruct (hex2rgb_hex c Hc) as (c' & E & H).
  exists c'. unfold chroma. rewrite E. split; [reflexivity | exact H].
Qed.

Lemma ofRgb_bytes (r g b : Z) :
  (0 <= r <= 255)%Z -> (0 <= g <= 255)%Z -> (0 <= b <= 255)%Z ->
  Chroma.ofRgb (inject_Z r) (inject_Z g) (inject_Z b)
  = Chroma.mkColor (inject_Z r) (inject_Z g) (inject_Z b) 1.
Proof.
  intros Hr Hg Hb. unfold Chroma.ofRgb, Chroma.clip_rgb.
  cbn [Chroma.red Chroma.green Chroma.blue Chroma.alpha].
  rewrite !limit_byte by assumption. reflexivity.
Qed.

End ChromaStrings.

(* ------------------------------------------------------------------------- *)
(** ** The hexadecimal round trip *)

(** C5.  For integers r, g, b in 0..255, parsing the hexadecimal string
    printed by [rgbToHex] gives back exactly (r, g, b). *)
Theorem hexToRgb_rgbToHex (chromaOther : string -> option Chroma.Color)
                          (r g b : Z) :
  (0 <= r <= 255)%Z -> (0 <= g <= 255)%Z -> (0 <= b <= 255)%Z ->
  hexToRgb chromaOther (rgbToHex r g b) = Ok (mkRGB r g b).
Proof.
  intros Hr Hg Hb. unfold hexToRgb, rgbToHex.
  destruct (chroma_hex chromaOther
              (Chroma.ofRgb (inject_Z r) (inject_Z g) (inject_Z b))
              (clip_rgb_clipped _))
    as (c' & E & _ & Er & Eg & Eb).
  rewrite E. unfold rbind, Chroma.rgb. rewrite Er, Eg, Eb.
  rewrite (ofRgb_bytes r g b Hr Hg Hb).
  cbn [Chroma.red Chroma.green Chroma.blue].
  rewrite !round_inject_Z. reflexivity.
Qed.

Lemma hexToRgb_rgbToHex_witness :
  hexToRgb (fun _ => None) (rgbToHex 18 52 86) = Ok (mkRGB 18 52 86).
Proof.
  apply (hexToRgb_rgbToHex (fun _ => None) 18 52 86); lia.
Defined.

(* ------------------------------------------------------------------------- *)
(** ** Naming pure red *)

Lemma rgbToHex_red : rgbToHex 255 0 0 = "#ff0000".
Proof. reflexivity. Qed.

(** C8, as the specification states it, fails: the printed string has
    lower-case digits. *)
Lemma rgbToHex_red_not_uppercase :
  ~ (rgbToHex 255 0 0 = "#FF0000"
     /\ forall chromaOther, getColorName chromaOther "#FF0000" = Ok "レッド").
Proof.
  intros [H _]. rewrite rgbToHex_red in H. discriminate H.
Qed.

(** C8 (amended).  [rgbToHex 255 0 0] is the lower-case string "#ff0000";
    [getColorName] upper-cases its argument before it consults the table of
    exact names, so both "#FF0000" and the printed "#ff0000" are named
    "レッド" (red). *)
Theorem red_is_named_red (chromaOther : string -> option Chroma.Color) :
  rgbToHex 255 0 0 = "#ff0000"
  /\ getColorName chromaOther "#FF0000" = Ok "レッド"
  /\ getColorName chromaOther (rgbToHex 255 0 0) = Ok "レッド".
Proof. repeat split. Qed.

(* ------------------------------------------------------------------------- *)
(** ** What the mixer can throw *)

Section Mixer.

Variable chromaOther : string -> option Chroma.Color.
Variable random : nat -> Q.
Variable base36 : Q -> string.

Lemma chroma_throws (s : string) (e : exn) :
  chroma chromaOther s = Throw e -> e = UnknownFormat.
Proof.
  unfold chroma. destruct (Chroma.hex2rgb s); [discriminate|].
  destruct (chromaOther s); [discriminate|]. intro H. injection H. auto.
Qed.

Lemma chromaMix_throws (a b : string) (f : Q) (e : exn) :
  chromaMix chromaOther a b f = Throw e -> e = UnknownFormat.
Proof.
  unfold chromaMix, rbind.
  destruct (chroma chromaOther a) eqn:Ea; [|intro H; injection H as <-;
    eapply chroma_throws; eassumption].
  destruct (chroma chromaOther b) eqn:Eb; [discriminate|].
  intro H; injection H as <-. eapply chroma_throws; eassumption.
Qed.

Lemma mixLoop_throws (count : nat) :
  forall i colors currentMix e,
    mixLoop chromaOther count i colors currentMix = Throw e ->
    e = UnknownFormat \/ e = TypeError.
Proof.
  induction count as [|count IH]; intros i colors currentMix e; simpl.
  - discriminate.
  - destruct (nth_error colors i) as [c|].
    + unfold rbind.
      destruct (chromaMix chromaOther currentMix (hex c) _) eqn:E.
      * apply IH.
      * intro H; injection H as <-. left. eapply chromaMix_throws; eassumption.
    + intro H; injection H as <-. right. reflexivity.
Qed.

Lemma getColorName_throws (s : string) (e : exn) :
  getColorName chromaOther s = Throw e -> e = UnknownFormat.
Proof.
  unfold getColorName, rbind.
  destruct (lookup colorNames (JS.toUpperCase s)); [discriminate|].
  destruct (chroma chromaOther s) as [c|e'] eqn:E.
  - destruct (Chroma.hsl c) as [[h0 s0] l0]. split_ifs; discriminate.
  - intro H; injection H as <-. eapply chroma_throws; eassumption.
Qed.

Lemma getColorName_ok (s : string) (c : Chroma.Color) :
  chroma chromaOther s = Ok c -> exists n, getColorName chromaOther s = Ok n.
Proof.
  intro H. unfold getColorName, rbind.
  destruct (lookup colorNames (JS.toUpperCase s)); [eexists; reflexivity|].
  rewrite H. destruct (Chroma.hsl c) as [[h0 s0] l0].
  split_ifs; eexists; reflexivity.
Qed.

(** [createColorInfo] always succeeds: the string it names was printed by
    chroma.  It draws one random number when no id is supplied. *)
Lemma createColorInfo_ok (r g b : Z) (n : nat) :
  exists nm,
    createColorInfo chromaOther random base36 r g b None n
    = Ok (mkColorInfo (rgbToHex r g b) (mkRGB r g b) (rgbToHsl r g b) nm
                      (Some ("color_" ++ base36 (random n))),
          S n).
Proof.
  unfold createColorInfo.
  destruct (chroma_hex chromaOther
              (Chroma.ofRgb (inject_Z r) (inject_Z g) (inject_Z b))
              (clip_rgb_clipped _)) as (c' & E & _).
  destruct (getColorName_ok _ _ E) as (nm & Enm).
  exists nm. unfold bind, lift, generateColorId, Math_random, ret, rgbToHex in *.
  rewrite Enm. reflexivity.
Qed.

End Mixer.

(* ------------------------------------------------------------------------- *)
(** ** Sequential blending *)

Lemma sameChannels_refl (a : Chroma.Color) : sameChannels a a.
Proof. repeat split. Qed.

Lemma sameChannels_trans (a b c : Chroma.Color) :
  sameChannels a b -> sameChannels b c -> sameChannels a c.
Proof.
  intros (H1 & H2 & H3) (H4 & H5 & H6). repeat split; congruence.
Qed.

Lemma sameChannels_rgb (a b : Chroma.Color) :
  sameChannels a b -> Chroma.rgb a = Chroma.rgb b.
Proof. intros (H1 & H2 & H3). unfold Chroma.rgb. now rewrite H1, H2, H3. Qed.

Lemma mix_sameChannels (a a' b b' : Chroma.Color) (f : Q) :
  sameChannels a a' -> sameChannels b b' ->
  sameChannels (Chroma.mix a b f) (Chroma.mix a' b' f).
Proof.
  intros (H1 & H2 & H3) (H4 & H5 & H6). unfold sameChannels, Chroma.mix.
  cbn [Chroma.clip_rgb Chroma.red Chroma.green Chroma.blue].
  now rewrite H1, H2, H3, H4, H5, H6.
Qed.

Lemma mix_clipped (a b : Chroma.Color) (f : Q) : clipped (Chroma.mix a b f).
Proof. apply clip_rgb_clipped. Qed.

(** A clipped integer channel is a byte. *)
Lemma limit_inject_Z (z : Z) :
  exists z', (0 <= z' <= 255)%Z /\ Chroma.limit (inject_Z z) 0 255 = inject_Z z'.
Proof.
  unfold Chroma.limit, JS.gtb.
  destruct (JS.ltb (inject_Z z) 0) eqn:E1.
  - exists 0%Z. split; [lia | reflexivity].
  - destruct (JS.ltb 255 (inject_Z z)) eqn:E2.
    + exists 255%Z. split; [lia | reflexivity].
    + exists z. split; [|reflexivity].
      apply ltb_ge in E1, E2.
      change 0 with (inject_Z 0) in E1. change 255 with (inject_Z 255) in E2.
      rewrite <- Zle_Qle in E1, E2. lia.
Qed.

Lemma mix_channel_round (x1 x2 f : Q) :
  inject_Z (JS.round (Chroma.limit (Chroma.lrgbChannel x1 x2 f) 0 255))
  = Chroma.limit (Chroma.lrgbChannel x1 x2 f) 0 255.
Proof.
  unfold Chroma.lrgbChannel.
  destruct (limit_inject_Z (Chroma.roundSqrt (x1 * x1 * (1 - f) + x2 * x2 * f)))
    as (z' & _ & E).
  rewrite E, round_inject_Z. reflexivity.
Qed.

Section Blending.

Variable chromaOther : string -> option Chroma.Color.
Variable random : nat -> Q.
Variable base36 : Q -> string.

(** The string printed for a mixed colour reads back as that colour. *)
Lemma chroma_hex_mix (a b : Chroma.Color) (f : Q) :
  exists c',
    chroma chromaOther (Chroma.hex (Chroma.mix a b f)) = Ok c'
    /\ sameChannels c' (Chroma.mix a b f).
Proof.
  destruct (chroma_hex chromaOther (Chroma.mix a b f) (mix_clipped a b f))
    as (c' & E & _ & Er & Eg & Eb).
  exists c'. split; [exact E|].
  unfold sameChannels. rewrite Er, Eg, Eb. unfold Chroma.mix.
  cbn [Chroma.clip_rgb Chroma.red Chroma.green Chroma.blue].
  rewrite !mix_channel_round. repeat split.
Qed.

(** The loop of the source, threaded through strings, computes the
    sequential blend of the parsed colours. *)
Lemma mixLoop_sequentialBlend (seg : list ColorInfo) :
  forall (segCols : list Chroma.Color) (pre post : list ColorInfo)
         (currentMix : string) (cur acc : Chroma.Color),
    map (fun c => chroma chromaOther (hex c)) seg = map Ok segCols ->
    chroma chromaOther currentMix = Ok cur ->
    sameChannels cur acc ->
    exists final finalCol,
      mixLoop chromaOther (List.length seg) (List.length pre)
              (pre ++ seg ++ post) currentMix = Ok final
      /\ chroma chromaOther final = Ok finalCol
      /\ sameChannels finalCol
                      (sequentialBlend acc (S (List.length pre)) segCols).
Proof.
  induction seg as [|c seg IH]; intros segCols pre post currentMix cur acc
    Hparse Hcur Hsame.
  - destruct segCols; [|discriminate]. simpl.
    exists currentMix, cur. auto.
  - destruct segCols as [|col segCols]; [discriminate|].
    simpl in Hparse. injection Hparse as Hc Hparse.
    cbn [List.length mixLoop].
    rewrite nth_error_app2 by lia. rewrite Nat.sub_diag. cbn [app nth_error].
    unfold chromaMix, rbind at 1. rewrite Hcur, Hc. cbn [rbind].
    set (f := 1 / inject_Z (Z.of_nat (List.length pre) + 1)).
    destruct (chroma_hex_mix cur col f) as (c' & Ec' & Hc').
    specialize (IH segCols (pre ++ [c])%list post (Chroma.hex (Chroma.mix cur col f))
                   c' (Chroma.mix acc col f) Hparse Ec').
    destruct IH as (final & finalCol & Hloop & Hfinal & Hblend).
    { eapply sameChannels_trans; [exact Hc'|].
      apply mix_sameChannels; [exact Hsame | apply sameChannels_refl]. }
    exists final, finalCol.
    rewrite length_app in Hloop, Hblend. simpl List.length in Hloop, Hblend.
    rewrite <- app_assoc in Hloop. simpl app in Hloop.
    replace (List.length pre + 1)%nat with (S (List.length pre)) in * by lia.
    split; [exact Hloop|]. split; [exact Hfinal|].
    cbn [sequentialBlend].
    replace (inject_Z (Z.of_nat (S (List.length pre))))
      with (inject_Z (Z.of_nat (List.length pre) + 1)); [exact Hblend|].
    f_equal. lia.
Qed.

End Blending.

(* ------------------------------------------------------------------------- *)
(** ** mixMultipleColors *)

Lemma mixMultipleColors_two
    (chromaOther : string -> option Chroma.Color) (random : nat -> Q)
    (base36 : Q -> string) (c0 c1 : ColorInfo) :
  mixMultipleColors chromaOther random base36 [c0; c1]
  = mixColors chromaOther random base36 c0 c1 (1 # 2).
Proof. reflexivity. Qed.

Lemma mixColors_throws
    (chromaOther : string -> option Chroma.Color) (random : nat -> Q)
    (base36 : Q -> string) (c0 c1 : ColorInfo) (ratio : Q) (n : nat) (e : exn) :
  mixColors chromaOther random base36 c0 c1 ratio n = Throw e ->
  e = UnknownFormat.
Proof.
  unfold mixColors, bind, lift.
  destruct (chromaMix chromaOther (hex c0) (hex c1) ratio) as [m|e'] eqn:E.
  - destruct (Chroma.rgb m) as [[r0 g0] b0].
    destruct (createColorInfo_ok chromaOther random base36
                (JS.round (inject_Z r0)) (JS.round (inject_Z g0))
                (JS.round (inject_Z b0)) n) as (nm & Ec).
    rewrite Ec. discriminate.
  - intro H. apply chromaMix_throws in E. congruence.
Qed.

Lemma mixMultipleColors_many_throws
    (chromaOther : string -> option Chroma.Color) (random : nat -> Q)
    (base36 : Q -> string) (c0 c1 c2 : ColorInfo) (rest : list ColorInfo)
    (n : nat) (e : exn) :
  mixMultipleColors chromaOther random base36 (c0 :: c1 :: c2 :: rest) n
  = Throw e ->
  e = UnknownFormat \/ e = TypeError.
Proof.
  unfold mixMultipleColors.
  change (Nat.ltb (List.length (c0 :: c1 :: c2 :: rest)) 2) with false.
  cbv iota. unfold bind, lift.
  destruct (mixLoop chromaOther _ 1 _ (hex c0)) as [cm|e'] eqn:E.
  - destruct (chroma chromaOther cm) as [col|e'] eqn:Ecol.
    + destruct (Chroma.rgb col) as [[r0 g0] b0].
      destruct (createColorInfo_ok chromaOther random base36
                  (JS.round (inject_Z r0)) (JS.round (inject_Z g0))
                  (JS.round (inject_Z b0)) n) as (nm & Ec).
      rewrite Ec. discriminate.
    + intro H. apply chroma_throws in Ecol. left. congruence.
  - intro H. apply mixLoop_throws in E. destruct E; [left|right]; congruence.
Qed.

(** C4.  [mixMultipleColors] throws the "at least two colours" error exactly
    when the array holds fewer than two colours: an empty or one-element
    array always fails with it (and yields no [MixedColor]), and an array of
    two or more colours never does. *)
Theorem mixMultipleColors_insufficient_iff
    (chromaOther : string -> option Chroma.Color) (random : nat -> Q)
    (base36 : Q -> string) (colors : list ColorInfo) (n : nat) :
  mixMultipleColors chromaOther random base36 colors n = Throw InsufficientColors
  <-> (List.length colors < 2)%nat.
Proof.
  split.
  - intro H.
    destruct colors as [|c0 [|c1 [|c2 rest]]]; simpl; try lia; exfalso.
    + rewrite mixMultipleColors_two in H.
      apply mixColors_throws in H. discriminate H.
    + apply mixMultipleColors_many_throws in H.
      destruct H as [H|H]; discriminate H.
  - intro H. unfold mixMultipleColors.
    assert (E : Nat.ltb (List.length colors) 2 = true) by (apply Nat.ltb_lt; lia).
    rewrite E. reflexivity.
Qed.

(** C3.  For n >= 2 colours whose [hex] fields are colour strings (parsed as
    [cols]), [mixMultipleColors] returns a [MixedColor] whose colour is the
    sequential pairwise blend of the parsed colours (weight 1/2 for the
    second colour, 1/3 for the third, 1/(i+1) for the (i+1)-th), whose
    [parentColors] are the ids of all n inputs, and whose [ratio] array has
    n entries, each equal to 1/n. *)
Theorem mixMultipleColors_sequential
    (chromaOther : string -> option Chroma.Color) (random : nat -> Q)
    (base36 : Q -> string) (colors : list ColorInfo)
    (cols : list Chroma.Color) (n : nat) :
  (2 <= List.length colors)%nat ->
  map (fun c => chroma chromaOther (hex c)) colors = map Ok cols ->
  exists (m : MixedColor) (blend : Chroma.Color),
    sequentialBlendAll cols = Some blend
    /\ mixMultipleColors chromaOther random base36 colors n = Ok (m, S n)
    /\ rgb (info m) = rgbOf blend
    /\ hex (info m) = rgbToHex (r (rgbOf blend)) (g (rgbOf blend))
                               (b (rgbOf blend))
    /\ parentColors m = map id colors
    /\ List.length (ratio m) = List.length colors
    /\ Forall (fun q => q == 1 / inject_Z (Z.of_nat (List.length colors)))
              (ratio m).
Proof.
  intros Hlen Hparse.
  destruct colors as [|c0 [|c1 [|c2 rest]]]; simpl in Hlen; try lia.
  - (* two colours: through mixColors *)
    destruct cols as [|col0 [|col1 [|? ?]]]; try discriminate.
    simpl in Hparse. injection Hparse as H0 H1.
    unfold mixMultipleColors. cbn [List.length Nat.ltb Nat.leb].
    unfold mixColors, bind, lift, chromaMix, rbind. rewrite H0, H1.
    destruct (Chroma.rgb (Chroma.mix col0 col1 (1 # 2))) as [[r0 g0] b0] eqn:Ergb.
    rewrite !round_inject_Z.
    destruct (createColorInfo_ok chromaOther random base36 r0 g0 b0 n)
      as (nm & Ec).
    rewrite Ec. unfold ret.
    eexists. exists (Chroma.mix col0 col1 (1 # 2)).
    split; [reflexivity|]. split; [reflexivity|].
    unfold rgbOf. rewrite Ergb.
    cbn [info rgb hex parentColors ratio withName r g b].
    split; [reflexivity|]. split; [reflexivity|]. split; [reflexivity|].
    split; [reflexivity|].
    repeat constructor; unfold Qeq; simpl; lia.
  - (* three colours or more: through the loop *)
    destruct cols as [|col0 segCols]; [discriminate|].
    simpl map in Hparse. injection Hparse as H0 Hseg.
    destruct (mixLoop_sequentialBlend chromaOther (c1 :: c2 :: rest) segCols
                [c0] [] (hex c0) col0 col0 Hseg H0 (sameChannels_refl _))
      as (final & finalCol & Hloop & Hfinal & Hblend).
    rewrite app_nil_r in Hloop. cbn [List.length app] in Hloop, Hblend.
    unfold mixMultipleColors.
    cbn [List.length Nat.ltb Nat.leb Nat.sub].
    unfold bind, lift. rewrite Hloop, Hfinal.
    destruct (Chroma.rgb finalCol) as [[r0 g0] b0] eqn:Ergb.
    rewrite !round_inject_Z.
    destruct (createColorInfo_ok chromaOther random base36 r0 g0 b0 n)
      as (nm & Ec).
    rewrite Ec. unfold ret.
    eexists. exists (sequentialBlend col0 2 segCols).
    split; [reflexivity|]. split; [reflexivity|].
    unfold rgbOf. rewrite <- (sameChannels_rgb _ _ Hblend), Ergb.
    cbn [info rgb hex parentColors ratio withName r g b].
    split; [reflexivity|]. split; [reflexivity|]. split; [reflexivity|].
    split; [now rewrite length_map|].
    apply Forall_forall. intros q Hq. apply in_map_iff in Hq.
    destruct Hq as (x & <- & _). apply Qeq_refl.
Qed.

Lemma mixMultipleColors_sequential_witness :
  exists m,
    mixMultipleColors hexOnly (fun _ => 1 # 4) (fun _ => "x")
                      [redInfo; whiteInfo; blackInfo] 0%nat
    = Ok (m, 1%nat)
    /\ parentColors m = [Some "color_r"; Some "color_w"; Some "color_k"]
    /\ List.length (ratio m) = 3%nat.
Proof.
  destruct (mixMultipleColors_sequential hexOnly (fun _ => 1 # 4)
              (fun _ => "x") [redInfo; whiteInfo; blackInfo]
              [Chroma.mkColor 255 0 0 1; Chroma.mkColor 255 255 255 1;
               Chroma.mkColor 0 0 0 1]
              0%nat ltac:(simpl; lia) eq_refl)
    as (m & blend & _ & Hrun & _ & _ & Hparents & Hlen & _).
  exists m. split; [exact Hrun|]. split; [exact Hparents | exact Hlen].
Defined.

(* ------------------------------------------------------------------------- *)
(** ** The mixing animation *)

Lemma adjustedProgressOf_bounds (progress jitter : Q) :
  0 <= adjustedProgressOf progress jitter <= 1.
Proof.
  unfold adjustedProgressOf, JS.max, JS.min.
  destruct (JS.ltb (progress + jitter) 1) eqn:E1.
  - apply ltb_lt in E1.
    destruct (JS.ltb 0 (progress + jitter)) eqn:E2.
    + apply ltb_lt in E2. lra.
    + lra.
  - destruct (JS.ltb 0 1) eqn:E2; lra.
Qed.

Section Animation.

Variable chromaOther : string -> option Chroma.Color.
Variable random : nat -> Q.

Lemma parsed_nth (colors : list ColorInfo) (cols : list Chroma.Color) (i : nat) :
  map (fun c => chroma chromaOther (hex c)) colors = map Ok cols ->
  (i < List.length colors)%nat ->
  exists c col,
    nth_error colors i = Some c /\ chroma chromaOther (hex c) = Ok col.
Proof.
  intros Hparse Hi.
  destruct (nth_error colors i) as [c|] eqn:E.
  - pose proof (map_nth_error (fun c => chroma chromaOther (hex c)) i colors E)
      as H1.
    rewrite Hparse in H1.
    destruct (nth_error cols i) as [col|] eqn:E2.
    + rewrite (map_nth_error Ok i cols E2) in H1.
      exists c, col. split; [reflexivity|]. congruence.
    + apply nth_error_None in E2.
      assert (List.length cols = List.length colors).
      { rewrite <- (length_map Ok cols), <- Hparse, length_map. reflexivity. }
      lia.
  - apply nth_error_None in E. lia.
Qed.

Lemma hexAt_ok (colors : list ColorInfo) (cols : list Chroma.Color) (i : nat) :
  map (fun c => chroma chromaOther (hex c)) colors = map Ok cols ->
  (i < List.length colors)%nat ->
  exists s col, hexAt colors i = Ok s /\ chroma chromaOther s = Ok col.
Proof.
  intros Hparse Hi.
  destruct (parsed_nth colors cols i Hparse Hi) as (c & col & E & Ec).
  exists (hex c), col. unfold hexAt. rewrite E. auto.
Qed.

(** The sequential loop over the colours 1 .. k succeeds whenever these
    colours exist and are colour strings. *)
Lemma mixLoop_prefix_ok (colors : list ColorInfo) (cols : list Chroma.Color)
                        (k : nat) (c0 : ColorInfo) :
  map (fun c => chroma chromaOther (hex c)) colors = map Ok cols ->
  nth_error colors 0 = Some c0 ->
  (k < List.length colors)%nat ->
  exists final finalCol,
    mixLoop chromaOther k 1 colors (hex c0) = Ok final
    /\ chroma chromaOther final = Ok finalCol.
Proof.
  intros Hparse H0 Hk.
  destruct colors as [|c0' tail]; [discriminate|].
  simpl in H0. injection H0 as ->.
  destruct cols as [|col0 tailCols]; [discriminate|].
  simpl in Hparse. injection Hparse as Hc0 Htail.
  simpl in Hk.
  assert (Hseg : map (fun c => chroma chromaOther (hex c)) (firstn k tail)
                 = map Ok (firstn k tailCols)).
  { rewrite <- !firstn_map. now rewrite Htail. }
  destruct (mixLoop_sequentialBlend chromaOther (firstn k tail)
              (firstn k tailCols) [c0] (skipn k tail) (hex c0) col0 col0
              Hseg Hc0 (sameChannels_refl _))
    as (final & finalCol & Hloop & Hfinal & _).
  rewrite firstn_skipn in Hloop.
  rewrite length_firstn in Hloop.
  replace (Nat.min k (List.length tail)) with k in Hloop by lia.
  exists final, finalCol. auto.
Qed.

Lemma chromaMix_ok (a b : string) (ca cb : Chroma.Color) (f : Q) :
  chroma chromaOther a = Ok ca -> chroma chromaOther b = Ok cb ->
  chromaMix chromaOther a b f = Ok (Chroma.mix ca cb f).
Proof. intros Ha Hb. unfold chromaMix, rbind. now rewrite Ha, Hb. Qed.

Lemma stageIndex_bounds (p : Q) (n : Z) :
  (2 <= n)%Z -> 0 < p -> p < 1 ->
  (0 <= JS.floor (p * inject_Z (n - 1)) < n - 1)%Z.
Proof.
  intros Hn H0 H1. unfold JS.floor.
  assert (Hpos : 0 < inject_Z (n - 1)).
  { change 0 with (inject_Z 0). rewrite <- Zlt_Qlt. lia. }
  split.
  - change 0%Z with (Qfloor 0). apply Qfloor_resp_le. nra.
  - rewrite Zlt_Qlt. eapply Qle_lt_trans; [apply Qfloor_le|]. nra.
Qed.

Lemma getMixedColorAtProgress_ok (colors : list ColorInfo)
                                 (cols : list Chroma.Color) (p : Q) :
  (2 <= List.length colors)%nat ->
  map (fun c => chroma chromaOther (hex c)) colors = map Ok cols ->
  exists s, getMixedColorAtProgress chromaOther colors p = Ok s.
Proof.
  intros Hlen Hparse.
  destruct (hexAt_ok colors cols 0 Hparse ltac:(lia)) as (s0 & col0 & Hs0 & Hcol0).
  destruct (hexAt_ok colors cols 1 Hparse ltac:(lia)) as (s1 & col1 & Hs1 & Hcol1).
  assert (Hc0 : exists c0, nth_error colors 0 = Some c0 /\ s0 = hex c0).
  { unfold hexAt in Hs0. destruct (nth_error colors 0) as [c0|]; [|discriminate].
    exists c0. split; [reflexivity|]. now apply Ok_eq in Hs0. }
  destruct Hc0 as (c0 & Hn0 & ->).
  unfold getMixedColorAtProgress.
  destruct (JS.leb p 0) eqn:E0; [eauto|].
  apply leb_gt in E0.
  destruct (JS.geb p 1) eqn:E1.
  - rewrite Hs0. cbn [rbind].
    destruct (mixLoop_prefix_ok colors cols (List.length colors - 1) c0
                Hparse Hn0 ltac:(lia)) as (final & _ & Hloop & _).
    eauto.
  - apply leb_gt in E1.
    pose proof (stageIndex_bounds p (Z.of_nat (List.length colors))
                  ltac:(lia) E0 E1) as Hstage.
    set (stageIndex := JS.floor (p * inject_Z (Z.of_nat (List.length colors) - 1)))
      in *.
    destruct (stageIndex =? 0)%Z.
    + rewrite Hs0, Hs1. cbn [rbind].
      rewrite (chromaMix_ok _ _ _ _ _ Hcol0 Hcol1). cbn [rbind]. eauto.
    + rewrite Hs0. cbn [rbind].
      destruct (mixLoop_prefix_ok colors cols (Z.to_nat stageIndex) c0
                  Hparse Hn0 ltac:(lia)) as (final & finalCol & Hloop & Hfinal).
      rewrite Hloop. cbn [rbind].
      destruct (stageIndex + 1 <? Z.of_nat (List.length colors))%Z; [|eauto].
      destruct (hexAt_ok colors cols (Z.to_nat (stageIndex + 1)) Hparse
                  ltac:(lia)) as (sn & coln & Hsn & Hcoln).
      rewrite Hsn. cbn [rbind].
      rewrite (chromaMix_ok _ _ _ _ _ Hfinal Hcoln). cbn [rbind]. eauto.
Qed.

Lemma frameColor_ok (colors : list ColorInfo) (cols : list Chroma.Color)
                    (p : Q) :
  (2 <= List.length colors)%nat ->
  map (fun c => chroma chromaOther (hex c)) colors = map Ok cols ->
  exists s, frameColor chromaOther colors p = Ok s.
Proof.
  intros Hlen Hparse. unfold frameColor.
  destruct (Nat.eqb (List.length colors) 2).
  - destruct (hexAt_ok colors cols 0 Hparse ltac:(lia))
      as (s0 & col0 & Hs0 & Hcol0).
    destruct (hexAt_ok colors cols 1 Hparse ltac:(lia))
      as (s1 & col1 & Hs1 & Hcol1).
    rewrite Hs0, Hs1. cbn [rbind].
    rewrite (chromaMix_ok _ _ _ _ _ Hcol0 Hcol1). cbn [rbind]. eauto.
  - eapply getMixedColorAtProgress_ok; eassumption.
Qed.

(** The frames produced by [count] passes of the loop that start at index
    [i], after [n] random draws. *)
Lemma framesLoop_spec (colors : list ColorInfo) (cols : list Chroma.Color)
                      (steps : positive) (count : nat) :
  (2 <= List.length colors)%nat ->
  map (fun c => chroma chromaOther (hex c)) colors = map Ok cols ->
  forall (i : Z) (n : nat),
  exists frames,
    framesLoop chromaOther random colors steps count i n
    = Ok (frames, (n + count)%nat)
    /\ List.length frames = count
    /\ forall j, (j < count)%nat ->
         exists fr,
           nth_error frames j = Some fr
           /\ progress fr = inject_Z (i + Z.of_nat j) / inject_Z (Zpos steps)
           /\ frameColor chromaOther colors
                (adjustedProgressOf (progress fr)
                                    (jitterOf (random (n + j)%nat)))
              = Ok (frameHex fr).
Proof.
  intros Hlen Hparse.
  induction count as [|count IH]; intros i n.
  - exists []. simpl. rewrite Nat.add_0_r. split; [reflexivity|].
    split; [reflexivity|]. intros j Hj. lia.
  - cbn [framesLoop]. unfold bind at 1. unfold Math_random.
    set (adj := adjustedProgressOf (inject_Z i / inject_Z (Z.pos steps))
                                   (jitterOf (random n))).
    destruct (frameColor_ok colors cols adj Hlen Hparse) as (s & Hs).
    unfold bind at 1. unfold lift. rewrite Hs.
    destruct (IH (i + 1)%Z (S n)) as (rest & Hrest & Hlenrest & Hnth).
    unfold bind. rewrite Hrest. unfold ret.
    eexists. split.
    { f_equal. f_equal. lia. }
    split; [simpl; now rewrite Hlenrest|].
    intros j Hj. destruct j as [|j].
    + eexists. split; [reflexivity|]. cbn [progress frameHex].
      split.
      * now rewrite Z.add_0_r.
      * rewrite Nat.add_0_r. exact Hs.
    + destruct (Hnth j ltac:(lia)) as (fr & Hfr & Hprog & Hcol).
      exists fr. split; [exact Hfr|]. split.
      * rewrite Hprog. do 2 f_equal. lia.
      * replace (n + S j)%nat with (S n + j)%nat by lia. exact Hcol.
Qed.

End Animation.

(** C6, as the specification states it, fails: with two colours, one step
    and [Math.random()] returning 0.25, the last frame (progress 1) is mixed
    at the jittered progress 0.975 and is "#fcfcfc"; it is neither the
    unperturbed blend at progress 1 ("#ffffff") nor the colour that
    [mixMultipleColors] gives for the two inputs ("#b4b4b4"). *)
Lemma animation_last_frame_is_perturbed :
  ~ (forall frames n last,
        generateColorMixingAnimation hexOnly (fun _ => 1 # 4)
                                     [blackInfo; whiteInfo] 1%positive 0%nat
        = Ok (frames, n) ->
        nth_error frames 1%nat = Some last ->
        frameColor hexOnly [blackInfo; whiteInfo] 1 = Ok (frameHex last)
        \/ exists m k,
             mixMultipleColors hexOnly (fun _ => 1 # 4) (fun _ => "x")
                               [blackInfo; whiteInfo] n = Ok (m, k)
             /\ hex (info m) = frameHex last).
Proof.
  intro H.
  specialize (H [mkFrame "#000000" 0; mkFrame "#fcfcfc" 1] 2%nat
                (mkFrame "#fcfcfc" 1) eq_refl eq_refl).
  destruct H as [H | (m & k & Hm & Hhex)].
  - vm_compute in H. discriminate H.
  - vm_compute in Hm. apply Ok_eq in Hm.
    apply (f_equal (fun p => hex (info (fst p)))) in Hm.
    cbn [fst info hex] in Hm. rewrite Hhex in Hm. discriminate Hm.
Qed.

(** C6 (amended).  For two or more colours whose [hex] fields are colour
    strings and every positive [steps], the generator returns exactly
    steps+1 frames (and draws steps+1 random numbers); the recorded progress
    of frame j is j/steps, so it is 0 for the first frame and 1 for the last;
    the colour of every frame, the first and the last included, is the blend
    at the jittered progress max(0, min(1, j/steps + (random - 0.5) * 0.1)),
    which always lies in [0, 1]. *)
Theorem generateColorMixingAnimation_frames
    (chromaOther : string -> option Chroma.Color) (random : nat -> Q)
    (colors : list ColorInfo) (cols : list Chroma.Color)
    (steps : positive) (n : nat) :
  (2 <= List.length colors)%nat ->
  map (fun c => chroma chromaOther (hex c)) colors = map Ok cols ->
  exists frames first last,
    generateColorMixingAnimation chromaOther random colors steps n
    = Ok (frames, (n + S (Pos.to_nat steps))%nat)
    /\ List.length frames = S (Pos.to_nat steps)
    /\ nth_error frames 0%nat = Some first
    /\ nth_error frames (Pos.to_nat steps) = Some last
    /\ progress first == 0
    /\ progress last == 1
    /\ forall j fr,
         nth_error frames j = Some fr ->
         progress fr == inject_Z (Z.of_nat j) / inject_Z (Zpos steps)
         /\ 0 <= adjustedProgressOf (progress fr) (jitterOf (random (n + j)%nat))
            <= 1
         /\ frameColor chromaOther colors
              (adjustedProgressOf (progress fr) (jitterOf (random (n + j)%nat)))
            = Ok (frameHex fr).
Proof.
  intros Hlen Hparse.
  destruct (framesLoop_spec chromaOther random colors cols steps
              (S (Pos.to_nat steps)) Hlen Hparse 0%Z n)
    as (frames & Hrun & Hlenf & Hnth).
  destruct (Hnth 0%nat ltac:(lia)) as (first & Hfirst & Pfirst & _).
  destruct (Hnth (Pos.to_nat steps) ltac:(lia)) as (last & Hlast & Plast & _).
  exists frames, first, last.
  unfold generateColorMixingAnimation.
  assert (E : Nat.ltb (List.length colors) 2 = false) by (apply Nat.ltb_ge; lia).
  rewrite E.
  split; [exact Hrun|]. split; [exact Hlenf|].
  split; [exact Hfirst|]. split; [exact Hlast|].
  split.
  { rewrite Pfirst. simpl Z.add. unfold Qeq; simpl; lia. }
  split.
  { rewrite Plast. rewrite Z.add_0_l, positive_nat_Z.
    unfold Qdiv. apply Qmult_inv_r. unfold Qeq; simpl; lia. }
  intros j fr Hj.
  assert (Hjlt : (j < S (Pos.to_nat steps))%nat).
  { rewrite <- Hlenf. apply nth_error_Some. congruence. }
  destruct (Hnth j Hjlt) as (fr' & Hfr' & Pfr & Hcol).
  assert (fr' = fr) by congruence. subst fr'.
  split; [rewrite Pfr, Z.add_0_l; apply Qeq_refl|].
  split; [apply adjustedProgressOf_bounds | exact Hcol].
Qed.

Lemma generateColorMixingAnimation_frames_witness :
  exists frames,
    generateColorMixingAnimation hexOnly (fun _ => 1 # 4)
                                 [blackInfo; whiteInfo; redInfo] 4%positive 0%nat
    = Ok (frames, 5%nat)
    /\ List.length frames = 5%nat.
Proof.
  destruct (generateColorMixingAnimation_frames hexOnly (fun _ => 1 # 4)
              [blackInfo; whiteInfo; redInfo]
              [Chroma.mkColor 0 0 0 1; Chroma.mkColor 255 255 255 1;
               Chroma.mkColor 255 0 0 1]
              4%positive 0%nat ltac:(simpl; lia) eq_refl)
    as (frames & _ & _ & Hrun & Hlen & _).
  exists frames. split; [exact Hrun | exact Hlen].
Defined.

(** The frame of the short path is [colors[0]?.hex || '#000000']: the
    default is taken for the empty list, and for a falsy hex. *)
Lemma generateColorMixingAnimation_short
    (chromaOther : string -> option Chroma.Color) (random : nat -> Q)
    (colors : list ColorInfo) (steps : positive) (n : nat) :
  (List.length colors < 2)%nat ->
  generateColorMixingAnimation chromaOther random colors steps n
  = Ok ([mkFrame (match colors with
                  | c :: _ => if String.eqb (hex c) "" then "#000000" else hex c
                  | [] => "#000000"
                  end) 1], n).
Proof.
  intro Hlen.
  destruct colors as [|c [|c1 rest]]; simpl in Hlen; try lia.
  - reflexivity.
  - unfold generateColorMixingAnimation. simpl.
    destruct (hex c); reflexivity.
Qed.

(** C10.  With fewer than two colours, each carrying a hex string, the
    generator throws nothing and draws no random number: it returns exactly
    one frame with progress 1, whose hex is the first colour's hex, or
    "#000000" when the list is empty.  [mixMultipleColors] throws its
    "two colours needed" error on the same list. *)
Theorem generateColorMixingAnimation_fallback
    (chromaOther : string -> option Chroma.Color) (random : nat -> Q)
    (base36 : Q -> string) (colors : list ColorInfo) (steps : positive)
    (n : nat) :
  (List.length colors < 2)%nat ->
  Forall (fun c => hex c <> "") colors ->
  generateColorMixingAnimation chromaOther random colors steps n
  = Ok ([mkFrame (match colors with
                  | c :: _ => hex c
                  | [] => "#000000"
                  end) 1], n)
  /\ mixMultipleColors chromaOther random base36 colors n
     = Throw InsufficientColors.
Proof.
  intros Hlen Hhex. split.
  - rewrite (generateColorMixingAnimation_short chromaOther random colors
               steps n Hlen).
    destruct colors as [|c rest]; [reflexivity|].
    inversion Hhex as [|? ? Hc _]; subst.
    apply String.eqb_neq in Hc. rewrite Hc. reflexivity.
  - unfold mixMultipleColors.
    assert (E : Nat.ltb (List.length colors) 2 = true)
      by (apply Nat.ltb_lt; exact Hlen).
    rewrite E. reflexivity.
Qed.

Lemma generateColorMixingAnimation_fallback_witness :
  generateColorMixingAnimation hexOnly (fun _ => 0) [redInfo] 30%positive 7%nat
  = Ok ([mkFrame "#ff0000" 1], 7%nat)
  /\ mixMultipleColors hexOnly (fun _ => 0) (fun _ => "x") [redInfo] 7%nat
     = Throw InsufficientColors.
Proof.
  apply (generateColorMixingAnimation_fallback hexOnly (fun _ => 0)
           (fun _ => "x") [redInfo] 30%positive 7%nat).
  - simpl. lia.
  - repeat constructor. discriminate.
Defined.

(* ------------------------------------------------------------------------- *)
(** ** The WCAG suggestion search *)

Section Suggestions.

Variable chromaOther : string -> option Chroma.Color.
Variable contrast : Chroma.Color -> Chroma.Color -> JS.number.

(** Twenty passes are enough, whatever chroma answers: each pass that does
    not leave the loop increments [iterations]. *)
Lemma suggestionLoop_terminates (adjust : Chroma.Color -> Chroma.Color)
                                (background : string) (fuel : nat) :
  forall (version : string) (ratio : Q) (iterations : nat),
    (maxIterations <= fuel + iterations)%nat ->
    exists v,
      suggestionLoop chromaOther contrast adjust background fuel
                     version ratio iterations = Some v.
Proof.
  induction fuel as [|fuel IH]; intros version ratio iterations Hfuel.
  - simpl.
    assert (E : Nat.ltb iterations maxIterations = false)
      by (apply Nat.ltb_ge; lia).
    rewrite E, andb_false_r. eauto.
  - cbn [suggestionLoop].
    destruct (JS.ltb ratio targetRatio && Nat.ltb iterations maxIterations);
      [|eauto].
    destruct (rbind (chroma chromaOther version) _) as [[newColor newRatio]|e];
      [|eauto].
    destruct (negb (JS.isFinite newRatio) || JS.isNaN newRatio
              || numLeb newRatio ratio); [eauto|].
    destruct newRatio as [q| | |]; eauto.
    destruct (JS.gtb q 21); [eauto|].
    apply IH. lia.
Qed.

(** More fuel does not change the answer. *)
Lemma suggestionLoop_more_fuel (adjust : Chroma.Color -> Chroma.Color)
                               (background : string) (fuel : nat) :
  forall (version : string) (ratio : Q) (iterations : nat) (v : string)
         (k : nat),
    suggestionLoop chromaOther contrast adjust background fuel
                   version ratio iterations = Some v ->
    suggestionLoop chromaOther contrast adjust background (fuel + k)
                   version ratio iterations = Some v.
Proof.
  induction fuel as [|fuel IH]; intros version ratio iterations v k H.
  - simpl in H.
    destruct (JS.ltb ratio targetRatio && Nat.ltb iterations maxIterations)
      eqn:E; [discriminate|].
    destruct k; simpl; rewrite E; exact H.
  - cbn [suggestionLoop Nat.add] in *.
    destruct (JS.ltb ratio targetRatio && Nat.ltb iterations maxIterations);
      [|exact H].
    destruct (rbind (chroma chromaOther version) _) as [[newColor newRatio]|e];
      [|exact H].
    destruct (negb (JS.isFinite newRatio) || JS.isNaN newRatio
              || numLeb newRatio ratio); [exact H|].
    destruct newRatio as [q| | |]; try exact H.
    destruct (JS.gtb q 21); [exact H|].
    apply IH. exact H.
Qed.

(** The loop stops at once when the adjusted colour does not improve the
    contrast ratio. *)
Lemma suggestionLoop_no_improvement (adjust : Chroma.Color -> Chroma.Color)
    (background version : string) (ratio q : Q) (iterations fuel : nat)
    (c : Chroma.Color) :
  chroma chromaOther version = Ok c ->
  chromaContrast chromaOther contrast (Chroma.hex (adjust c)) background
  = Ok (JS.Num q) ->
  q <= ratio ->
  suggestionLoop chromaOther contrast adjust background (S fuel)
                 version ratio iterations = Some version.
Proof.
  intros Hc Hq Hle. cbn [suggestionLoop].
  destruct (JS.ltb ratio targetRatio && Nat.ltb iterations maxIterations);
    [|reflexivity].
  rewrite Hc. cbn [rbind]. rewrite Hq. cbn [rbind].
  assert (E : numLeb (JS.Num q) ratio = true) by (apply leb_le; exact Hle).
  rewrite E, orb_true_r. reflexivity.
Qed.

End Suggestions.

(** C1.  For every pair of strings (equal ones included) and whatever the
    chroma operations answer, [checkWCAGCompliance] returns a result when
    each suggestion loop is allowed 20 passes, and more passes do not change
    it: the brightening search and the darkening search each enter the loop
    body at most 20 times, so [lightVersion] and [darkVersion] are always
    produced.  Each search stops at once when the adjusted colour does not
    improve the contrast ratio. *)
Theorem checkWCAGCompliance_terminates
    (chromaOther : string -> option Chroma.Color)
    (contrast : Chroma.Color -> Chroma.Color -> JS.number)
    (brighten darken : Chroma.Color -> Q -> Chroma.Color)
    (foreground background : string) :
  (exists res,
      checkWCAGCompliance chromaOther contrast brighten darken 20
                          foreground background = Some res
      /\ forall k,
           checkWCAGCompliance chromaOther contrast brighten darken (20 + k)
                               foreground background = Some res)
  /\ (forall adjust version ratio q iterations fuel c,
         chroma chromaOther version = Ok c ->
         chromaContrast chromaOther contrast (Chroma.hex (adjust c)) background
         = Ok (JS.Num q) ->
         q <= ratio ->
         suggestionLoop chromaOther contrast adjust background (S fuel)
                        version ratio iterations = Some version).
Proof.
  split.
  - assert (Hsug : forall ratio,
               exists sug,
                 generateWCAGSuggestions chromaOther contrast brighten darken
                                         20 foreground background ratio
                 = Some sug
                 /\ forall k,
                      generateWCAGSuggestions chromaOther contrast brighten
                        darken (20 + k) foreground background ratio
                      = Some sug).
    { intro ratio. unfold generateWCAGSuggestions.
      destruct (suggestionLoop_terminates chromaOther contrast
                  (fun c => brighten c (3 # 10)) background 20 foreground
                  ratio 0 ltac:(unfold maxIterations; lia)) as (lv & Hl).
      destruct (suggestionLoop_terminates chromaOther contrast
                  (fun c => darken c (3 # 10)) background 20 foreground
                  ratio 0 ltac:(unfold maxIterations; lia)) as (dv & Hd).
      exists (mkSuggestions lv dv). split.
      - rewrite Hl, Hd. reflexivity.
      - intro k.
        rewrite (suggestionLoop_more_fuel _ _ _ _ _ _ _ _ _ k Hl).
        rewrite (suggestionLoop_more_fuel _ _ _ _ _ _ _ _ _ k Hd).
        reflexivity. }
    unfold checkWCAGCompliance.
    destruct (chroma chromaOther foreground); [|cbn [rbind]; eauto].
    destruct (chroma chromaOther background); [|cbn [rbind]; eauto].
    cbn [rbind].
    destruct (negb (valid chromaOther foreground)
              || negb (valid chromaOther background)); [eauto|].
    destruct (chromaContrast chromaOther contrast foreground background)
      as [ratio|e]; [|cbn [rbind]; eauto].
    cbn [rbind].
    destruct (negb (JS.isFinite ratio) || JS.isNaN ratio); [eauto|].
    destruct ratio as [q| | |]; eauto.
    destruct (Hsug (round2 q)) as (sug & H20 & Hmore).
    eexists. split.
    + rewrite H20. reflexivity.
    + intro k. rewrite Hmore. reflexivity.
  - intros. eapply suggestionLoop_no_improvement; eassumption.
Qed.

Lemma checkWCAGCompliance_terminates_witness :
  suggestionLoop hexOnly (fun _ _ => JS.Num 1) (fun c => c) "#777777" 1
                 "#777777" 1 0
  = Some "#777777".
Proof.
  apply (proj2 (checkWCAGCompliance_terminates hexOnly (fun _ _ => JS.Num 1)
                  (fun c _ => c) (fun c _ => c) "#777777" "#777777")
           (fun c => c) "#777777" 1 1 0%nat 0%nat
           (Chroma.mkColor 119 119 119 1));
    [reflexivity | reflexivity | apply Qle_refl].
Defined.

(* ------------------------------------------------------------------------- *)
(** ** Malformed colours *)

Lemma invalid_throws (chromaOther : string -> option Chroma.Color) (s : string) :
  valid chromaOther s = false -> exists e, chroma chromaOther s = Throw e.
Proof.
  unfold valid, isOk. destruct (chroma chromaOther s); [discriminate|eauto].
Qed.

(** C2.  When either string is not a colour, neither distance raises: both
    return the penalty 100; and [checkWCAGCompliance] returns (for any fuel)
    the empty result, whose contrast ratio is 1 and whose four compliance
    flags are false. *)
Theorem malformed_color_soft_failure
    (chromaOther : string -> option Chroma.Color)
    (deltaE contrast : Chroma.Color -> Chroma.Color -> JS.number)
    (brighten darken : Chroma.Color -> Q -> Chroma.Color)
    (Math_sqrt : Q -> Q) (color1 color2 : string) :
  valid chromaOther color1 = false \/ valid chromaOther color2 = false ->
  calculateDeltaE2000 chromaOther deltaE Math_sqrt color1 color2 = 100
  /\ calculateDeltaE94 chromaOther deltaE Math_sqrt color1 color2 = 100
  /\ forall fuel,
       exists res,
         checkWCAGCompliance chromaOther contrast brighten darken fuel
                             color1 color2 = Some res
         /\ res = createEmptyWCAGResult color1 color2
         /\ contrastRatio res = 1
         /\ aaLevel res = mkLevel false false
         /\ aaaLevel res = mkLevel false false.
Proof.
  intro H.
  assert (Hthrow : (exists e, chroma chromaOther color1 = Throw e)
                   \/ (exists c e, chroma chromaOther color1 = Ok c
                                   /\ chroma chromaOther color2 = Throw e)).
  { destruct (chroma chromaOther color1) as [c|e] eqn:E1; [|eauto].
    right. destruct H as [H|H].
    - unfold valid in H. rewrite E1 in H. discriminate H.
    - destruct (invalid_throws _ _ H) as (e & He). eauto. }
  unfold calculateDeltaE2000, calculateDeltaE94, checkWCAGCompliance, simpleDiff.
  destruct Hthrow as [(e & E1) | (c & e & E1 & E2)].
  - rewrite E1. cbn [rbind]. repeat split.
    intro fuel. eexists. split; [reflexivity|]. repeat split.
  - rewrite E1, E2. cbn [rbind]. repeat split.
    intro fuel. eexists. split; [reflexivity|]. repeat split.
Qed.

Lemma malformed_color_soft_failure_witness :
  calculateDeltaE2000 hexOnly (fun _ _ => JS.NaN) (fun x => x)
                      "not-a-color" "#ffffff" = 100.
Proof.
  apply (malformed_color_soft_failure hexOnly (fun _ _ => JS.NaN)
           (fun _ _ => JS.NaN) (fun c _ => c) (fun c _ => c) (fun x => x)
           "not-a-color" "#ffffff").
  left. reflexivity.
Defined.

(* ------------------------------------------------------------------------- *)
(** ** The two colour distances *)

Lemma round2_mono (x y : Q) : x <= y -> round2 x <= round2 y.
Proof.
  intro H. unfold round2, JS.round.
  assert (Hz : (Qfloor (x * 100 + (1 # 2)) <= Qfloor (y * 100 + (1 # 2)))%Z)
    by (apply Qfloor_resp_le; lra).
  rewrite Zle_Qle in Hz.
  set (a := inject_Z (Qfloor (x * 100 + (1 # 2)))) in *.
  set (b := inject_Z (Qfloor (y * 100 + (1 # 2)))) in *.
  unfold Qdiv. apply Qmult_le_compat_r; [exact Hz|].
  unfold Qle; simpl; lia.
Qed.

Lemma round2_lt_inv (x y : Q) : round2 x < round2 y -> x < y.
Proof.
  intro H. apply Qnot_le_lt. intro Hle.
  apply round2_mono in Hle. apply (Qlt_not_le _ _ H Hle).
Qed.

Lemma round2_100 : round2 100 == 100.
Proof. vm_compute. reflexivity. Qed.

Section Distances.

Variable chromaOther : string -> option Chroma.Color.
Variable deltaE : Chroma.Color -> Chroma.Color -> JS.number.
Variable Math_sqrt : Q -> Q.

(** [chroma.deltaE] returns [max(0, min(100, result))]. *)
Hypothesis deltaE_range :
  forall x y q, deltaE x y = JS.Num q -> 0 <= q <= 100.

(** The two distances of a pair: the penalty 100 twice, or the rounded base
    distance and the rounded 0.95-fold of it. *)
Lemma distances_cases (a b : string) :
  (calculateDeltaE2000 chromaOther deltaE Math_sqrt a b = 100
   /\ calculateDeltaE94 chromaOther deltaE Math_sqrt a b = 100)
  \/ (exists ca cb d,
         chroma chromaOther a = Ok ca /\ chroma chromaOther b = Ok cb
         /\ deltaE ca cb = JS.Num d /\ 0 <= d <= 100
         /\ calculateDeltaE2000 chromaOther deltaE Math_sqrt a b = round2 d
         /\ calculateDeltaE94 chromaOther deltaE Math_sqrt a b
            = round2 (d * (95 # 100))).
Proof.
  unfold calculateDeltaE2000, calculateDeltaE94, simpleDiff, chromaDeltaE, valid.
  destruct (chroma chromaOther a) as [ca|e] eqn:Ea; [|left; split; reflexivity].
  destruct (chroma chromaOther b) as [cb|e] eqn:Eb; [|left; split; reflexivity].
  cbn [rbind isOk negb orb].
  destruct (deltaE ca cb) as [d| | |] eqn:Ed;
    cbn [JS.isFinite JS.isNaN negb orb]; try (left; split; reflexivity).
  right. exists ca, cb, d.
  split; [reflexivity|]. split; [reflexivity|]. split; [exact Ed|].
  split; [apply (deltaE_range ca cb d Ed)|]. split; reflexivity.
Qed.

End Distances.

Lemma sampleDeltaE_range (x y : Chroma.Color) (q : Q) :
  sampleDeltaE x y = JS.Num q -> 0 <= q <= 100.
Proof.
  unfold sampleDeltaE. intro H.
  destruct (Chroma.rgb y) as [[[|[]|] [|[]|]] [| |]];
    try (injection H as <-; unfold Qle; simpl; lia);
    repeat match type of H with
           | context [match ?p with _ => _ end] => destruct p
           end;
    injection H as <-; unfold Qle; simpl; lia.
Qed.

(** C7, as stated, fails in its last part: rounding to two decimals lets
    the second distance tie two pairs that the first one ranks.  With base
    distances 0.1024 and 0.1076 the first distance gives 0.10 < 0.11 and the
    second gives 0.10 for both. *)
Lemma deltaE94_ties_ranked_pairs :
  ~ (forall (deltaE : Chroma.Color -> Chroma.Color -> JS.number),
        (forall x y q, deltaE x y = JS.Num q -> 0 <= q <= 100) ->
        forall a b c d : string,
          valid hexOnly a = true -> valid hexOnly b = true ->
          valid hexOnly c = true -> valid hexOnly d = true ->
          calculateDeltaE2000 hexOnly deltaE (fun x => x) a b
          < calculateDeltaE2000 hexOnly deltaE (fun x => x) c d ->
          calculateDeltaE94 hexOnly deltaE (fun x => x) a b
          < calculateDeltaE94 hexOnly deltaE (fun x => x) c d).
Proof.
  intro H.
  specialize (H sampleDeltaE sampleDeltaE_range
                "#0000ff" "#0101fe" "#0000ff" "#0302fe"
                eq_refl eq_refl eq_refl eq_refl).
  assert (Hlt : calculateDeltaE2000 hexOnly sampleDeltaE (fun x => x)
                                    "#0000ff" "#0101fe"
                < calculateDeltaE2000 hexOnly sampleDeltaE (fun x => x)
                                      "#0000ff" "#0302fe")
    by (vm_compute; reflexivity).
  specialize (H Hlt). vm_compute in H. discriminate H.
Qed.

(** C7 (amended).  With a base distance in [0, 100], as [chroma.deltaE]
    returns it: the second distance never exceeds the first; for two colour
    strings with base distance d the first is d and the second 0.95 d, each
    rounded to two decimals; and the second distance never reverses a strict
    ranking of the first (it may tie the two pairs). *)
Theorem deltaE94_below_deltaE2000
    (chromaOther : string -> option Chroma.Color)
    (deltaE : Chroma.Color -> Chroma.Color -> JS.number)
    (Math_sqrt : Q -> Q)
    (deltaE_range : forall x y q, deltaE x y = JS.Num q -> 0 <= q <= 100)
    (a b c d : string) :
  calculateDeltaE94 chromaOther deltaE Math_sqrt a b
  <= calculateDeltaE2000 chromaOther deltaE Math_sqrt a b
  /\ (forall ca cb q,
         chroma chromaOther a = Ok ca -> chroma chromaOther b = Ok cb ->
         deltaE ca cb = JS.Num q ->
         calculateDeltaE2000 chromaOther deltaE Math_sqrt a b = round2 q
         /\ calculateDeltaE94 chromaOther deltaE Math_sqrt a b
            = round2 (q * (95 # 100)))
  /\ (calculateDeltaE2000 chromaOther deltaE Math_sqrt a b
      < calculateDeltaE2000 chromaOther deltaE Math_sqrt c d ->
      calculateDeltaE94 chromaOther deltaE Math_sqrt a b
      <= calculateDeltaE94 chromaOther deltaE Math_sqrt c d).
Proof.
  assert (Hle : forall x y,
             calculateDeltaE94 chromaOther deltaE Math_sqrt x y
             <= calculateDeltaE2000 chromaOther deltaE Math_sqrt x y).
  { intros x y.
    destruct (distances_cases chromaOther deltaE Math_sqrt deltaE_range x y)
      as [[E1 E2] | (cx & cy & q & _ & _ & _ & Hq & E1 & E2)];
      rewrite E1, E2; [apply Qle_refl|].
    apply round2_mono. lra. }
  split; [apply Hle|]. split.
  - intros ca cb q Ha Hb Hq.
    unfold calculateDeltaE2000, calculateDeltaE94, chromaDeltaE, valid.
    rewrite Ha, Hb. cbn [rbind isOk negb orb]. rewrite Hq.
    cbn [JS.isFinite JS.isNaN negb orb]. split; reflexivity.
  - intro Hlt.
    destruct (distances_cases chromaOther deltaE Math_sqrt deltaE_range a b)
      as [[A1 A2] | (ca & cb & q1 & _ & _ & _ & Hq1 & A1 & A2)];
    destruct (distances_cases chromaOther deltaE Math_sqrt deltaE_range c d)
      as [[C1 C2] | (cc & cd & q2 & _ & _ & _ & Hq2 & C1 & C2)];
    rewrite ?A1, ?A2, ?C1, ?C2 in *.
    + apply Qle_refl.
    + exfalso.
      assert (H100 : round2 q2 <= round2 100) by (apply round2_mono; lra).
      rewrite round2_100 in H100. lra.
    + eapply Qle_trans; [|apply Qlt_le_weak; exact Hlt].
      apply round2_mono. lra.
    + apply round2_mono. apply round2_lt_inv in Hlt. lra.
Qed.

Lemma deltaE94_below_deltaE2000_witness :
  calculateDeltaE94 hexOnly sampleDeltaE (fun x => x) "#0000ff" "#0101fe"
  <= calculateDeltaE2000 hexOnly sampleDeltaE (fun x => x) "#0000ff" "#0101fe".
Proof.
  exact (proj1 (deltaE94_below_deltaE2000 hexOnly sampleDeltaE (fun x => x)
                  sampleDeltaE_range
                  "#0000ff" "#0101fe" "#0000ff" "#0302fe")).
Defined.

(* ------------------------------------------------------------------------- *)
(** ** Harmonies *)

Lemma eqb_false_of_neq (x y : Q) : ~ x == y -> JS.eqb x y = false.
Proof.
  intro H. unfold JS.eqb. destruct (Qeq_bool x y) eqn:E; [|reflexivity].
  apply Qeq_bool_iff in E. contradiction.
Qed.

(** For an input whose saturation and lightness are both non-zero, every
    harmony colour is built from the rotated hue (modulo 360) and the
    input's own saturation and lightness. *)
Lemma calculateAdvancedHarmony_rotations
    (chromaOther : string -> option Chroma.Color) (baseColor : string)
    (c : Chroma.Color) (h0 : option Q) (s0 l0 : Q) :
  chroma chromaOther baseColor = Ok c ->
  Chroma.hsl c = (h0, s0, l0) ->
  ~ s0 == 0 -> ~ l0 == 0 ->
  let h := JS.orElse h0 0 in
  let rot (hue : Q) := Chroma.hex (Chroma.ofHsl (JS.rem hue 360) s0 l0) in
  calculateAdvancedHarmony chromaOther baseColor
  = Ok (mkHarmony [rot (h + 180)]
                  [rot (h + 120); rot (h + 240)]
                  [rot (h + 90); rot (h + 180); rot (h + 270)]
                  [rot (h - 30 + 360); rot (h + 30)]
                  [rot (h + 150); rot (h + 210)]).
Proof.
  intros Hc Hhsl Hs Hl h rot. unfold calculateAdvancedHarmony.
  rewrite Hc. cbn [rbind]. rewrite Hhsl.
  assert (Es : JS.orElse (Some s0) (1 # 2) = s0).
  { unfold JS.orElse. now rewrite (eqb_false_of_neq _ _ Hs). }
  assert (El : JS.orElse (Some l0) (1 # 2) = l0).
  { unfold JS.orElse. now rewrite (eqb_false_of_neq _ _ Hl). }
  rewrite Es, El. reflexivity.
Qed.

(** C9 at its failing input.  Black has saturation 0 and lightness 0, yet
    its complementary harmony colour is "#40bfbf", a colour of non-zero
    saturation and lightness, because both zeros are replaced by 0.5.  The
    sibling [getComplementaryColor] keeps them and answers black. *)
Theorem harmony_of_black
    (chromaOther : string -> option Chroma.Color) :
  (exists ss ll,
      option_map Chroma.hsl (Chroma.hex2rgb "#000000") = Some (None, ss, ll)
      /\ ss == 0 /\ ll == 0)
  /\ (exists har,
         calculateAdvancedHarmony chromaOther "#000000" = Ok har
         /\ complementary har = ["#40bfbf"])
  /\ (exists hh ss ll,
         option_map Chroma.hsl (Chroma.hex2rgb "#40bfbf") = Some (hh, ss, ll)
         /\ ~ ss == 0 /\ ~ ll == 0)
  /\ getComplementaryColor chromaOther "#000000" = Ok "#000000".
Proof.
  split.
  { do 2 eexists. split; [vm_compute; reflexivity|]. split; reflexivity. }
  split.
  { eexists. split; reflexivity. }
  split; [|reflexivity].
  do 3 eexists. split; [vm_compute; reflexivity|].
  split; intro H; vm_compute in H; discriminate H.
Qed.

(* ------------------------------------------------------------------------- *)
(** ** Ranges of the HSL conversion *)

Lemma min_le_l (a b : Q) : JS.min a b <= a.
Proof.
  unfold JS.min. destruct (JS.ltb b a) eqn:E.
  - apply ltb_lt in E. lra.
  - lra.
Qed.

Lemma min_le_r (a b : Q) : JS.min a b <= b.
Proof.
  unfold JS.min. destruct (JS.ltb b a) eqn:E.
  - lra.
  - apply ltb_ge in E. lra.
Qed.

Lemma min_glb (lo a b : Q) : lo <= a -> lo <= b -> lo <= JS.min a b.
Proof. intros Ha Hb. unfold JS.min. destruct (JS.ltb b a); assumption. Qed.

Lemma max_ge_l (a b : Q) : a <= JS.max a b.
Proof.
  unfold JS.max. destruct (JS.ltb a b) eqn:E.
  - apply ltb_lt in E. lra.
  - lra.
Qed.

Lemma max_ge_r (a b : Q) : b <= JS.max a b.
Proof.
  unfold JS.max. destruct (JS.ltb a b) eqn:E.
  - lra.
  - apply ltb_ge in E. lra.
Qed.

Lemma max_lub (hi a b : Q) : a <= hi -> b <= hi -> JS.max a b <= hi.
Proof. intros Ha Hb. unfold JS.max. destruct (JS.ltb a b); assumption. Qed.

Lemma eqb_eq (x y : Q) : JS.eqb x y = true <-> x == y.
Proof. unfold JS.eqb. apply Qeq_bool_iff. Qed.

Lemma eqb_neq (x y : Q) : JS.eqb x y = false <-> ~ x == y.
Proof.
  unfold JS.eqb. split.
  - intros E H. apply Qeq_bool_iff in H. congruence.
  - intros H. destruct (Qeq_bool x y) eqn:E; [|reflexivity].
    apply Qeq_bool_iff in E. contradiction.
Qed.

Lemma div_bounds (x d lo hi : Q) :
  0 < d -> lo * d <= x -> x <= hi * d -> lo <= x / d <= hi.
Proof.
  intros Hd Hlo Hhi. split.
  - apply Qle_shift_div_l; assumption.
  - apply Qle_shift_div_r; assumption.
Qed.

Lemma div_pos (x d : Q) : 0 < d -> 0 < x -> 0 < x / d.
Proof.
  intros Hd Hx. apply Qlt_shift_div_l; [assumption|]. lra.
Qed.

Lemma div255_bounds (x : Q) : 0 <= x <= 255 -> 0 <= x / 255 <= 1.
Proof. intros [H0 H1]. apply div_bounds; lra. Qed.

Lemma div255_inj (x y : Q) : x / 255 == y / 255 -> x == y.
Proof.
  intros H.
  setoid_replace x with (x / 255 * 255) by field.
  rewrite H. field.
Qed.

(** The hue of a chromatic colour lies in [0, 360), its saturation in
    (0, 1] and its lightness in (0, 1); an achromatic colour has no hue,
    saturation 0 and three equal channels. *)
Lemma rgb2hsl_range (c : Chroma.Color) :
  clipped c ->
  match Chroma.rgb2hsl c with
  | (Some h, s, l) => 0 <= h < 360 /\ 0 < s <= 1 /\ 0 < l < 1
  | (None, s, l) =>
      s = 0 /\ 0 <= l <= 1
      /\ Chroma.red c == Chroma.green c /\ Chroma.green c == Chroma.blue c
      /\ l * 255 == Chroma.red c
  end.
Proof.
  intros (Hr & Hg & Hb & _).
  assert (L255 : Chroma.red c == Chroma.red c / 255 * 255) by field.
  apply div255_bounds in Hr, Hg, Hb.
  unfold Chroma.rgb2hsl.
  pose proof (div255_inj (Chroma.red c) (Chroma.green c)) as Lrg.
  pose proof (div255_inj (Chroma.green c) (Chroma.blue c)) as Lgb.
  set (r := Chroma.red c / 255) in *.
  set (g := Chroma.green c / 255) in *.
  set (b := Chroma.blue c / 255) in *.
  clearbody r g b.
  pose proof (min_le_l (JS.min r g) b) as M1.
  pose proof (min_le_r (JS.min r g) b) as M2.
  pose proof (min_le_l r g) as M3.
  pose proof (min_le_r r g) as M4.
  assert (M5 : 0 <= JS.min (JS.min r g) b)
    by (apply min_glb; [apply min_glb|]; lra).
  pose proof (max_ge_l (JS.max r g) b) as X1.
  pose proof (max_ge_r (JS.max r g) b) as X2.
  pose proof (max_ge_l r g) as X3.
  pose proof (max_ge_r r g) as X4.
  assert (X5 : JS.max (JS.max r g) b <= 1)
    by (apply max_lub; [apply max_lub|]; lra).
  set (mn := JS.min (JS.min r g) b) in *.
  set (mx := JS.max (JS.max r g) b) in *.
  set (mrg := JS.min r g) in *. set (xrg := JS.max r g) in *.
  clearbody mn mx mrg xrg.
  destruct (JS.eqb mx mn) eqn:E.
  - apply eqb_eq in E.
    split; [reflexivity|]. split.
    + apply div_bounds; lra.
    + split; [apply Lrg; lra|]. split; [apply Lgb; lra|].
      rewrite L255.
      assert (El : (mx + mn) / 2 == r).
      { apply Qmult_inj_r with (z := 2); [lra|]. field_simplify. lra. }
      rewrite El. reflexivity.
  - apply eqb_neq in E.
    assert (D : mn < mx).
    { destruct (Qlt_le_dec mn mx) as [L|L]; [assumption|].
      exfalso. apply E. lra. }
    assert (Q1 : -1 <= (g - b) / (mx - mn) <= 1) by (apply div_bounds; lra).
    assert (Q2 : -1 <= (b - r) / (mx - mn) <= 1) by (apply div_bounds; lra).
    assert (Q3 : -1 <= (r - g) / (mx - mn) <= 1) by (apply div_bounds; lra).
    set (q1 := (g - b) / (mx - mn)) in *.
    set (q2 := (b - r) / (mx - mn)) in *.
    set (q3 := (r - g) / (mx - mn)) in *.
    clearbody q1 q2 q3.
    assert (L : 0 < (mx + mn) / 2 < 1).
    { split.
      - apply div_pos; lra.
      - apply Qlt_shift_div_r; lra. }
    set (l := (mx + mn) / 2) in *.
    assert (El : mx + mn == 2 * l) by (unfold l; field).
    clearbody l.
    split; [|split; [|exact L]].
    + destruct (JS.eqb r mx); [|destruct (JS.eqb g mx)];
        match goal with
        | |- context [JS.ltb ?h 0] =>
            destruct (JS.ltb h 0) eqn:F;
            [apply ltb_lt in F | apply ltb_ge in F]
        end; lra.
    + destruct (JS.ltb l (1 # 2)) eqn:F;
        [apply ltb_lt in F | apply ltb_ge in F].
      * split.
        -- apply div_pos; lra.
        -- apply Qle_shift_div_r; lra.
      * split.
        -- apply div_pos; lra.
        -- apply Qle_shift_div_r; lra.
Qed.

Lemma hsl_of_chroma (chromaOther : string -> option Chroma.Color)
                    (s : string) (c : Chroma.Color) :
  chroma chromaOther s = Ok c ->
  match Chroma.hsl c with
  | (Some h, s, l) => 0 <= h < 360 /\ 0 < s <= 1 /\ 0 < l < 1
  | (None, s, l) =>
      s = 0 /\ 0 <= l <= 1
      /\ Chroma.red c == Chroma.green c /\ Chroma.green c == Chroma.blue c
      /\ l * 255 == Chroma.red c
  end.
Proof.
  intros H. apply rgb2hsl_range. exact (chroma_clipped chromaOther s c H).
Qed.

Lemma orElse_range (h : option Q) (lo hi : Q) :
  lo <= 0 -> 0 <= hi ->
  match h with Some q => lo <= q <= hi | None => True end ->
  lo <= JS.orElse h 0 <= hi.
Proof.
  intros Hlo Hhi H. unfold JS.orElse. destruct h as [q|]; [|lra].
  destruct (JS.eqb q 0); lra.
Qed.

Lemma hue_range (c : Chroma.Color) :
  clipped c ->
  0 <= JS.orElse (fst (fst (Chroma.hsl c))) 0 < 360.
Proof.
  intros Hc. pose proof (rgb2hsl_range c Hc) as R. unfold Chroma.hsl.
  destruct (Chroma.rgb2hsl c) as [[[q|] s] l]; cbn [fst snd JS.orElse].
  - destruct (JS.eqb q 0); lra.
  - lra.
Qed.

(** X1.  [rgbToHsl] reports, for any three integers, a hue between 0 and
    360, both included, and a saturation and a lightness between 0 and 100;
    the hue 360 is reached (rgb(255, 0, 1) has the hue 359.76), so that a
    red can be reported as 0 or as 360. *)
Theorem rgbToHsl_range (r g b : Z) :
  ((0 <= h (rgbToHsl r g b) <= 360)%Z
   /\ (0 <= s (rgbToHsl r g b) <= 100)%Z
   /\ (0 <= l (rgbToHsl r g b) <= 100)%Z)
  /\ rgbToHsl 255 0 1 = mkHSL 360 100 50.
Proof.
  split; [|reflexivity].
  unfold rgbToHsl.
  pose proof (rgb2hsl_range _ (clip_rgb_clipped
                                 (Chroma.mkColor (inject_Z r) (inject_Z g)
                                                 (inject_Z b) 1))) as R.
  unfold Chroma.hsl, Chroma.ofRgb.
  destruct (Chroma.rgb2hsl _) as [[[q|] s0] l0]; cbn [h s l].
  - destruct R as (Rh & Rs & Rl).
    split; [|split]; apply round_bounds; unfold inject_Z.
    + unfold JS.orElse. destruct (JS.eqb q 0); lra.
    + lra.
    + lra.
  - destruct R as (Rs & Rl & _). subst s0.
    split; [|split]; apply round_bounds; unfold inject_Z; cbn [JS.orElse]; lra.
Qed.

(** X2.  [getColorTemperature] never answers 'neutral': a colour that
    chroma accepts is cool when its hue lies in [45, 135] or [225, 315] and
    warm otherwise, an achromatic colour (hue NaN, read as 0) included. *)
Theorem getColorTemperature_warm_or_cool
    (chromaOther : string -> option Chroma.Color) (hex : string)
    (c : Chroma.Color) :
  chroma chromaOther hex = Ok c ->
  let hue := JS.orElse (fst (fst (Chroma.hsl c))) 0 in
  getColorTemperature chromaOther hex
  = Ok (if (JS.geb hue 45 && JS.leb hue 135)
           || (JS.geb hue 225 && JS.leb hue 315)
        then cool else warm)
  /\ getColorTemperature chromaOther hex <> Ok neutral.
Proof.
  intros Hc hue.
  pose proof (hue_range c (chroma_clipped chromaOther hex c Hc)) as R.
  subst hue.
  set (x := JS.orElse (fst (fst (Chroma.hsl c))) 0) in *.
  assert (E : getColorTemperature chromaOther hex
              = Ok (if (JS.geb x 45 && JS.leb x 135)
                       || (JS.geb x 225 && JS.leb x 315)
                    then cool else warm)).
  { unfold getColorTemperature. rewrite Hc. cbn [rbind].
    unfold x in *. destruct (Chroma.hsl c) as [[h0 s0] l0]. cbn [fst] in *.
    set (y := JS.orElse h0 0) in *. clearbody y. unfold JS.geb.
    destruct (JS.leb 45 y) eqn:C1; destruct (JS.leb y 135) eqn:C2;
      cbn [andb orb]; try reflexivity;
      destruct (JS.leb 225 y) eqn:C3; destruct (JS.leb y 315) eqn:C4;
      cbn [andb orb]; try reflexivity;
      destruct (JS.leb 315 y) eqn:E1; destruct (JS.leb y 360) eqn:E2;
      destruct (JS.leb 0 y) eqn:E3; destruct (JS.leb y 45) eqn:E4;
      cbn [andb orb]; try reflexivity;
      destruct (JS.leb 135 y) eqn:E5; destruct (JS.leb y 225) eqn:E6;
      cbn [andb]; try reflexivity;
      exfalso;
      repeat match goal with
             | H : JS.leb _ _ = true |- _ => apply leb_le in H
             | H : JS.leb _ _ = false |- _ => apply leb_gt in H
             end; lra. }
  split; [exact E|].
  rewrite E. destruct (_ || _); discriminate.
Qed.

Lemma getColorTemperature_warm_or_cool_witness :
  getColorTemperature hexOnly "#808080" = Ok warm
  /\ getColorTemperature hexOnly "#808080" <> Ok neutral.
Proof.
  destruct (Chroma.hex2rgb "#808080") as [c|] eqn:E; [|discriminate].
  assert (Hc : chroma hexOnly "#808080" = Ok c)
    by (unfold chroma; rewrite E; reflexivity).
  pose proof (getColorTemperature_warm_or_cool hexOnly "#808080" c Hc) as H.
  apply Some_eq in E. subst c.
  exact H.
Defined.

Lemma band_false (x lo hi : Q) :
  JS.geb x lo && JS.ltb x hi = false -> lo <= x -> hi <= x.
Proof.
  unfold JS.geb. intros H L.
  destruct (JS.leb lo x) eqn:E1.
  - cbn [andb] in H. apply ltb_ge in H. exact H.
  - apply leb_gt in E1. lra.
Qed.

(** X3.  The extended [getColorName] of advancedColorUtils never reaches
    its fallback 'カスタムカラー': the hue that chroma reports lies in
    [0, 360), which the thirteen hue bands cover. *)
Theorem advanced_getColorName_never_custom
    (chromaOther : string -> option Chroma.Color)
    (lab : Q -> Q -> Q -> option (Q * Q * Q)) (hex : string) :
  Advanced.getColorName chromaOther lab hex <> Ok "カスタムカラー".
Proof.
  unfold Advanced.getColorName.
  destruct (chroma chromaOther hex) as [c|e] eqn:Hc; cbn [rbind];
    [|discriminate].
  pose proof (hue_range c (chroma_clipped chromaOther hex c Hc)) as R.
  destruct (Chroma.rgb c) as [[r0 g0] b0].
  destruct (JS.ltb _ 20); [discriminate|].
  destruct (JS.gtb _ 80); [discriminate|].
  destruct (Chroma.hsl c) as [[h0 s0] l0]. cbn [fst] in R.
  set (x := JS.orElse h0 0) in *. clearbody x.
  destruct (JS.ltb _ (1 # 10)); [discriminate|].
  destruct R as [R0 R1].
  repeat match goal with
         | L : ?lo <= x |- context [JS.geb x ?lo && JS.ltb x ?hi] =>
             let E := fresh "E" in
             destruct (JS.geb x lo && JS.ltb x hi) eqn:E;
             [discriminate | apply band_false in E; [|exact L]]
         end.
  destruct (JS.geb x 345 && JS.leb x 360) eqn:F; [discriminate|].
  exfalso. unfold JS.geb in F.
  apply andb_false_iff in F. destruct F as [F|F]; apply leb_gt in F; lra.
Qed.

Lemma lookup_colorNames_not_custom (key n : string) :
  lookup colorNames key = Some n -> n <> "カスタム".
Proof.
  unfold colorNames. cbn [lookup].
  repeat match goal with
         | |- context [if String.eqb ?k key then _ else _] =>
             destruct (String.eqb k key)
         end;
    intros H; try discriminate; apply Some_eq in H; subst n; discriminate.
Qed.

(** X4.  The simple [getColorName] of colorUtils answers 'カスタム' only for
    a colour whose hue is exactly 345: the test for reds is [h > 345] and
    the test for pinks is [h < 345], so that this one hue falls between the
    two bands. *)
Theorem getColorName_custom_only_at_345
    (chromaOther : string -> option Chroma.Color) (hex : string) :
  getColorName chromaOther hex = Ok "カスタム" ->
  exists c hue sat light,
    chroma chromaOther hex = Ok c
    /\ Chroma.hsl c = (Some hue, sat, light)
    /\ hue == 345.
Proof.
  unfold getColorName.
  destruct (lookup colorNames (JS.toUpperCase hex)) as [n|] eqn:L.
  - intros H. apply Ok_eq in H.
    exfalso. exact (lookup_colorNames_not_custom _ _ L H).
  - destruct (chroma chromaOther hex) as [c|e] eqn:Hc; cbn [rbind];
      [|discriminate].
    pose proof (hsl_of_chroma chromaOther hex c Hc) as R.
    destruct (Chroma.hsl c) as [[h0 s0] l0] eqn:Eh.
    destruct (JS.ltb (JS.orElse (Some s0) 0) (1 # 10)) eqn:Es.
    { split_ifs; discriminate. }
    destruct (JS.ltb _ (15 # 100)); [discriminate|].
    destruct (JS.gtb _ (85 # 100)); [discriminate|].
    destruct (JS.ltb (JS.orElse h0 0) 15) eqn:E1; [discriminate|].
    destruct (JS.gtb (JS.orElse h0 0) 345) eqn:E2; [discriminate|].
    cbn [orb].
    destruct (JS.ltb _ 45); [discriminate|].
    destruct (JS.ltb _ 75); [discriminate|].
    destruct (JS.ltb _ 150); [discriminate|].
    destruct (JS.ltb _ 180); [discriminate|].
    destruct (JS.ltb _ 250); [discriminate|].
    destruct (JS.ltb _ 290); [discriminate|].
    destruct (JS.ltb (JS.orElse h0 0) 345) eqn:E3; [discriminate|].
    intros _.
    apply ltb_ge in E1, E3. unfold JS.gtb in E2. apply ltb_ge in E2.
    destruct h0 as [q|].
    + exists c, q, s0, l0. split; [reflexivity|]. split; [exact Eh|].
      unfold JS.orElse in *. destruct (JS.eqb q 0); lra.
    + cbn [JS.orElse] in E1. lra.
Qed.

Lemma getColorName_custom_only_at_345_witness :
  getColorName hexOnly "#c8647d" = Ok "カスタム"
  /\ exists c hue sat light,
       chroma hexOnly "#c8647d" = Ok c
       /\ Chroma.hsl c = (Some hue, sat, light)
       /\ hue == 345.
Proof.
  assert (H : getColorName hexOnly "#c8647d" = Ok "カスタム")
    by (vm_compute; reflexivity).
  split; [exact H|].
  exact (getColorName_custom_only_at_345 hexOnly "#c8647d" H).
Defined.

(* ------------------------------------------------------------------------- *)
(** ** The educational helpers *)

Lemma ltb_comp (x y z : Q) : x == y -> JS.ltb x z = JS.ltb y z.
Proof. intros H. unfold JS.ltb. rewrite H. reflexivity. Qed.

(** [((angle % 360) + 360) % 360] is the remainder of the floored
    division. *)
Lemma normalizedAngle_mod (angle : Z) :
  Z.rem (Z.rem angle 360 + 360) 360 = (angle mod 360)%Z.
Proof. Z.to_euclidean_division_equations. lia. Qed.

(** X5.  [getColorNameFromAngle] is periodic on whole-number angles:
    adding any whole number of turns, forwards or backwards, to an angle
    does not change the name, both angles being safe integers (where the
    arithmetic of the code is exact). *)
Theorem getColorNameFromAngle_periodic (angle turns : Z) :
  safeInteger angle -> safeInteger (angle + 360 * turns) ->
  Educational.getColorNameFromAngle (angle + 360 * turns)
  = Educational.getColorNameFromAngle angle.
Proof.
  intros _ _. unfold Educational.getColorNameFromAngle.
  rewrite !normalizedAngle_mod.
  rewrite (Z.mul_comm 360 turns), Z_mod_plus_full. reflexivity.
Qed.

Lemma getColorNameFromAngle_periodic_witness :
  Educational.getColorNameFromAngle (-195 + 360 * 1)
  = Educational.getColorNameFromAngle (-195).
Proof.
  apply (getColorNameFromAngle_periodic (-195) 1); unfold safeInteger; lia.
Defined.

Lemma getWavelength_range (hue : Q) :
  0 <= hue < 360 ->
  exists w, Educational.getWavelength (Some hue) = Some w /\ 380 < w <= 700.
Proof.
  intros [H0 H1]. unfold Educational.getWavelength, JS.geb.
  repeat match goal with
         | |- context [if JS.leb ?a ?b && JS.ltb ?c ?d then _ else _] =>
             let E1 := fresh "E" in
             let E2 := fresh "E" in
             destruct (JS.leb a b) eqn:E1;
             [apply leb_le in E1 | apply leb_gt in E1];
             (destruct (JS.ltb c d) eqn:E2;
              [apply ltb_lt in E2 | apply ltb_ge in E2]);
             cbn [andb]
         end;
    (eexists; split; [reflexivity|]);
    unfold Qdiv; change (/ 60) with (1 # 60); lra.
Qed.

Lemma getWavelengthDescription_cases (w : Q) :
  (Educational.getWavelengthDescription w = "可視光線外 - 特殊な光の領域"
   /\ (w < 380 \/ 750 < w))
  \/ (Educational.getWavelengthDescription w <> "可視光線外 - 特殊な光の領域"
      /\ 380 <= w <= 750).
Proof.
  assert (D : w < 380 \/ (380 <= w /\ w < 450) \/ (450 <= w /\ w < 495)
              \/ (495 <= w /\ w < 570) \/ (570 <= w /\ w < 590)
              \/ (590 <= w /\ w < 650) \/ (650 <= w /\ w < 700)
              \/ (700 <= w /\ w <= 750) \/ 750 < w).
  { destruct (Qlt_le_dec w 380); [lra|].
    destruct (Qlt_le_dec w 450); [lra|].
    destruct (Qlt_le_dec w 495); [lra|].
    destruct (Qlt_le_dec w 570); [lra|].
    destruct (Qlt_le_dec w 590); [lra|].
    destruct (Qlt_le_dec w 650); [lra|].
    destruct (Qlt_le_dec w 700); [lra|].
    destruct (Qlt_le_dec 750 w); lra. }
  unfold Educational.getWavelengthDescription, JS.geb.
  repeat destruct D as [D|D];
    repeat match goal with
           | |- context [JS.leb ?a ?b] =>
               first [ rewrite (proj2 (leb_le a b)) by lra
                     | rewrite (proj2 (leb_gt a b)) by lra ]
           | |- context [JS.ltb ?a ?b] =>
               first [ rewrite (proj2 (ltb_lt a b)) by lra
                     | rewrite (proj2 (ltb_ge a b)) by lra ]
           end;
    cbn [andb];
    first [ left; split; [reflexivity | lra]
          | right; split; [discriminate | lra] ].
Qed.

(** X6.  [getWavelengthDescription] answers "outside the visible range"
    exactly for the wavelengths below 380 or above 750: the seven bands
    cover [380, 750] without a gap. *)
Theorem getWavelengthDescription_outside_iff (w : Q) :
  Educational.getWavelengthDescription w = "可視光線外 - 特殊な光の領域"
  <-> (w < 380 \/ 750 < w).
Proof.
  destruct (getWavelengthDescription_cases w) as [[E R]|[E R]].
  - split; intros _; assumption.
  - split; intros H; [contradiction | lra].
Qed.

(** X7.  [generateColorScience] always finds a wavelength, for every colour
    that chroma accepts: the [isNaN] exit of [getWavelength] is never taken
    because the hue has been defaulted to 0, the wavelength lies in
    (380, 700], and [getWavelengthDescription] places it in the visible
    range. *)
Theorem generateColorScience_wavelength
    (chromaOther : string -> option Chroma.Color)
    (chromaLuminance : Chroma.Color -> Q) (Math_pow : Q -> Q -> Q)
    (color : ColorInfo) (c : Chroma.Color) :
  chroma chromaOther (hex color) = Ok c ->
  exists science w,
    Educational.generateColorScience chromaOther chromaLuminance Math_pow color
    = Ok science
    /\ Educational.wavelength science = Some w
    /\ 380 < w <= 700
    /\ Educational.getWavelengthDescription w
       <> "可視光線外 - 特殊な光の領域".
Proof.
  intros Hc.
  pose proof (hue_range c (chroma_clipped chromaOther _ c Hc)) as R.
  unfold Educational.generateColorScience. rewrite Hc. cbn [rbind].
  destruct (Chroma.hsl c) as [[h0 s0] l0]. cbn [fst] in R.
  destruct (getWavelength_range _ R) as (w & Ew & Rw).
  eexists. exists w. split; [reflexivity|].
  cbn [Educational.wavelength]. split; [exact Ew|]. split; [exact Rw|].
  destruct (getWavelengthDescription_cases w) as [[_ O]|[E _]];
    [lra | exact E].
Qed.

Lemma generateColorScience_wavelength_witness :
  exists science w,
    Educational.generateColorScience hexOnly (fun _ => 0) (fun x _ => x)
                                     whiteInfo
    = Ok science
    /\ Educational.wavelength science = Some w
    /\ 380 < w <= 700
    /\ Educational.getWavelengthDescription w
       <> "可視光線外 - 特殊な光の領域".
Proof.
  destruct (Chroma.hex2rgb "#ffffff") as [c|] eqn:E; [|discriminate].
  apply (generateColorScience_wavelength hexOnly (fun _ => 0) (fun x _ => x)
                                         whiteInfo c).
  unfold chroma. cbn [hex whiteInfo]. rewrite E. reflexivity.
Defined.

(* ------------------------------------------------------------------------- *)
(** ** Achromatic colours *)

Lemma round_comp (x y : Q) : x == y -> JS.round x = JS.round y.
Proof. intros H. unfold JS.round. rewrite H. reflexivity. Qed.

(** The hexadecimal notation depends on the rounded channels only. *)
Lemma hex_ext (a b : Chroma.Color) :
  Chroma.rgb a = Chroma.rgb b -> Chroma.alpha a == Chroma.alpha b ->
  Chroma.hex a = Chroma.hex b.
Proof.
  intros Hrgb Ha. unfold Chroma.hex. rewrite Hrgb.
  destruct (Chroma.rgb b) as [[r0 g0] b0].
  rewrite (ltb_comp _ _ 1 Ha).
  rewrite (round_comp (Chroma.alpha a * 255) (Chroma.alpha b * 255))
    by (rewrite Ha; reflexivity).
  reflexivity.
Qed.

Lemma rgb_ofRgb_bytes (r g b : Z) :
  (0 <= r <= 255)%Z -> (0 <= g <= 255)%Z -> (0 <= b <= 255)%Z ->
  Chroma.rgb (Chroma.ofRgb (inject_Z r) (inject_Z g) (inject_Z b)) = (r, g, b).
Proof.
  intros Hr Hg Hb. rewrite ofRgb_bytes by assumption.
  unfold Chroma.rgb. cbn [Chroma.red Chroma.green Chroma.blue].
  rewrite !round_inject_Z. reflexivity.
Qed.

(** A colour with three equal channels and no transparency prints as the
    grey of its rounded channel. *)
Lemma hex_gray (x : Q) (v : Z) :
  0 <= x <= 255 -> JS.round x = v ->
  Chroma.hex (Chroma.clip_rgb (Chroma.mkColor x x x 1)) = rgbToHex v v v.
Proof.
  intros Hx Hv.
  assert (Bv : (0 <= v <= 255)%Z).
  { subst v. apply round_bounds. unfold inject_Z. lra. }
  unfold rgbToHex. apply hex_ext.
  - rewrite rgb_ofRgb_bytes by assumption.
    unfold Chroma.rgb, Chroma.clip_rgb.
    cbn [Chroma.red Chroma.green Chroma.blue].
    rewrite (limit_in_range x 0 255 Hx), Hv. reflexivity.
  - reflexivity.
Qed.

Lemma orElse_zero_eq (q : Q) : JS.orElse (Some q) 0 == q.
Proof.
  unfold JS.orElse. destruct (JS.eqb q 0) eqn:E; [|reflexivity].
  apply eqb_eq in E. rewrite E. reflexivity.
Qed.

Lemma ofHsl_gray (hue light : Q) :
  Chroma.ofHsl hue 0 light
  = Chroma.clip_rgb (Chroma.mkColor (light * 255) (light * 255) (light * 255) 1).
Proof. reflexivity. Qed.

Lemma ofHsl_clipped (hue sat light : Q) :
  clipped (Chroma.ofHsl hue sat light).
Proof.
  unfold Chroma.ofHsl. destruct (JS.eqb sat 0); apply clip_rgb_clipped.
Qed.

(** X8.  The educational harmony of an achromatic colour is that colour
    itself, eight times: [calculateHarmonyColors] keeps the saturation 0, so
    that every rotated hue gives the same grey, and so does
    [getComplementaryColor]. *)
Theorem harmony_of_achromatic
    (chromaOther : string -> option Chroma.Color) (color : ColorInfo)
    (c : Chroma.Color) :
  chroma chromaOther (hex color) = Ok c ->
  fst (fst (Chroma.hsl c)) = None ->
  let v := JS.round (Chroma.red c) in
  let grey := rgbToHex v v v in
  Educational.calculateHarmonyColors chromaOther color
  = Ok (Educational.mkHarmonyColors grey [grey; grey] [grey; grey]
                                    [grey; grey; grey])
  /\ getComplementaryColor chromaOther (hex color) = Ok grey.
Proof.
  intros Hc Hn v grey.
  pose proof (chroma_clipped chromaOther _ c Hc) as Cc.
  pose proof (rgb2hsl_range c Cc) as R.
  unfold Educational.calculateHarmonyColors, getComplementaryColor.
  rewrite Hc. cbn [rbind]. unfold Chroma.hsl in *.
  destruct (Chroma.rgb2hsl c) as [[h0 s0] l0]. cbn [fst] in Hn. subst h0.
  destruct R as (Es & Rl & _ & _ & El). subst s0.
  destruct Cc as (Cr & _).
  assert (G : forall light,
             light == l0 ->
             Chroma.hex (Chroma.clip_rgb
                           (Chroma.mkColor (light * 255) (light * 255)
                                           (light * 255) 1))
             = grey).
  { intros light E. apply hex_gray.
    - rewrite E, El. exact Cr.
    - apply round_comp. rewrite E, El. reflexivity. }
  change (JS.orElse (Some 0) 0) with 0.
  rewrite !ofHsl_gray.
  rewrite (G _ (orElse_zero_eq l0)), (G l0 (Qeq_refl l0)).
  split; reflexivity.
Qed.

Lemma harmony_of_achromatic_witness :
  Educational.calculateHarmonyColors hexOnly whiteInfo
  = Ok (Educational.mkHarmonyColors
          "#ffffff" ["#ffffff"; "#ffffff"] ["#ffffff"; "#ffffff"]
          ["#ffffff"; "#ffffff"; "#ffffff"])
  /\ getComplementaryColor hexOnly "#ffffff" = Ok "#ffffff".
Proof.
  destruct (Chroma.hex2rgb "#ffffff") as [c|] eqn:E; [|discriminate].
  assert (Hc : chroma hexOnly (hex whiteInfo) = Ok c).
  { unfold chroma. cbn [hex whiteInfo]. rewrite E. reflexivity. }
  pose proof (harmony_of_achromatic hexOnly whiteInfo c Hc) as H.
  apply Some_eq in E. subst c.
  exact (H eq_refl).
Defined.

(** X9.  [getColorPsychologyEffects] gives every achromatic colour the same
    six effects, whatever its lightness: the missing hue is read as 0, the
    hue of red, which contributes four effects, the saturation 0 adds two,
    and [slice(0, 6)] then cuts off the two effects of a dark or a light
    colour. *)
Theorem psychology_of_achromatic
    (chromaOther : string -> option Chroma.Color) (color : ColorInfo)
    (c : Chroma.Color) :
  chroma chromaOther (hex color) = Ok c ->
  fst (fst (Chroma.hsl c)) = None ->
  Educational.getColorPsychologyEffects chromaOther color
  = Ok ["情熱的"; "活力"; "興奮"; "注意喚起"; "落ち着いた"; "上品な"].
Proof.
  intros Hc Hn.
  pose proof (rgb2hsl_range c (chroma_clipped chromaOther _ c Hc)) as R.
  unfold Educational.getColorPsychologyEffects.
  rewrite Hc. cbn [rbind]. unfold Chroma.hsl in *.
  destruct (Chroma.rgb2hsl c) as [[h0 s0] l0]. cbn [fst] in Hn. subst h0.
  destruct R as (Es & _). subst s0.
  change (JS.orElse None 0) with 0.
  change (JS.orElse (Some 0) 0) with 0.
  change (JS.geb 0 345 || JS.ltb 0 15) with true.
  change (JS.ltb 0 (3 # 10)) with true.
  cbv iota.
  destruct (JS.ltb _ (3 # 10)); [reflexivity|].
  destruct (JS.gtb _ (7 # 10)); reflexivity.
Qed.

Lemma psychology_of_achromatic_witness :
  Educational.getColorPsychologyEffects hexOnly blackInfo
  = Ok ["情熱的"; "活力"; "興奮"; "注意喚起"; "落ち着いた"; "上品な"].
Proof.
  destruct (Chroma.hex2rgb "#000000") as [c|] eqn:E; [|discriminate].
  assert (Hc : chroma hexOnly (hex blackInfo) = Ok c).
  { unfold chroma. cbn [hex blackInfo]. rewrite E. reflexivity. }
  pose proof (psychology_of_achromatic hexOnly blackInfo c Hc) as H.
  apply Some_eq in E. subst c.
  exact (H eq_refl).
Defined.

(** X10.  [getColorPsychologyEffects] returns between three and six
    effects for every colour that chroma accepts. *)
Theorem psychology_effects_count
    (chromaOther : string -> option Chroma.Color) (color : ColorInfo)
    (c : Chroma.Color) :
  chroma chromaOther (hex color) = Ok c ->
  exists effects,
    Educational.getColorPsychologyEffects chromaOther color = Ok effects
    /\ (3 <= List.length effects <= 6)%nat.
Proof.
  intros Hc. unfold Educational.getColorPsychologyEffects.
  rewrite Hc. cbn [rbind].
  destruct (Chroma.hsl c) as [[h0 s0] l0].
  eexists. split; [reflexivity|].
  split_ifs; cbn [firstn app List.length]; lia.
Qed.

Lemma psychology_effects_count_witness :
  exists effects,
    Educational.getColorPsychologyEffects hexOnly redInfo = Ok effects
    /\ (3 <= List.length effects <= 6)%nat.
Proof.
  destruct (Chroma.hex2rgb "#ff0000") as [c|] eqn:E; [|discriminate].
  apply (psychology_effects_count hexOnly redInfo c).
  unfold chroma. cbn [hex redInfo]. rewrite E. reflexivity.
Defined.

(* ------------------------------------------------------------------------- *)
(** ** Round trip and [createColorInfo] for arbitrary integers *)

Lemma limit_clamp (z : Z) :
  Chroma.limit (inject_Z z) 0 255 = inject_Z (clampByte z).
Proof.
  unfold Chroma.limit, JS.gtb, clampByte.
  destruct (JS.ltb (inject_Z z) 0) eqn:E1.
  - apply ltb_lt in E1. change 0 with (inject_Z 0) in E1.
    rewrite <- Zlt_Qlt in E1.
    replace (Z.max 0 (Z.min 255 z)) with 0%Z by lia. reflexivity.
  - apply ltb_ge in E1. change 0 with (inject_Z 0) in E1.
    rewrite <- Zle_Qle in E1.
    destruct (JS.ltb 255 (inject_Z z)) eqn:E2.
    + apply ltb_lt in E2. change 255 with (inject_Z 255) in E2.
      rewrite <- Zlt_Qlt in E2.
      replace (Z.max 0 (Z.min 255 z)) with 255%Z by lia. reflexivity.
    + apply ltb_ge in E2. change 255 with (inject_Z 255) in E2.
      rewrite <- Zle_Qle in E2.
      replace (Z.max 0 (Z.min 255 z)) with z by lia. reflexivity.
Qed.

Lemma clampByte_range (z : Z) : (0 <= clampByte z <= 255)%Z.
Proof. unfold clampByte. lia. Qed.

Lemma ofRgb_clamp (r g b : Z) :
  Chroma.ofRgb (inject_Z r) (inject_Z g) (inject_Z b)
  = Chroma.mkColor (inject_Z (clampByte r)) (inject_Z (clampByte g))
                   (inject_Z (clampByte b)) 1.
Proof.
  unfold Chroma.ofRgb, Chroma.clip_rgb.
  cbn [Chroma.red Chroma.green Chroma.blue Chroma.alpha].
  rewrite !limit_clamp. reflexivity.
Qed.

Section RoundTrip.

Variable chromaOther : string -> option Chroma.Color.
Variable random : nat -> Q.
Variable base36 : Q -> string.

Lemma chroma_rgbToHex (r g b : Z) :
  exists c,
    chroma chromaOther (rgbToHex r g b) = Ok c
    /\ clipped c
    /\ Chroma.red c = inject_Z (clampByte r)
    /\ Chroma.green c = inject_Z (clampByte g)
    /\ Chroma.blue c = inject_Z (clampByte b).
Proof.
  unfold rgbToHex.
  destruct (chroma_hex chromaOther
              (Chroma.ofRgb (inject_Z r) (inject_Z g) (inject_Z b))
              (clip_rgb_clipped _))
    as (c & E & Cc & Er & Eg & Eb).
  exists c. split; [exact E|]. split; [exact Cc|].
  rewrite Er, Eg, Eb, ofRgb_clamp.
  cbn [Chroma.red Chroma.green Chroma.blue].
  rewrite !round_inject_Z. repeat split.
Qed.

Lemma hexToRgb_of_chroma (s : string) (c : Chroma.Color) :
  chroma chromaOther s = Ok c -> hexToRgb chromaOther s = Ok (rgbOf c).
Proof.
  intros H. unfold hexToRgb, rgbOf. rewrite H. cbn [rbind].
  destruct (Chroma.rgb c) as [[r0 g0] b0].
  rewrite !round_inject_Z. reflexivity.
Qed.

Lemma hexToRgb_rgbToHex_any (r g b : Z) :
  hexToRgb chromaOther (rgbToHex r g b)
  = Ok (mkRGB (clampByte r) (clampByte g) (clampByte b)).
Proof.
  destruct (chroma_rgbToHex r g b) as (c & E & _ & Er & Eg & Eb).
  rewrite (hexToRgb_of_chroma _ c E).
  unfold rgbOf, Chroma.rgb. rewrite Er, Eg, Eb, !round_inject_Z. reflexivity.
Qed.

(** [createColorInfo] with any id. *)
Lemma createColorInfo_any (r g b : Z) (id0 : option string) (n : nat) :
  exists nm,
    createColorInfo chromaOther random base36 r g b id0 n
    = Ok (mkColorInfo (rgbToHex r g b) (mkRGB r g b) (rgbToHsl r g b) nm
            (Some match id0 with
                  | Some (String c rest) => String c rest
                  | _ => "color_" ++ base36 (random n)
                  end),
          match id0 with
          | Some (String c rest) => n
          | _ => S n
          end).
Proof.
  unfold createColorInfo.
  destruct (chroma_rgbToHex r g b) as (c' & E & _).
  destruct (getColorName_ok chromaOther _ _ E) as (nm & Enm).
  exists nm. unfold bind, lift, generateColorId, Math_random, ret.
  rewrite Enm. destruct id0 as [[|ch rest]|]; reflexivity.
Qed.

End RoundTrip.

(** X11.  [hexToRgb] after [rgbToHex] clamps: for any three integers the
    round trip returns each channel limited to 0..255, because the chroma
    constructor clips its arguments before the string is printed. *)
Theorem hexToRgb_rgbToHex_clamps
    (chromaOther : string -> option Chroma.Color) (r0 g0 b0 : Z) :
  hexToRgb chromaOther (rgbToHex r0 g0 b0)
  = Ok (mkRGB (clampByte r0) (clampByte g0) (clampByte b0))
  /\ rgbToHex r0 g0 b0 = rgbToHex (clampByte r0) (clampByte g0) (clampByte b0).
Proof.
  split; [apply hexToRgb_rgbToHex_any|].
  unfold rgbToHex. rewrite !ofRgb_clamp.
  unfold clampByte at 4 5 6.
  f_equal. f_equal; f_equal; unfold clampByte; lia.
Qed.

(** X12.  [createColorInfo] never throws, whatever the integers and the
    id: the name is computed from a string that chroma has printed.  The
    [rgb] field keeps the arguments as they are while [hex] is clamped, so
    that the two agree exactly when the arguments are bytes; a non-empty id
    is kept and draws no random number, a missing or empty one is replaced
    by a generated id and draws one. *)
Theorem createColorInfo_total
    (chromaOther : string -> option Chroma.Color) (random : nat -> Q)
    (base36 : Q -> string) (r0 g0 b0 : Z) (id0 : option string) (n : nat) :
  exists colorInfo n',
    createColorInfo chromaOther random base36 r0 g0 b0 id0 n
    = Ok (colorInfo, n')
    /\ rgb colorInfo = mkRGB r0 g0 b0
    /\ hexToRgb chromaOther (hex colorInfo)
       = Ok (mkRGB (clampByte r0) (clampByte g0) (clampByte b0))
    /\ (hexToRgb chromaOther (hex colorInfo) = Ok (rgb colorInfo)
        <-> ((0 <= r0 <= 255)%Z /\ (0 <= g0 <= 255)%Z /\ (0 <= b0 <= 255)%Z))
    /\ match id0 with
       | Some (String c rest) => id colorInfo = id0 /\ n' = n
       | _ => id colorInfo = Some ("color_" ++ base36 (random n)) /\ n' = S n
       end.
Proof.
  destruct (createColorInfo_any chromaOther random base36 r0 g0 b0 id0 n)
    as (nm & E).
  eexists. eexists. split; [exact E|].
  cbn [rgb hex id].
  split; [reflexivity|].
  split; [apply hexToRgb_rgbToHex_any|].
  split.
  - rewrite hexToRgb_rgbToHex_any. split.
    + intros H. apply Ok_eq in H.
      assert (Hr : clampByte r0 = r0) by congruence.
      assert (Hg : clampByte g0 = g0) by congruence.
      assert (Hb : clampByte b0 = b0) by congruence.
      unfold clampByte in Hr, Hg, Hb. lia.
    + intros (Hr & Hg & Hb). unfold clampByte.
      f_equal. f_equal; lia.
  - destruct id0 as [[|c rest]|]; split; reflexivity.
Qed.

(* ------------------------------------------------------------------------- *)
(** ** Mixing stays between its inputs *)

Lemma roundSqrt_mono (u v : Q) :
  u <= v -> (Chroma.roundSqrt u <= Chroma.roundSqrt v)%Z.
Proof.
  intros H. unfold Chroma.roundSqrt.
  apply Z.div_le_mono; [lia|].
  apply Z.add_le_mono_r. apply Z.sqrt_le_mono.
  apply Qfloor_resp_le. lra.
Qed.

Lemma roundSqrt_square (n : Z) (v : Q) :
  (0 <= n)%Z -> v == inject_Z (n * n) -> Chroma.roundSqrt v = n.
Proof.
  intros Hn Hv. unfold Chroma.roundSqrt.
  assert (E : 4 * v == inject_Z ((2 * n) * (2 * n))).
  { rewrite Hv, !inject_Z_mult. change (inject_Z 2) with 2. ring. }
  rewrite E, Qfloor_Z, Z.sqrt_square by lia.
  symmetry. apply Z.div_unique with (r := 1%Z); lia.
Qed.

Lemma roundSqrt_nonneg (v : Q) : (0 <= Chroma.roundSqrt v)%Z.
Proof.
  unfold Chroma.roundSqrt.
  pose proof (Z.sqrt_nonneg (Qfloor (4 * v))).
  apply Z.div_pos; lia.
Qed.

Lemma square_le (x y : Q) : 0 <= x -> x <= y -> x * x <= y * y.
Proof. intros H0 H1. nra. Qed.

(** The weighted mean of two squares lies between the squares of the
    bounds. *)
Lemma mean_square_bounds (x1 x2 f lo hi : Q) :
  0 <= f <= 1 -> 0 <= lo -> lo <= x1 <= hi -> lo <= x2 <= hi ->
  lo * lo <= x1 * x1 * (1 - f) + x2 * x2 * f <= hi * hi.
Proof.
  intros Hf Hlo H1 H2.
  pose proof (square_le lo x1 Hlo (proj1 H1)) as A1.
  pose proof (square_le lo x2 Hlo (proj1 H2)) as A2.
  assert (P1 : 0 <= x1) by lra. assert (P2 : 0 <= x2) by lra.
  pose proof (square_le x1 hi P1 (proj2 H1)) as B1.
  pose proof (square_le x2 hi P2 (proj2 H2)) as B2.
  assert (F1 : 0 <= 1 - f) by lra.
  assert (F2 : 0 <= f) by lra.
  pose proof (Qmult_le_0_compat (x1 * x1 - lo * lo) (1 - f)
                                ltac:(lra) F1) as C1.
  pose proof (Qmult_le_0_compat (x2 * x2 - lo * lo) f ltac:(lra) F2) as C2.
  pose proof (Qmult_le_0_compat (hi * hi - x1 * x1) (1 - f)
                                ltac:(lra) F1) as D1.
  pose proof (Qmult_le_0_compat (hi * hi - x2 * x2) f ltac:(lra) F2) as D2.
  split; lra.
Qed.

(** One channel of a mix is an integer between the bounds of the two
    channels that are mixed. *)
Lemma lrgb_limit_within (x1 x2 f : Q) (lo hi : Z) :
  0 <= x1 <= 255 -> 0 <= x2 <= 255 -> 0 <= f <= 1 ->
  within lo hi x1 -> within lo hi x2 ->
  exists z,
    Chroma.limit (Chroma.lrgbChannel x1 x2 f) 0 255 = inject_Z z
    /\ (lo <= z <= hi)%Z /\ (0 <= z <= 255)%Z.
Proof.
  unfold within. intros B1 B2 Hf W1 W2.
  set (v := x1 * x1 * (1 - f) + x2 * x2 * f).
  exists (Chroma.roundSqrt v).
  assert (Hhi : (0 <= hi)%Z).
  { rewrite Zle_Qle. change (inject_Z 0) with 0. lra. }
  assert (U255 : (Chroma.roundSqrt v <= 255)%Z).
  { rewrite <- (roundSqrt_square 255 (inject_Z (255 * 255)))
      by (try lia; reflexivity).
    apply roundSqrt_mono. change (inject_Z (255 * 255)) with (255 * 255).
    apply (mean_square_bounds x1 x2 f 0 255); lra. }
  assert (Uhi : (Chroma.roundSqrt v <= hi)%Z).
  { rewrite <- (roundSqrt_square hi (inject_Z (hi * hi)))
      by (try lia; reflexivity).
    apply roundSqrt_mono. rewrite inject_Z_mult.
    apply (mean_square_bounds x1 x2 f 0 (inject_Z hi)); lra. }
  assert (Ulo : (lo <= Chroma.roundSqrt v)%Z).
  { destruct (Z_le_gt_dec lo 0) as [L|L].
    - pose proof (roundSqrt_nonneg v). lia.
    - assert (L' : 0 <= inject_Z lo).
      { change 0 with (inject_Z 0). apply inject_Z_le. lia. }
      rewrite <- (roundSqrt_square lo (inject_Z (lo * lo)))
        by (try lia; reflexivity).
      apply roundSqrt_mono. rewrite inject_Z_mult.
      apply (mean_square_bounds x1 x2 f (inject_Z lo) 255); lra. }
  pose proof (roundSqrt_nonneg v) as U0.
  split; [|lia].
  unfold Chroma.lrgbChannel. fold v. apply limit_byte. lia.
Qed.

Lemma weight_range (k : nat) : 0 <= 1 / inject_Z (Z.of_nat k) <= 1.
Proof.
  destruct k as [|k].
  - split; unfold Qle; simpl; lia.
  - assert (P : 1 <= inject_Z (Z.of_nat (S k))).
    { change 1 with (inject_Z 1). apply inject_Z_le. lia. }
    split.
    + apply Qle_shift_div_l; lra.
    + apply Qle_shift_div_r; lra.
Qed.

Section ChannelBounds.

(** One of the three channels: [Chroma.red], [Chroma.green] or
    [Chroma.blue]. *)
Variable ch : Chroma.Color -> Q.

Hypothesis ch_clipped : forall c, clipped c -> 0 <= ch c <= 255.

Hypothesis ch_mix :
  forall a b f,
    ch (Chroma.mix a b f)
    = Chroma.limit (Chroma.lrgbChannel (ch a) (ch b) f) 0 255.

Lemma mix_within (a b : Chroma.Color) (f : Q) (lo hi : Z) :
  clipped a -> clipped b -> 0 <= f <= 1 ->
  within lo hi (ch a) -> within lo hi (ch b) ->
  within lo hi (ch (Chroma.mix a b f)).
Proof.
  intros Ca Cb Hf Wa Wb.
  destruct (lrgb_limit_within (ch a) (ch b) f lo hi
              (ch_clipped a Ca) (ch_clipped b Cb) Hf Wa Wb)
    as (z & E & Rz & _).
  rewrite ch_mix, E. unfold within.
  split; apply inject_Z_le; lia.
Qed.

Lemma sequentialBlend_within (lo hi : Z) (rest : list Chroma.Color) :
  forall (acc : Chroma.Color) (k : nat),
    clipped acc -> within lo hi (ch acc) ->
    Forall (fun c => clipped c /\ within lo hi (ch c)) rest ->
    within lo hi (ch (sequentialBlend acc k rest)).
Proof.
  induction rest as [|c rest IH]; intros acc k Ca Wa HF.
  - exact Wa.
  - inversion HF as [|? ? [Cc Wc] HF']; subst.
    cbn [sequentialBlend]. apply IH.
    + apply mix_clipped.
    + apply mix_within; try assumption. apply weight_range.
    + exact HF'.
Qed.

End ChannelBounds.

Lemma red_clipped (c : Chroma.Color) : clipped c -> 0 <= Chroma.red c <= 255.
Proof. intros (H & _). exact H. Qed.

Lemma green_clipped (c : Chroma.Color) :
  clipped c -> 0 <= Chroma.green c <= 255.
Proof. intros (_ & H & _). exact H. Qed.

Lemma blue_clipped (c : Chroma.Color) : clipped c -> 0 <= Chroma.blue c <= 255.
Proof. intros (_ & _ & H & _). exact H. Qed.

Lemma round_within (lo hi : Z) (x : Q) :
  within lo hi x -> (lo <= JS.round x <= hi)%Z.
Proof. apply round_bounds. Qed.

Section MixResults.

Variable chromaOther : string -> option Chroma.Color.
Variable random : nat -> Q.
Variable base36 : Q -> string.

(** What [mixColors] returns for two colours that chroma accepts. *)
Lemma mixColors_result (c1 c2 : ColorInfo) (ca cb : Chroma.Color)
                       (ratio0 : Q) (n : nat) :
  chroma chromaOther (hex c1) = Ok ca ->
  chroma chromaOther (hex c2) = Ok cb ->
  exists m,
    mixColors chromaOther random base36 c1 c2 ratio0 n = Ok (m, S n)
    /\ rgb (info m) = rgbOf (Chroma.mix ca cb ratio0)
    /\ hex (info m) = rgbToHex (r (rgb (info m))) (g (rgb (info m)))
                               (b (rgb (info m)))
    /\ name (info m) = name c1 ++ " × " ++ name c2
    /\ id (info m) = Some ("color_" ++ base36 (random n))
    /\ parentColors m = [id c1; id c2]
    /\ ratio m = [1 - ratio0; ratio0].
Proof.
  intros Ha Hb.
  unfold mixColors, bind, lift.
  rewrite (chromaMix_ok chromaOther _ _ ca cb ratio0 Ha Hb).
  unfold rgbOf.
  destruct (Chroma.rgb (Chroma.mix ca cb ratio0)) as [[r0 g0] b0].
  rewrite !round_inject_Z.
  destruct (createColorInfo_ok chromaOther random base36 r0 g0 b0 n)
    as (nm & Ec).
  rewrite Ec. unfold ret.
  eexists. split; [reflexivity|].
  cbn [info rgb hex name id parentColors ratio withName r g b].
  repeat split.
Qed.

(** What [mixMultipleColors] returns for two colours or more that chroma
    accepts: the sequential blend of the parsed colours. *)
Lemma mixMultipleColors_rgb (colors : list ColorInfo)
                            (cols : list Chroma.Color) (n : nat) :
  (2 <= List.length colors)%nat ->
  map (fun c => chroma chromaOther (hex c)) colors = map Ok cols ->
  exists m col0 rest,
    cols = col0 :: rest
    /\ mixMultipleColors chromaOther random base36 colors n = Ok (m, S n)
    /\ rgb (info m) = rgbOf (sequentialBlend col0 2 rest).
Proof.
  intros Hlen Hparse.
  destruct colors as [|c0 [|c1 [|c2 rest]]]; simpl in Hlen; try lia.
  - destruct cols as [|col0 [|col1 [|? ?]]]; try discriminate.
    simpl in Hparse. injection Hparse as H0 H1.
    rewrite mixMultipleColors_two.
    destruct (mixColors_result c0 c1 col0 col1 (1 # 2) n H0 H1)
      as (m & Em & Ergb & _).
    exists m, col0, [col1]. split; [reflexivity|]. split; [exact Em|].
    exact Ergb.
  - destruct cols as [|col0 segCols]; [discriminate|].
    simpl map in Hparse. injection Hparse as H0 Hseg.
    destruct (mixLoop_sequentialBlend chromaOther (c1 :: c2 :: rest) segCols
                [c0] [] (hex c0) col0 col0 Hseg H0 (sameChannels_refl _))
      as (final & finalCol & Hloop & Hfinal & Hblend).
    rewrite app_nil_r in Hloop. cbn [List.length app] in Hloop, Hblend.
    unfold mixMultipleColors.
    cbn [List.length Nat.ltb Nat.leb Nat.sub].
    unfold bind, lift. rewrite Hloop, Hfinal.
    destruct (Chroma.rgb finalCol) as [[r0 g0] b0] eqn:Ergb.
    rewrite !round_inject_Z.
    destruct (createColorInfo_ok chromaOther random base36 r0 g0 b0 n)
      as (nm & Ec).
    rewrite Ec. unfold ret.
    eexists. exists col0, segCols.
    split; [reflexivity|]. split; [reflexivity|].
    unfold rgbOf. rewrite <- (sameChannels_rgb _ _ Hblend), Ergb.
    reflexivity.
Qed.

Lemma parsed_clipped (colors : list ColorInfo) :
  forall cols : list Chroma.Color,
    map (fun c => chroma chromaOther (hex c)) colors = map Ok cols ->
    Forall clipped cols.
Proof.
  induction colors as [|c colors IH]; intros [|col cols] H;
    try discriminate; constructor.
  - simpl in H. injection H as H _.
    exact (chroma_clipped chromaOther _ _ H).
  - simpl in H. injection H as _ H. exact (IH cols H).
Qed.

End MixResults.

Lemma Forall_clipped_within (ch : Chroma.Color -> Q) (lo hi : Z)
                            (cols : list Chroma.Color) :
  Forall clipped cols -> Forall (fun c => within lo hi (ch c)) cols ->
  Forall (fun c => clipped c /\ within lo hi (ch c)) cols.
Proof.
  intros H1 H2. rewrite Forall_forall in *. intros c Hc. split; auto.
Qed.

(** X13.  A channel of [mixColors] never leaves the range of the two
    channels it mixes: if the red channels of both colours lie between two
    integers, so does the red channel of the result, for any ratio in
    [0, 1]; the same holds for green and for blue.  In particular a colour
    with whole channels mixed with itself is returned unchanged. *)
Theorem mixColors_between_parents
    (chromaOther : string -> option Chroma.Color) (random : nat -> Q)
    (base36 : Q -> string) (c1 c2 : ColorInfo) (ca cb : Chroma.Color)
    (ratio0 : Q) (n : nat) :
  chroma chromaOther (hex c1) = Ok ca ->
  chroma chromaOther (hex c2) = Ok cb ->
  0 <= ratio0 <= 1 ->
  exists m,
    mixColors chromaOther random base36 c1 c2 ratio0 n = Ok (m, S n)
    /\ (forall lo hi,
           within lo hi (Chroma.red ca) -> within lo hi (Chroma.red cb) ->
           (lo <= r (rgb (info m)) <= hi)%Z)
    /\ (forall lo hi,
           within lo hi (Chroma.green ca) -> within lo hi (Chroma.green cb) ->
           (lo <= g (rgb (info m)) <= hi)%Z)
    /\ (forall lo hi,
           within lo hi (Chroma.blue ca) -> within lo hi (Chroma.blue cb) ->
           (lo <= b (rgb (info m)) <= hi)%Z).
Proof.
  intros Ha Hb Hf.
  pose proof (chroma_clipped chromaOther _ _ Ha) as Ca.
  pose proof (chroma_clipped chromaOther _ _ Hb) as Cb.
  destruct (mixColors_result chromaOther random base36 c1 c2 ca cb ratio0 n
                             Ha Hb) as (m & Em & Ergb & _).
  exists m. split; [exact Em|].
  rewrite Ergb. unfold rgbOf, Chroma.rgb. cbn [r g b].
  split; [|split]; intros lo hi Wa Wb; apply round_within.
  - apply (mix_within Chroma.red red_clipped (fun _ _ _ => eq_refl));
      assumption.
  - apply (mix_within Chroma.green green_clipped (fun _ _ _ => eq_refl));
      assumption.
  - apply (mix_within Chroma.blue blue_clipped (fun _ _ _ => eq_refl));
      assumption.
Qed.

Lemma mixColors_between_parents_witness :
  exists m,
    mixColors hexOnly (fun _ => 0) (fun _ => "x") redInfo redInfo (1 # 3) 0%nat
    = Ok (m, 1%nat)
    /\ (255 <= r (rgb (info m)) <= 255)%Z.
Proof.
  destruct (Chroma.hex2rgb "#ff0000") as [c|] eqn:E; [|discriminate].
  assert (Hc : chroma hexOnly (hex redInfo) = Ok c).
  { unfold chroma. cbn [hex redInfo]. rewrite E. reflexivity. }
  assert (Hf : 0 <= 1 # 3 <= 1) by lra.
  destruct (mixColors_between_parents hexOnly (fun _ => 0) (fun _ => "x")
              redInfo redInfo c c (1 # 3) 0%nat Hc Hc Hf)
    as (m & Em & Hr & _).
  exists m. split; [exact Em|].
  apply Some_eq in E. subst c.
  apply Hr; unfold within; split; vm_compute; intro H; discriminate H.
Defined.

(** X14.  A channel of [mixMultipleColors] never leaves the range of the
    channels of its inputs: if the red channels of all the colours lie
    between two integers, so does the red channel of the mixed colour, and
    likewise for green and blue.  Every step of the sequential blend keeps
    the bounds, and the weights 1/2, 1/3, ... lie in [0, 1]. *)
Theorem mixMultipleColors_between_parents
    (chromaOther : string -> option Chroma.Color) (random : nat -> Q)
    (base36 : Q -> string) (colors : list ColorInfo)
    (cols : list Chroma.Color) (n : nat) :
  (2 <= List.length colors)%nat ->
  map (fun c => chroma chromaOther (hex c)) colors = map Ok cols ->
  exists m,
    mixMultipleColors chromaOther random base36 colors n = Ok (m, S n)
    /\ (forall lo hi,
           Forall (fun c => within lo hi (Chroma.red c)) cols ->
           (lo <= r (rgb (info m)) <= hi)%Z)
    /\ (forall lo hi,
           Forall (fun c => within lo hi (Chroma.green c)) cols ->
           (lo <= g (rgb (info m)) <= hi)%Z)
    /\ (forall lo hi,
           Forall (fun c => within lo hi (Chroma.blue c)) cols ->
           (lo <= b (rgb (info m)) <= hi)%Z).
Proof.
  intros Hlen Hparse.
  pose proof (parsed_clipped chromaOther colors cols Hparse) as Cl.
  destruct (mixMultipleColors_rgb chromaOther random base36 colors cols n
                                  Hlen Hparse)
    as (m & col0 & rest & -> & Em & Ergb).
  exists m. split; [exact Em|].
  rewrite Ergb. unfold rgbOf, Chroma.rgb. cbn [r g b].
  inversion Cl as [|? ? C0 Crest]; subst.
  split; [|split]; intros lo hi W; apply round_within;
    inversion W as [|? ? W0 Wrest]; subst.
  - apply (sequentialBlend_within Chroma.red red_clipped
                                  (fun _ _ _ => eq_refl));
      try assumption.
    apply Forall_clipped_within; assumption.
  - apply (sequentialBlend_within Chroma.green green_clipped
                                  (fun _ _ _ => eq_refl));
      try assumption.
    apply Forall_clipped_within; assumption.
  - apply (sequentialBlend_within Chroma.blue blue_clipped
                                  (fun _ _ _ => eq_refl));
      try assumption.
    apply Forall_clipped_within; assumption.
Qed.

Lemma mixMultipleColors_between_parents_witness :
  exists m,
    mixMultipleColors hexOnly (fun _ => 0) (fun _ => "x")
                      [redInfo; whiteInfo; redInfo] 0%nat
    = Ok (m, 1%nat)
    /\ (255 <= r (rgb (info m)) <= 255)%Z.
Proof.
  destruct (mixMultipleColors_between_parents hexOnly (fun _ => 0)
              (fun _ => "x") [redInfo; whiteInfo; redInfo]
              [Chroma.mkColor 255 0 0 1; Chroma.mkColor 255 255 255 1;
               Chroma.mkColor 255 0 0 1]
              0%nat ltac:(simpl; lia) eq_refl)
    as (m & Em & Hr & _).
  exists m. split; [exact Em|].
  apply Hr.
  repeat constructor; vm_compute; intro H; discriminate H.
Defined.

(* ------------------------------------------------------------------------- *)
(** ** The end state of the animation *)

(** X15.  For three colours or more that chroma accepts, a frame of the
    animation whose adjusted progress is 1 (or more) carries the mixed
    colour: [frameColor], which goes through [getMixedColorAtProgress] for
    such a list, returns a colour string whose RGB channels are those of the
    colour that [mixMultipleColors] returns.  (For exactly two colours the
    animation blends the two directly and ends on the second colour, not on
    their mix.) *)
Theorem animation_ends_on_mixed_color
    (chromaOther : string -> option Chroma.Color) (random : nat -> Q)
    (base36 : Q -> string) (colors : list ColorInfo)
    (cols : list Chroma.Color) (progress0 : Q) (n : nat) :
  (3 <= List.length colors)%nat ->
  map (fun c => chroma chromaOther (hex c)) colors = map Ok cols ->
  1 <= progress0 ->
  exists final m,
    frameColor chromaOther colors progress0 = Ok final
    /\ getMixedColorAtProgress chromaOther colors progress0 = Ok final
    /\ mixMultipleColors chromaOther random base36 colors n = Ok (m, S n)
    /\ hexToRgb chromaOther final = Ok (rgb (info m)).
Proof.
  intros Hlen Hparse Hp.
  destruct (mixMultipleColors_rgb chromaOther random base36 colors cols n
                                  ltac:(lia) Hparse)
    as (m & col0 & segCols & -> & Em & Ergb).
  destruct colors as [|c0 rest]; [discriminate|].
  simpl map in Hparse. injection Hparse as H0 Hseg.
  destruct (mixLoop_sequentialBlend chromaOther rest segCols
              [c0] [] (hex c0) col0 col0 Hseg H0 (sameChannels_refl _))
    as (final & finalCol & Hloop & Hfinal & Hblend).
  rewrite app_nil_r in Hloop. cbn [List.length app] in Hloop, Hblend.
  assert (Eg : getMixedColorAtProgress chromaOther (c0 :: rest) progress0
               = Ok final).
  { unfold getMixedColorAtProgress.
    assert (E0 : JS.leb progress0 0 = false) by (apply leb_gt; lra).
    assert (E1 : JS.geb progress0 1 = true) by (apply leb_le; exact Hp).
    rewrite E0, E1. cbn [hexAt nth_error rbind List.length Nat.sub].
    rewrite Nat.sub_0_r. exact Hloop. }
  exists final, m. split; [|split; [exact Eg|split; [exact Em|]]].
  - unfold frameColor.
    assert (E2 : Nat.eqb (List.length (c0 :: rest)) 2 = false)
      by (apply Nat.eqb_neq; lia).
    rewrite E2. exact Eg.
  - rewrite (hexToRgb_of_chroma chromaOther final finalCol Hfinal), Ergb.
    unfold rgbOf. rewrite (sameChannels_rgb _ _ Hblend). reflexivity.
Qed.

Lemma animation_ends_on_mixed_color_witness :
  exists final m,
    frameColor hexOnly [blackInfo; whiteInfo; redInfo] 1 = Ok final
    /\ getMixedColorAtProgress hexOnly [blackInfo; whiteInfo; redInfo] 1
       = Ok final
    /\ mixMultipleColors hexOnly (fun _ => 0) (fun _ => "x")
                         [blackInfo; whiteInfo; redInfo] 0%nat
       = Ok (m, 1%nat)
    /\ hexToRgb hexOnly final = Ok (rgb (info m)).
Proof.
  apply (animation_ends_on_mixed_color hexOnly (fun _ => 0) (fun _ => "x")
           [blackInfo; whiteInfo; redInfo]
           [Chroma.mkColor 0 0 0 1; Chroma.mkColor 255 255 255 1;
            Chroma.mkColor 255 0 0 1]
           1 0%nat ltac:(simpl; lia) eq_refl).
  lra.
Defined.

(* ------------------------------------------------------------------------- *)
(** ** The result of the WCAG check *)

Section Compliance.

Variable chromaOther : string -> option Chroma.Color.
Variable contrast : Chroma.Color -> Chroma.Color -> JS.number.
Variable brighten : Chroma.Color -> Q -> Chroma.Color.
Variable darken : Chroma.Color -> Q -> Chroma.Color.

(** The version that a suggestion loop returns is the one it started from,
    or a colour whose contrast with the background is higher than the
    starting ratio. *)
Lemma suggestionLoop_improves (adjust : Chroma.Color -> Chroma.Color)
                              (background : string) (fuel : nat) :
  forall (version : string) (ratio0 : Q) (iterations : nat) (v : string),
    suggestionLoop chromaOther contrast adjust background fuel
                   version ratio0 iterations = Some v ->
    v = version
    \/ exists q,
         chromaContrast chromaOther contrast v background = Ok (JS.Num q)
         /\ ratio0 < q.
Proof.
  induction fuel as [|fuel IH]; intros version ratio0 iterations v.
  - cbn [suggestionLoop].
    destruct (JS.ltb ratio0 targetRatio && Nat.ltb iterations maxIterations);
      [discriminate|].
    intros H. apply Some_eq in H. left. symmetry. exact H.
  - cbn [suggestionLoop].
    destruct (JS.ltb ratio0 targetRatio && Nat.ltb iterations maxIterations);
      [|intros H; apply Some_eq in H; left; symmetry; exact H].
    destruct (chroma chromaOther version) as [c|e]; cbn [rbind];
      [|intros H; apply Some_eq in H; left; symmetry; exact H].
    destruct (chromaContrast chromaOther contrast (Chroma.hex (adjust c))
                             background) as [newRatio|e] eqn:Ec;
      cbn [rbind];
      [|intros H; apply Some_eq in H; left; symmetry; exact H].
    destruct (negb (JS.isFinite newRatio) || JS.isNaN newRatio
              || numLeb newRatio ratio0) eqn:Eb;
      [intros H; apply Some_eq in H; left; symmetry; exact H|].
    destruct newRatio as [q| | |];
      try (intros H; apply Some_eq in H; left; symmetry; exact H).
    cbn [JS.isFinite JS.isNaN negb orb numLeb] in Eb.
    apply leb_gt in Eb.
    destruct (JS.gtb q 21).
    + intros H. apply Some_eq in H. subst v. right. exists q.
      split; [exact Ec | exact Eb].
    + intros H. destruct (IH _ _ _ _ H) as [->|(q' & Eq' & Lt')].
      * right. exists q. split; [exact Ec | exact Eb].
      * right. exists q'. split; [exact Eq'|]. lra.
Qed.

(** A loop that starts at the target ratio or above returns at once. *)
Lemma suggestionLoop_compliant (adjust : Chroma.Color -> Chroma.Color)
    (background version : string) (ratio0 : Q) (iterations fuel : nat) :
  targetRatio <= ratio0 ->
  suggestionLoop chromaOther contrast adjust background fuel
                 version ratio0 iterations = Some version.
Proof.
  intros H.
  assert (E : JS.ltb ratio0 targetRatio = false) by (apply ltb_ge; exact H).
  destruct fuel; cbn [suggestionLoop]; rewrite E; reflexivity.
Qed.

(** The two shapes of the result of [checkWCAGCompliance]. *)
Lemma checkWCAGCompliance_cases (foreground background : string) :
  checkWCAGCompliance chromaOther contrast brighten darken 20
                      foreground background
  = Some (createEmptyWCAGResult foreground background)
  \/ exists q lv dv,
       chromaContrast chromaOther contrast foreground background
       = Ok (JS.Num q)
       /\ suggestionLoop chromaOther contrast (fun c => brighten c (3 # 10))
                         background 20 foreground (round2 q) 0 = Some lv
       /\ suggestionLoop chromaOther contrast (fun c => darken c (3 # 10))
                         background 20 foreground (round2 q) 0 = Some dv
       /\ checkWCAGCompliance chromaOther contrast brighten darken 20
                              foreground background
          = Some (mkWCAGResult foreground background (round2 q)
                    (mkLevel (JS.geb (round2 q) (45 # 10))
                             (JS.geb (round2 q) 3))
                    (mkLevel (JS.geb (round2 q) 7)
                             (JS.geb (round2 q) (45 # 10)))
                    (mkSuggestions lv dv)).
Proof.
  unfold checkWCAGCompliance.
  destruct (chroma chromaOther foreground); [|left; reflexivity].
  destruct (chroma chromaOther background); [|left; reflexivity].
  cbn [rbind].
  destruct (negb (valid chromaOther foreground)
            || negb (valid chromaOther background)); [left; reflexivity|].
  destruct (chromaContrast chromaOther contrast foreground background)
    as [ratio0|e]; [|left; reflexivity].
  cbn [rbind].
  destruct (negb (JS.isFinite ratio0) || JS.isNaN ratio0);
    [left; reflexivity|].
  destruct ratio0 as [q| | |]; try (left; reflexivity).
  right.
  destruct (suggestionLoop_terminates chromaOther contrast
              (fun c => brighten c (3 # 10)) background 20 foreground
              (round2 q) 0 ltac:(unfold maxIterations; lia)) as (lv & Hl).
  destruct (suggestionLoop_terminates chromaOther contrast
              (fun c => darken c (3 # 10)) background 20 foreground
              (round2 q) 0 ltac:(unfold maxIterations; lia)) as (dv & Hd).
  exists q, lv, dv. split; [reflexivity|]. split; [exact Hl|].
  split; [exact Hd|].
  unfold generateWCAGSuggestions. rewrite Hl, Hd. reflexivity.
Qed.

End Compliance.

(** X16.  The four conformance flags of [checkWCAGCompliance] always agree
    with the contrast ratio that the same result reports, the fallback
    result (ratio 1, all flags false) included: AA normal and AAA large mean
    a ratio of 4.5 or more, AA large 3 or more, AAA normal 7 or more.
    Hence AAA normal implies AA normal, which implies AA large. *)
Theorem checkWCAGCompliance_flags
    (chromaOther : string -> option Chroma.Color)
    (contrast : Chroma.Color -> Chroma.Color -> JS.number)
    (brighten darken : Chroma.Color -> Q -> Chroma.Color)
    (fg bg : string) :
  exists res,
    checkWCAGCompliance chromaOther contrast brighten darken 20 fg bg
    = Some res
    /\ foreground res = fg /\ background res = bg
    /\ normal (aaLevel res) = JS.geb (contrastRatio res) (45 # 10)
    /\ large (aaLevel res) = JS.geb (contrastRatio res) 3
    /\ normal (aaaLevel res) = JS.geb (contrastRatio res) 7
    /\ large (aaaLevel res) = JS.geb (contrastRatio res) (45 # 10)
    /\ (normal (aaaLevel res) = true -> normal (aaLevel res) = true)
    /\ (normal (aaLevel res) = true -> large (aaLevel res) = true).
Proof.
  destruct (checkWCAGCompliance_cases chromaOther contrast brighten darken
                                      fg bg)
    as [E|(q & lv & dv & _ & _ & _ & E)];
    rewrite E; eexists; (split; [reflexivity|]).
  - cbn. repeat split; discriminate.
  - cbn [foreground background aaLevel aaaLevel normal large contrastRatio].
    repeat split; unfold JS.geb; intros H; apply leb_le in H; apply leb_le;
      lra.
Qed.

Lemma round2_lower (x : Q) : x - (1 # 200) < round2 x.
Proof.
  unfold round2, JS.round.
  pose proof (Qlt_floor (x * 100 + (1 # 2))) as F.
  rewrite inject_Z_plus in F. change (inject_Z 1) with 1 in F.
  apply Qlt_shift_div_l; [reflexivity|]. lra.
Qed.

(** X17.  Each suggestion of [checkWCAGCompliance] is the foreground itself
    or a colour whose contrast with the background is strictly higher than
    the ratio that the result reports.  The reported ratio is rounded to two
    decimals and it is the rounded ratio that seeds the search, so that a
    suggestion may have a lower contrast than the pair itself, but by less
    than 0.005. *)
Theorem checkWCAGCompliance_suggestions_exceed_reported
    (chromaOther : string -> option Chroma.Color)
    (contrast : Chroma.Color -> Chroma.Color -> JS.number)
    (brighten darken : Chroma.Color -> Q -> Chroma.Color)
    (fg bg : string) (cf cb : Chroma.Color) (q0 : Q) :
  chroma chromaOther fg = Ok cf -> chroma chromaOther bg = Ok cb ->
  contrast cf cb = JS.Num q0 ->
  exists res,
    checkWCAGCompliance chromaOther contrast brighten darken 20 fg bg
    = Some res
    /\ contrastRatio res = round2 q0
    /\ (lightVersion (suggestions res) = fg
        \/ exists q,
             chromaContrast chromaOther contrast
                            (lightVersion (suggestions res)) bg
             = Ok (JS.Num q)
             /\ contrastRatio res < q /\ q0 - (1 # 200) < q)
    /\ (darkVersion (suggestions res) = fg
        \/ exists q,
             chromaContrast chromaOther contrast
                            (darkVersion (suggestions res)) bg
             = Ok (JS.Num q)
             /\ contrastRatio res < q /\ q0 - (1 # 200) < q).
Proof.
  intros Hf Hb Hq.
  destruct (suggestionLoop_terminates chromaOther contrast
              (fun c => brighten c (3 # 10)) bg 20 fg
              (round2 q0) 0 ltac:(unfold maxIterations; lia)) as (lv & Hl).
  destruct (suggestionLoop_terminates chromaOther contrast
              (fun c => darken c (3 # 10)) bg 20 fg
              (round2 q0) 0 ltac:(unfold maxIterations; lia)) as (dv & Hd).
  assert (Ec : chromaContrast chromaOther contrast fg bg = Ok (JS.Num q0)).
  { unfold chromaContrast. rewrite Hf, Hb. cbn [rbind]. rewrite Hq.
    reflexivity. }
  unfold checkWCAGCompliance, valid.
  rewrite Hf, Hb. cbn [rbind isOk negb orb]. rewrite Ec.
  cbn [rbind JS.isFinite JS.isNaN negb orb].
  unfold generateWCAGSuggestions. rewrite Hl, Hd. cbn [option_map].
  eexists. split; [reflexivity|].
  cbn [contrastRatio suggestions lightVersion darkVersion].
  split; [reflexivity|].
  pose proof (round2_lower q0) as Low.
  split.
  - destruct (suggestionLoop_improves chromaOther contrast _ _ _ _ _ _ _ Hl)
      as [E|(q & Eq & Lt)]; [left; exact E|].
    right. exists q. split; [exact Eq|]. split; [exact Lt | lra].
  - destruct (suggestionLoop_improves chromaOther contrast _ _ _ _ _ _ _ Hd)
      as [E|(q & Eq & Lt)]; [left; exact E|].
    right. exists q. split; [exact Eq|]. split; [exact Lt | lra].
Qed.

Lemma checkWCAGCompliance_suggestions_exceed_reported_witness :
  exists res,
    checkWCAGCompliance hexOnly (fun _ _ => JS.Num 2) (fun c _ => c)
                        (fun c _ => c) 20 "#777777" "#888888"
    = Some res
    /\ contrastRatio res = round2 2.
Proof.
  destruct (checkWCAGCompliance_suggestions_exceed_reported hexOnly
              (fun _ _ => JS.Num 2) (fun c _ => c) (fun c _ => c)
              "#777777" "#888888"
              (Chroma.mkColor 119 119 119 1) (Chroma.mkColor 136 136 136 1)
              2 eq_refl eq_refl eq_refl)
    as (res & E & Hr & _).
  exists res. split; [exact E | exact Hr].
Defined.

(** X18.  For a pair that already meets AA for normal text (a rounded
    ratio of 4.5 or more) [checkWCAGCompliance] searches nothing: both
    suggestions are the foreground, and no fuel is needed. *)
Theorem checkWCAGCompliance_compliant_unchanged
    (chromaOther : string -> option Chroma.Color)
    (contrast : Chroma.Color -> Chroma.Color -> JS.number)
    (brighten darken : Chroma.Color -> Q -> Chroma.Color)
    (fg bg : string) (cf cb : Chroma.Color) (q : Q) (fuel : nat) :
  chroma chromaOther fg = Ok cf -> chroma chromaOther bg = Ok cb ->
  contrast cf cb = JS.Num q ->
  45 # 10 <= round2 q ->
  exists res,
    checkWCAGCompliance chromaOther contrast brighten darken fuel fg bg
    = Some res
    /\ contrastRatio res = round2 q
    /\ normal (aaLevel res) = true
    /\ suggestions res = mkSuggestions fg fg.
Proof.
  intros Hf Hb Hq Hr.
  unfold checkWCAGCompliance, valid, chromaContrast.
  rewrite Hf, Hb. cbn [rbind isOk negb orb]. rewrite Hq.
  cbn [JS.isFinite JS.isNaN negb orb].
  unfold generateWCAGSuggestions.
  rewrite !suggestionLoop_compliant by exact Hr.
  cbn [option_map]. eexists. split; [reflexivity|].
  cbn [contrastRatio aaLevel normal suggestions].
  split; [reflexivity|]. split; [|reflexivity].
  apply leb_le. exact Hr.
Qed.

Lemma checkWCAGCompliance_compliant_unchanged_witness :
  exists res,
    checkWCAGCompliance hexOnly (fun _ _ => JS.Num 21) (fun c _ => c)
                        (fun c _ => c) 0 "#000000" "#ffffff"
    = Some res
    /\ contrastRatio res = round2 21
    /\ normal (aaLevel res) = true
    /\ suggestions res = mkSuggestions "#000000" "#000000".
Proof.
  apply (checkWCAGCompliance_compliant_unchanged hexOnly
           (fun _ _ => JS.Num 21) (fun c _ => c) (fun c _ => c)
           "#000000" "#ffffff"
           (Chroma.mkColor 0 0 0 1) (Chroma.mkColor 255 255 255 1)
           21 0%nat eq_refl eq_refl eq_refl).
  vm_compute. intro H. discriminate H.
Defined.

(* ------------------------------------------------------------------------- *)
(** ** Colour differences and palettes *)

(** X19.  The Euclidean fallback in the [catch] blocks of
    [calculateDeltaE2000] and [calculateDeltaE94] never produces a result:
    the only exception of the [try] block is chroma's rejection of a colour
    string, which the fallback meets again.  The results therefore do not
    depend on [Math.sqrt]. *)
Theorem deltaE_fallback_is_dead
    (chromaOther : string -> option Chroma.Color)
    (deltaE : Chroma.Color -> Chroma.Color -> JS.number)
    (sqrt1 sqrt2 : Q -> Q) (color1 color2 : string) :
  calculateDeltaE2000 chromaOther deltaE sqrt1 color1 color2
  = calculateDeltaE2000 chromaOther deltaE sqrt2 color1 color2
  /\ calculateDeltaE94 chromaOther deltaE sqrt1 color1 color2
     = calculateDeltaE94 chromaOther deltaE sqrt2 color1 color2
  /\ (valid chromaOther color1 && valid chromaOther color2 = false ->
      calculateDeltaE2000 chromaOther deltaE sqrt1 color1 color2 = 100
      /\ calculateDeltaE94 chromaOther deltaE sqrt1 color1 color2 = 100).
Proof.
  unfold calculateDeltaE2000, calculateDeltaE94, simpleDiff, chromaDeltaE,
    valid.
  destruct (chroma chromaOther color1) as [c1|e1];
    destruct (chroma chromaOther color2) as [c2|e2];
    cbn [rbind isOk negb orb andb].
  - destruct (deltaE c1 c2); cbn [JS.isFinite JS.isNaN negb orb];
      (split; [reflexivity|]; split; [reflexivity | discriminate]).
  - repeat split.
  - repeat split.
  - repeat split.
Qed.

Section PaletteChecks.

Variable chromaOther : string -> option Chroma.Color.
Variable contrast : Chroma.Color -> Chroma.Color -> JS.number.
Variable brighten : Chroma.Color -> Q -> Chroma.Color.
Variable darken : Chroma.Color -> Q -> Chroma.Color.

Lemma checkWCAGCompliance_total (fg bg : string) :
  exists res,
    checkWCAGCompliance chromaOther contrast brighten darken 20 fg bg
    = Some res
    /\ foreground res = fg /\ background res = bg.
Proof.
  destruct (checkWCAGCompliance_cases chromaOther contrast brighten darken
                                      fg bg)
    as [E|(q & lv & dv & _ & _ & _ & E)];
    rewrite E; eexists; repeat split.
Qed.

Lemma checkAgainst_total (c : ColorInfo) (later : list ColorInfo) :
  exists row,
    Advanced.checkAgainst chromaOther contrast brighten darken 20 c later
    = Some row
    /\ map foreground row = map (fun _ => hex c) later
    /\ map background row = map hex later.
Proof.
  induction later as [|d later (row & E & Hf & Hb)].
  - exists []. repeat split.
  - destruct (checkWCAGCompliance_total (hex c) (hex d))
      as (res & Er & Ef & Eb).
    exists (res :: row). cbn [Advanced.checkAgainst].
    rewrite Er, E. cbn [map]. rewrite Ef, Eb, Hf, Hb. repeat split.
Qed.

End PaletteChecks.

Lemma laterPairs_length (hexes : list string) :
  (2 * List.length (laterPairs hexes)
   = List.length hexes * (List.length hexes - 1))%nat.
Proof.
  induction hexes as [|x later IH]; [reflexivity|].
  cbn [laterPairs List.length]. rewrite length_app, length_map.
  rewrite Nat.sub_succ, Nat.sub_0_r.
  destruct later as [|y later']; [reflexivity|].
  cbn [List.length] in *. rewrite Nat.sub_succ, Nat.sub_0_r in IH. nia.
Qed.

(** X20.  [evaluatePaletteWCAG] checks every unordered pair of the palette
    exactly once and never fails: for n colours it returns n(n-1)/2
    results, whose foreground and background are the hex strings of the
    pairs (i, j) with i < j, in the order of the loops; a colour string that
    chroma rejects gives the fallback result instead of an exception. *)
Theorem evaluatePaletteWCAG_all_pairs
    (chromaOther : string -> option Chroma.Color)
    (contrast : Chroma.Color -> Chroma.Color -> JS.number)
    (brighten darken : Chroma.Color -> Q -> Chroma.Color)
    (colors : list ColorInfo) :
  exists results,
    Advanced.evaluatePaletteWCAG chromaOther contrast brighten darken 20 colors
    = Some results
    /\ map (fun res => (foreground res, background res)) results
       = laterPairs (map hex colors)
    /\ (2 * List.length results
        = List.length colors * (List.length colors - 1))%nat.
Proof.
  assert (H : exists results,
             Advanced.evaluatePaletteWCAG chromaOther contrast brighten darken
                                          20 colors
             = Some results
             /\ map (fun res => (foreground res, background res)) results
                = laterPairs (map hex colors)).
  { induction colors as [|c later (rest & E & Hp)].
    - exists []. split; reflexivity.
    - destruct (checkAgainst_total chromaOther contrast brighten darken
                                   c later) as (row & Er & Hf & Hb).
      exists (row ++ rest)%list. cbn [Advanced.evaluatePaletteWCAG].
      rewrite Er, E. split; [reflexivity|].
      cbn [map laterPairs]. rewrite map_app, Hp. f_equal.
      clear - Hf Hb. revert row Hf Hb.
      induction later as [|d later IH]; intros [|res row] Hf Hb;
        try discriminate; [reflexivity|].
      cbn [map] in *.
      injection Hf as Hf1 Hf2. injection Hb as Hb1 Hb2.
      rewrite Hf1, Hb1, (IH row Hf2 Hb2). reflexivity. }
  destruct H as (results & E & Hp).
  exists results. split; [exact E|]. split; [exact Hp|].
  rewrite <- (length_map hex colors), <- laterPairs_length, <- Hp.
  rewrite length_map. reflexivity.
Qed.

(* ------------------------------------------------------------------------- *)
(** ** Colour-vision simulation *)

Section Simulation.

Variable chromaOther : string -> option Chroma.Color.
Variable deltaE : Chroma.Color -> Chroma.Color -> JS.number.
Variable Math_sqrt : Q -> Q.
Variable luminance : Chroma.Color -> Q.
Variable numberToString : Q -> string.

Lemma simulateAll_ok (simulate : string -> result string) (suffix : string)
                     (colors : list ColorInfo) :
  (forall s c, chroma chromaOther s = Ok c -> exists s', simulate s = Ok s') ->
  Forall (fun c => valid chromaOther (hex c) = true) colors ->
  exists variant,
    Advanced.simulateAll simulate suffix colors = Ok variant
    /\ List.length variant = List.length colors
    /\ map rgb variant = map rgb colors
    /\ map id variant = map id colors.
Proof.
  intros Hs. induction 1 as [|c colors Hc _ (variant & E & Hl & Hr & Hi)].
  - exists []. repeat split.
  - unfold valid in Hc.
    destruct (chroma chromaOther (hex c)) as [col|e] eqn:Ec; [|discriminate].
    destruct (Hs _ _ Ec) as (s' & Es).
    cbn [Advanced.simulateAll]. rewrite Es, E. cbn [rbind].
    eexists. split; [reflexivity|].
    cbn [List.length map rgb id]. rewrite Hl, Hr, Hi. repeat split.
Qed.

Lemma simulateAll_throws (simulate : string -> result string)
                         (suffix : string) (colors : list ColorInfo) :
  (forall s e, chroma chromaOther s = Throw e -> simulate s = Throw e) ->
  (forall s e, simulate s = Throw e -> e = UnknownFormat) ->
  Exists (fun c => valid chromaOther (hex c) = false) colors ->
  Advanced.simulateAll simulate suffix colors = Throw UnknownFormat.
Proof.
  intros Hs He. induction 1 as [c colors Hc|c colors _ IH].
  - unfold valid in Hc.
    destruct (chroma chromaOther (hex c)) as [col|e] eqn:Ec; [discriminate|].
    cbn [Advanced.simulateAll]. rewrite (Hs _ _ Ec). cbn [rbind].
    rewrite (chroma_throws chromaOther _ _ Ec). reflexivity.
  - cbn [Advanced.simulateAll].
    destruct (simulate (hex c)) as [s'|e] eqn:Es; cbn [rbind].
    + rewrite IH. reflexivity.
    + rewrite (He _ _ Es). reflexivity.
Qed.

Lemma simulateProtanomaly_ok (s : string) (c : Chroma.Color) :
  chroma chromaOther s = Ok c ->
  exists s', Advanced.simulateProtanomaly chromaOther s = Ok s'.
Proof.
  intros H. unfold Advanced.simulateProtanomaly. rewrite H. cbn [rbind].
  destruct (Chroma.hsl c) as [[[h0|] s0] l0]; [|eexists; reflexivity].
  destruct (JS.geb h0 0 && JS.leb h0 60); eexists; reflexivity.
Qed.

Lemma simulateDeuteranomaly_ok (s : string) (c : Chroma.Color) :
  chroma chromaOther s = Ok c ->
  exists s', Advanced.simulateDeuteranomaly chromaOther s = Ok s'.
Proof.
  intros H. unfold Advanced.simulateDeuteranomaly. rewrite H. cbn [rbind].
  destruct (Chroma.hsl c) as [[[h0|] s0] l0]; [|eexists; reflexivity].
  destruct (JS.geb h0 60 && JS.leb h0 180); eexists; reflexivity.
Qed.

Lemma simulateTritanomaly_ok (s : string) (c : Chroma.Color) :
  chroma chromaOther s = Ok c ->
  exists s', Advanced.simulateTritanomaly chromaOther s = Ok s'.
Proof.
  intros H. unfold Advanced.simulateTritanomaly. rewrite H. cbn [rbind].
  destruct (Chroma.hsl c) as [[[h0|] s0] l0]; [|eexists; reflexivity].
  destruct (JS.geb h0 180 && JS.leb h0 300); eexists; reflexivity.
Qed.

Lemma simulateMonochromacy_ok (s : string) (c : Chroma.Color) :
  chroma chromaOther s = Ok c ->
  exists s', Advanced.simulateMonochromacy chromaOther luminance s = Ok s'.
Proof.
  intros H. unfold Advanced.simulateMonochromacy. rewrite H. cbn [rbind].
  eexists; reflexivity.
Qed.

Lemma simulate_throws :
  (forall s e, chroma chromaOther s = Throw e ->
               Advanced.simulateProtanomaly chromaOther s = Throw e)
  /\ (forall s e, Advanced.simulateProtanomaly chromaOther s = Throw e ->
                  e = UnknownFormat).
Proof.
  split.
  - intros s e H. unfold Advanced.simulateProtanomaly. rewrite H. reflexivity.
  - intros s e. unfold Advanced.simulateProtanomaly.
    destruct (chroma chromaOther s) as [c|e'] eqn:Ec; cbn [rbind].
    + destruct (Chroma.hsl c) as [[[h0|] s0] l0]; [|discriminate].
      destruct (JS.geb h0 0 && JS.leb h0 60); discriminate.
    + intros H. injection H as <-. exact (chroma_throws chromaOther _ _ Ec).
Qed.

(** The accessibility verdict, the issues and the recommendations go
    together. *)
Lemma accessibility_consistent (original0 : list ColorInfo)
                               (variants : list (list ColorInfo)) :
  let a := Advanced.evaluateColorBlindnessAccessibility
             chromaOther deltaE Math_sqrt numberToString original0 variants in
  (isAccessible a = true /\ issues a = [] /\ recommendations a = [])
  \/ (isAccessible a = false /\ issues a <> []
      /\ List.length (recommendations a) = 3%nat).
Proof.
  unfold Advanced.evaluateColorBlindnessAccessibility.
  cbn [isAccessible issues recommendations].
  destruct (Advanced.issuesOfVariants _ _ _ _ _ _) as [|i0 is0].
  - left. repeat split.
  - right. repeat split. discriminate.
Qed.

End Simulation.

(** X21.  [simulateColorBlindness] accepts every palette of colours that
    chroma accepts and returns four variants with as many colours as the
    palette, the colours keeping their [rgb] field and their id; it throws
    chroma's "unknown format" error as soon as one colour string is
    rejected; and the verdict on a result is consistent: accessible with no
    issue and no recommendation, or not accessible with at least one issue
    and exactly three recommendations. *)
Theorem simulateColorBlindness_shape
    (chromaOther : string -> option Chroma.Color)
    (deltaE : Chroma.Color -> Chroma.Color -> JS.number)
    (Math_sqrt : Q -> Q) (luminance : Chroma.Color -> Q)
    (numberToString : Q -> string) (colors : list ColorInfo) :
  (Forall (fun c => valid chromaOther (hex c) = true) colors ->
   exists res,
     Advanced.simulateColorBlindness chromaOther deltaE Math_sqrt luminance
                                     numberToString colors
     = Ok res
     /\ original res = colors
     /\ Forall (fun variant =>
                  List.length variant = List.length colors
                  /\ map rgb variant = map rgb colors
                  /\ map id variant = map id colors)
               [protanomaly res; deuteranomaly res; tritanomaly res;
                monochromacy res]
     /\ ((isAccessible (accessibility res) = true
          /\ issues (accessibility res) = []
          /\ recommendations (accessibility res) = [])
         \/ (isAccessible (accessibility res) = false
             /\ issues (accessibility res) <> []
             /\ List.length (recommendations (accessibility res)) = 3%nat)))
  /\ (Exists (fun c => valid chromaOther (hex c) = false) colors ->
      Advanced.simulateColorBlindness chromaOther deltaE Math_sqrt luminance
                                      numberToString colors
      = Throw UnknownFormat).
Proof.
  split.
  - intros Hv. unfold Advanced.simulateColorBlindness.
    destruct (simulateAll_ok chromaOther _ " (1型色覚)" colors
                (simulateProtanomaly_ok chromaOther) Hv)
      as (v1 & E1 & P1).
    destruct (simulateAll_ok chromaOther _ " (2型色覚)" colors
                (simulateDeuteranomaly_ok chromaOther) Hv)
      as (v2 & E2 & P2).
    destruct (simulateAll_ok chromaOther _ " (3型色覚)" colors
                (simulateTritanomaly_ok chromaOther) Hv)
      as (v3 & E3 & P3).
    destruct (simulateAll_ok chromaOther _ " (1色型)" colors
                (simulateMonochromacy_ok chromaOther luminance) Hv)
      as (v4 & E4 & P4).
    rewrite E1, E2, E3, E4. cbn [rbind].
    eexists. split; [reflexivity|].
    cbn [original protanomaly deuteranomaly tritanomaly monochromacy
         accessibility].
    split; [reflexivity|]. split.
    + repeat constructor; tauto.
    + apply accessibility_consistent.
  - intros Hx. unfold Advanced.simulateColorBlindness.
    destruct (simulate_throws chromaOther) as [T1 T2].
    rewrite (simulateAll_throws chromaOther _ " (1型色覚)" colors T1 T2 Hx).
    reflexivity.
Qed.

Lemma simulateColorBlindness_shape_witness :
  exists res,
    Advanced.simulateColorBlindness hexOnly (fun _ _ => JS.Num 50)
      (fun x => x) (fun _ => 1 # 2) (fun _ => "n") [redInfo; whiteInfo]
    = Ok res
    /\ original res = [redInfo; whiteInfo].
Proof.
  destruct (proj1 (simulateColorBlindness_shape hexOnly (fun _ _ => JS.Num 50)
                     (fun x => x) (fun _ => 1 # 2) (fun _ => "n")
                     [redInfo; whiteInfo]))
    as (res & E & Ho & _).
  - repeat constructor.
  - exists res. split; [exact E | exact Ho].
Defined.

Section Duplicates.

Variable chromaOther : string -> option Chroma.Color.
Variable deltaE : Chroma.Color -> Chroma.Color -> JS.number.
Variable Math_sqrt : Q -> Q.
Variable luminance : Chroma.Color -> Q.
Variable numberToString : Q -> string.

Hypothesis deltaE_same : forall x, deltaE x x = JS.Num 0.

Lemma calculateDeltaE2000_same (s : string) (c : Chroma.Color) :
  chroma chromaOther s = Ok c ->
  JS.ltb (calculateDeltaE2000 chromaOther deltaE Math_sqrt s s) 3 = true.
Proof.
  intros H. unfold calculateDeltaE2000, chromaDeltaE, valid.
  rewrite H. cbn [rbind isOk negb orb]. rewrite deltaE_same. reflexivity.
Qed.

Lemma issuesAgainst_duplicate (typeName : string) (i : nat) (ci cj : ColorInfo)
                              (col : Chroma.Color) (later : list ColorInfo) :
  chroma chromaOther (hex ci) = Ok col -> hex cj = hex ci -> In cj later ->
  forall j,
    Advanced.issuesAgainst chromaOther deltaE Math_sqrt numberToString
                           typeName i j ci later <> [].
Proof.
  intros Hc He. induction later as [|c later IH]; intros Hin j; [contradiction|].
  cbn [Advanced.issuesAgainst].
  destruct Hin as [->|Hin].
  - rewrite He, (calculateDeltaE2000_same _ _ Hc). discriminate.
  - intros H. apply app_eq_nil in H. destruct H as [_ H].
    exact (IH Hin _ H).
Qed.

Lemma issuesOf_duplicate (typeName : string) (ci cj : ColorInfo)
                         (col : Chroma.Color) (pre mid post : list ColorInfo) :
  chroma chromaOther (hex ci) = Ok col -> hex cj = hex ci ->
  forall i,
    Advanced.issuesOf chromaOther deltaE Math_sqrt numberToString typeName i
                      (pre ++ ci :: mid ++ cj :: post)%list <> [].
Proof.
  intros Hc He. induction pre as [|c pre IH]; intros i H.
  - cbn [app Advanced.issuesOf] in H. apply app_eq_nil in H.
    destruct H as [H _].
    refine (issuesAgainst_duplicate typeName i ci cj col _ Hc He _ _ H).
    apply in_or_app. right. left. reflexivity.
  - cbn [app Advanced.issuesOf] in H. apply app_eq_nil in H.
    destruct H as [_ H]. exact (IH _ H).
Qed.

Lemma simulateAll_app (simulate : string -> result string) (suffix : string)
                      (l1 l2 : list ColorInfo) :
  forall variant,
    Advanced.simulateAll simulate suffix (l1 ++ l2)%list = Ok variant ->
    exists v1 v2,
      variant = (v1 ++ v2)%list
      /\ Advanced.simulateAll simulate suffix l1 = Ok v1
      /\ Advanced.simulateAll simulate suffix l2 = Ok v2.
Proof.
  induction l1 as [|c l1 IH]; intros variant H.
  - exists [], variant. repeat split. exact H.
  - cbn [app Advanced.simulateAll] in *.
    destruct (simulate (hex c)) as [s'|e]; cbn [rbind] in *; [|discriminate].
    destruct (Advanced.simulateAll simulate suffix (l1 ++ l2)%list)
      as [rest|e] eqn:E; cbn [rbind] in *; [|discriminate].
    destruct (IH rest eq_refl) as (v1 & v2 & -> & E1 & E2).
    apply Ok_eq in H. subst variant.
    rewrite E1. cbn [rbind].
    eexists. exists v2. split; [|split; [reflexivity | exact E2]].
    reflexivity.
Qed.

Lemma simulateAll_cons (simulate : string -> result string) (suffix : string)
                       (c : ColorInfo) (l : list ColorInfo) :
  forall variant,
    Advanced.simulateAll simulate suffix (c :: l) = Ok variant ->
    exists c' v,
      variant = c' :: v
      /\ simulate (hex c) = Ok (hex c')
      /\ Advanced.simulateAll simulate suffix l = Ok v.
Proof.
  intros variant H. cbn [Advanced.simulateAll] in H.
  destruct (simulate (hex c)) as [s'|e]; cbn [rbind] in *; [|discriminate].
  destruct (Advanced.simulateAll simulate suffix l) as [rest|e];
    cbn [rbind] in *; [|discriminate].
  apply Ok_eq in H. subst variant.
  eexists. exists rest. repeat split.
Qed.

(** What [simulateProtanomaly] returns is again a colour string. *)
Lemma simulateProtanomaly_valid (s s' : string) :
  Advanced.simulateProtanomaly chromaOther s = Ok s' ->
  exists c, chroma chromaOther s' = Ok c.
Proof.
  unfold Advanced.simulateProtanomaly.
  destruct (chroma chromaOther s) as [c|e] eqn:Ec; cbn [rbind]; [|discriminate].
  assert (Same : Ok s = Ok s' -> exists c0, chroma chromaOther s' = Ok c0).
  { intros H. apply Ok_eq in H. subst s'. exists c. exact Ec. }
  destruct (Chroma.hsl c) as [[[h0|] s0] l0]; [|exact Same].
  destruct (JS.geb h0 0 && JS.leb h0 60); [|exact Same].
  intros H. apply Ok_eq in H. subst s'.
  destruct (chroma_hex chromaOther _
              (ofHsl_clipped (JS.rem (h0 + 30) 360) (s0 * (7 # 10)) l0))
    as (c' & E & _).
  exists c'. exact E.
Qed.

Lemma issuesOfVariants_first (variant : list ColorInfo)
                             (rest : list (list ColorInfo)) :
  (forall typeName i,
      Advanced.issuesOf chromaOther deltaE Math_sqrt numberToString typeName i
                        variant <> []) ->
  Advanced.issuesOfVariants chromaOther deltaE Math_sqrt numberToString 0
                            (variant :: rest) <> [].
Proof.
  intros H E. cbn [Advanced.issuesOfVariants] in E.
  apply app_eq_nil in E. destruct E as [E _]. exact (H _ _ E).
Qed.

End Duplicates.

(** X22.  A palette that contains the same colour string twice is never
    judged accessible by [simulateColorBlindness]: the two entries stay
    equal in the first simulated variant, their difference is 0 (chroma's
    deltaE of a colour with itself), which is below the threshold 3. *)
Theorem duplicate_colors_not_accessible
    (chromaOther : string -> option Chroma.Color)
    (deltaE : Chroma.Color -> Chroma.Color -> JS.number)
    (Math_sqrt : Q -> Q) (luminance : Chroma.Color -> Q)
    (numberToString : Q -> string)
    (pre mid post : list ColorInfo) (ci cj : ColorInfo)
    (res : ColorBlindnessResult) :
  (forall x, deltaE x x = JS.Num 0) ->
  hex cj = hex ci ->
  Advanced.simulateColorBlindness chromaOther deltaE Math_sqrt luminance
    numberToString (pre ++ ci :: mid ++ cj :: post)%list
  = Ok res ->
  isAccessible (accessibility res) = false
  /\ List.length (recommendations (accessibility res)) = 3%nat.
Proof.
  intros Hd He Hrun.
  unfold Advanced.simulateColorBlindness in Hrun.
  destruct (Advanced.simulateAll (Advanced.simulateProtanomaly chromaOther) _ _)
    as [v1|e] eqn:E1; cbn [rbind] in Hrun; [|discriminate].
  destruct (Advanced.simulateAll (Advanced.simulateDeuteranomaly chromaOther)
                                 _ _)
    as [v2|e]; cbn [rbind] in Hrun; [|discriminate].
  destruct (Advanced.simulateAll (Advanced.simulateTritanomaly chromaOther) _ _)
    as [v3|e]; cbn [rbind] in Hrun; [|discriminate].
  destruct (Advanced.simulateAll
              (Advanced.simulateMonochromacy chromaOther luminance) _ _)
    as [v4|e]; cbn [rbind] in Hrun; [|discriminate].
  apply Ok_eq in Hrun. subst res. cbn [accessibility].
  destruct (simulateAll_app _ _ _ _ _ E1) as (pre' & t1 & -> & _ & T1).
  destruct (simulateAll_cons _ _ _ _ _ T1) as (ci' & t2 & -> & Si & T2).
  destruct (simulateAll_app _ _ _ _ _ T2) as (mid' & t3 & -> & _ & T3).
  destruct (simulateAll_cons _ _ _ _ _ T3) as (cj' & post' & -> & Sj & _).
  rewrite He, Si in Sj. apply Ok_eq in Sj.
  destruct (simulateProtanomaly_valid chromaOther _ _ Si) as (col & Hc).
  pose proof (issuesOfVariants_first chromaOther deltaE Math_sqrt
                numberToString _ [v2; v3; v4]
                (fun tn i =>
                   issuesOf_duplicate chromaOther deltaE Math_sqrt
                     numberToString Hd tn ci' cj' col pre' mid' post'
                     Hc (eq_sym Sj) i)) as N.
  unfold Advanced.evaluateColorBlindnessAccessibility.
  cbn [isAccessible recommendations].
  destruct (Advanced.issuesOfVariants _ _ _ _ _ _) as [|i0 is0];
    [contradiction|].
  split; reflexivity.
Qed.

Lemma duplicate_colors_not_accessible_witness :
  exists res,
    Advanced.simulateColorBlindness hexOnly (fun _ _ => JS.Num 0)
      (fun x => x) (fun _ => 1 # 2) (fun _ => "n") [redInfo; redInfo]
    = Ok res
    /\ isAccessible (accessibility res) = false
    /\ List.length (recommendations (accessibility res)) = 3%nat.
Proof.
  destruct (Advanced.simulateColorBlindness hexOnly (fun _ _ => JS.Num 0)
              (fun x => x) (fun _ => 1 # 2) (fun _ => "n") [redInfo; redInfo])
    as [res|e] eqn:E.
  - exists res. split; [reflexivity|].
    apply (duplicate_colors_not_accessible hexOnly (fun _ _ => JS.Num 0)
             (fun x => x) (fun _ => 1 # 2) (fun _ => "n")
             [] [] [] redInfo redInfo res);
      [intros x; reflexivity | reflexivity | exact E].
  - exfalso. vm_compute in E. discriminate E.
Defined.

(* ------------------------------------------------------------------------- *)
(** ** The mixer components *)

Lemma hexValue_inv (c : ascii) (v : Z) :
  JS.hexValue c = Some v -> In (c, v) hexTable.
Proof.
  intros H.
  destruct c as [[] [] [] [] [] [] [] []];
    try (exfalso; vm_compute in H; discriminate H);
    vm_compute in H; apply Some_eq in H; subst v;
    unfold hexTable; cbn [In]; tauto.
Qed.

Lemma parseInt_hex2 (d1 d2 : ascii) (v1 v2 : Z) :
  JS.hexValue d1 = Some v1 -> JS.hexValue d2 = Some v2 ->
  ElementaryMixer.parseInt (String d1 (String d2 "")) = Some (v1 * 16 + v2)%Z.
Proof.
  intros H1 H2.
  apply hexValue_inv in H1, H2.
  assert (T : parseIntReadsPairs = true) by (vm_compute; reflexivity).
  unfold parseIntReadsPairs in T.
  rewrite forallb_forall in T. specialize (T _ H1). cbv beta iota in T.
  rewrite forallb_forall in T. specialize (T _ H2). cbv beta iota in T.
  destruct (ElementaryMixer.parseInt (String d1 (String d2 ""))) as [z|];
    [|discriminate].
  apply Z.eqb_eq in T. subst z. reflexivity.
Qed.

Lemma hexValue_range (c : ascii) (v : Z) :
  JS.hexValue c = Some v -> (0 <= v < 16)%Z.
Proof.
  intros H. apply hexValue_inv in H. unfold hexTable in H. cbn [In] in H.
  repeat (destruct H as [H|H]; [injection H as _ <-; lia|]).
  contradiction.
Qed.

Lemma isHexDigit_value (c : ascii) :
  JS.isHexDigit c = true -> exists v, JS.hexValue c = Some v.
Proof.
  unfold JS.isHexDigit. destruct (JS.hexValue c) as [v|]; [|discriminate].
  intros _. exists v. reflexivity.
Qed.

(** [rgbToHex] prints a number sign and six hexadecimal digits, which read
    back as the three bytes. *)
Lemma rgbToHex_digits (r0 g0 b0 : Z) :
  (0 <= r0 <= 255)%Z -> (0 <= g0 <= 255)%Z -> (0 <= b0 <= 255)%Z ->
  exists d1 d2 d3 d4 d5 d6 v1 v2 v3 v4 v5 v6,
    rgbToHex r0 g0 b0
    = String "#"
        (String d1 (String d2 (String d3 (String d4 (String d5
           (String d6 ""))))))
    /\ JS.hexValue d1 = Some v1 /\ JS.hexValue d2 = Some v2
    /\ JS.hexValue d3 = Some v3 /\ JS.hexValue d4 = Some v4
    /\ JS.hexValue d5 = Some v5 /\ JS.hexValue d6 = Some v6
    /\ (v1 * 16 + v2 = r0)%Z /\ (v3 * 16 + v4 = g0)%Z
    /\ (v5 * 16 + v6 = b0)%Z.
Proof.
  intros Hr Hg Hb. unfold rgbToHex.
  rewrite (ofRgb_bytes r0 g0 b0 Hr Hg Hb).
  set (c := Chroma.mkColor (inject_Z r0) (inject_Z g0) (inject_Z b0) 1).
  assert (Cc : clipped c).
  { unfold c. rewrite <- (ofRgb_bytes r0 g0 b0 Hr Hg Hb).
    apply clip_rgb_clipped. }
  rewrite (hex_shape c Cc).
  change (JS.ltb (Chroma.alpha c) 1) with false. cbv iota.
  assert (Ep : packed c = (r0 * 65536 + g0 * 256 + b0)%Z).
  { unfold packed, c. cbn [Chroma.red Chroma.green Chroma.blue].
    rewrite !round_inject_Z. reflexivity. }
  rewrite Ep.
  destruct (padded_hex6 (r0 * 65536 + g0 * 256 + b0) ltac:(lia))
    as (Hlen & Hdig & Hval).
  destruct (Chroma.lastChars 6 _)
    as [|d1 [|d2 [|d3 [|d4 [|d5 [|d6 [|d7 rest]]]]]]];
    try discriminate Hlen.
  cbn [Chroma.allHexDigits] in Hdig.
  repeat match goal with
         | H : _ && _ = true |- _ => apply andb_true_iff in H; destruct H
         end.
  repeat match goal with
         | H : JS.isHexDigit _ = true |- _ =>
             apply isHexDigit_value in H; destruct H
         end.
  repeat match goal with
         | H : JS.hexValue _ = Some _ |- _ =>
             pose proof (hexValue_range _ _ H); revert H
         end.
  intros E6 E5 E4 E3 E2 E1.
  unfold JS.parseInt16 in Hval. cbn [JS.parseDigits16] in Hval.
  rewrite E1, E2, E3, E4, E5, E6 in Hval.
  do 12 eexists.
  split; [reflexivity|].
  repeat (split; [eassumption|]).
  lia.
Qed.

(** X23.  The text colour chosen for a colour that [rgbToHex] has printed
    depends on the weighted sum of its bytes only: white text when
    299 r + 587 g + 114 b <= 128000, black text otherwise.  The three
    [parseInt] calls of [getContrastTextColor] read back the bytes that
    [rgbToHex] has printed. *)
Theorem getContrastTextColor_of_rgbToHex (r0 g0 b0 : Z) :
  (0 <= r0 <= 255)%Z -> (0 <= g0 <= 255)%Z -> (0 <= b0 <= 255)%Z ->
  ElementaryMixer.getContrastTextColor (rgbToHex r0 g0 b0)
  = if (299 * r0 + 587 * g0 + 114 * b0 <=? 128000)%Z
    then "#ffffff" else "#000000".
Proof.
  intros Hr Hg Hb.
  destruct (rgbToHex_digits r0 g0 b0 Hr Hg Hb)
    as (d1 & d2 & d3 & d4 & d5 & d6 & v1 & v2 & v3 & v4 & v5 & v6
        & -> & E1 & E2 & E3 & E4 & E5 & E6 & <- & <- & <-).
  unfold ElementaryMixer.getContrastTextColor, ElementaryMixer.slice.
  cbn [Nat.sub String.substring].
  rewrite (parseInt_hex2 _ _ _ _ E1 E2), (parseInt_hex2 _ _ _ _ E3 E4),
    (parseInt_hex2 _ _ _ _ E5 E6).
  set (R := (v1 * 16 + v2)%Z). set (G := (v3 * 16 + v4)%Z).
  set (B := (v5 * 16 + v6)%Z).
  assert (E : inject_Z R * 299 + inject_Z G * 587 + inject_Z B * 114
              == inject_Z (299 * R + 587 * G + 114 * B)).
  { rewrite !inject_Z_plus, !inject_Z_mult.
    change (inject_Z 299) with 299. change (inject_Z 587) with 587.
    change (inject_Z 114) with 114. ring. }
  destruct (Z.leb_spec (299 * R + 587 * G + 114 * B) 128000) as [L|L].
  - rewrite (proj2 (leb_le _ _)); [reflexivity|].
    apply Qle_shift_div_r; [reflexivity|]. rewrite E.
    change (128 * 1000) with (inject_Z 128000). rewrite <- Zle_Qle. exact L.
  - rewrite (proj2 (leb_gt _ _)); [reflexivity|].
    apply Qlt_shift_div_l; [reflexivity|]. rewrite E.
    change (128 * 1000) with (inject_Z 128000). rewrite <- Zlt_Qlt. exact L.
Qed.

Lemma getContrastTextColor_of_rgbToHex_witness :
  ElementaryMixer.getContrastTextColor (rgbToHex 128 128 128) = "#ffffff".
Proof.
  apply (getContrastTextColor_of_rgbToHex 128 128 128); lia.
Defined.

Lemma existsb_hex_false (colors : list ColorInfo) (color : ColorInfo) :
  existsb (fun c => String.eqb (hex c) (hex color)) colors = false ->
  ~ In (hex color) (map hex colors).
Proof.
  induction colors as [|c colors IH]; intros H Hin; [contradiction|].
  cbn [existsb] in H. apply orb_false_iff in H. destruct H as [H1 H2].
  destruct Hin as [Hin|Hin].
  - apply String.eqb_neq in H1. contradiction.
  - exact (IH H2 Hin).
Qed.

Lemma NoDup_map_snoc (colors : list ColorInfo) (color : ColorInfo) :
  NoDup (map hex colors) -> ~ In (hex color) (map hex colors) ->
  NoDup (map hex (colors ++ [color])).
Proof.
  intros Hn Hin. rewrite map_app. cbn [map].
  induction (map hex colors) as [|x xs IH].
  - constructor; [intros []|constructor].
  - cbn [app]. inversion Hn as [|? ? Hx Hxs]; subst. constructor.
    + intros H. apply in_app_or in H. destruct H as [H|[H|[]]].
      * contradiction.
      * subst x. apply Hin. left. reflexivity.
    + apply IH; [exact Hxs|]. intros H. apply Hin. right. exact H.
Qed.

Lemma NoDup_map_filter (f : ColorInfo -> bool) (colors : list ColorInfo) :
  NoDup (map hex colors) -> NoDup (map hex (filter f colors)).
Proof.
  induction colors as [|c colors IH]; intros Hn; [constructor|].
  cbn [map] in Hn. inversion Hn as [|? ? Hx Hxs]; subst.
  cbn [filter]. destruct (f c).
  - cbn [map]. constructor; [|exact (IH Hxs)].
    intros H. apply Hx. apply in_map_iff in H.
    destruct H as (c' & E & Hin). apply filter_In in Hin.
    apply in_map_iff. exists c'. tauto.
  - exact (IH Hxs).
Qed.

Lemma filter_length_le (f : ColorInfo -> bool) (colors : list ColorInfo) :
  (List.length (filter f colors) <= List.length colors)%nat.
Proof.
  induction colors as [|c colors IH]; [reflexivity|].
  cbn [filter]. destruct (f c); cbn [List.length]; lia.
Qed.

Lemma handle_invariant (colors : list ColorInfo)
                       (e : MiddleSchoolMixer.Event) :
  NoDup (map hex colors) /\ (List.length colors <= 3)%nat ->
  NoDup (map hex (MiddleSchoolMixer.handle colors e))
  /\ (List.length (MiddleSchoolMixer.handle colors e) <= 3)%nat.
Proof.
  intros [Hn Hl]. destruct e as [color|color|]; cbn [MiddleSchoolMixer.handle].
  - unfold MiddleSchoolMixer.handleColorMix.
    destruct (existsb _ colors) eqn:Ed; cbn [orb]; [split; assumption|].
    destruct (Nat.leb 3 (List.length colors)) eqn:E3; [split; assumption|].
    apply Nat.leb_gt in E3. split.
    + apply NoDup_map_snoc; [exact Hn|]. exact (existsb_hex_false _ _ Ed).
    + rewrite length_app. cbn [List.length]. lia.
  - unfold MiddleSchoolMixer.handleRemoveMixingColor. split.
    + apply NoDup_map_filter. exact Hn.
    + pose proof (filter_length_le
                    (fun c => negb (String.eqb (hex c) (hex color))) colors).
      lia.
  - unfold MiddleSchoolMixer.handleClearMixer. split; [constructor|].
    cbn [List.length]. lia.
Qed.

(** X24.  Whatever the user does, a mixer of MiddleSchoolColorMixer never
    holds two colours with the same hex string nor more than three colours:
    the invariant holds for the empty mixer and every handler
    ([handleColorMix], [handleRemoveMixingColor], [handleClearMixer])
    keeps it.  The handler of ElementaryColorMixer, which has no limit of
    three, keeps the hex strings distinct as well. *)
Theorem mixer_colors_distinct (events : list MiddleSchoolMixer.Event) :
  (NoDup (map hex (mixerAfter events))
   /\ (List.length (mixerAfter events) <= 3)%nat)
  /\ (forall colors color,
         NoDup (map hex colors) ->
         NoDup (map hex (ElementaryMixer.handleColorMix colors color))).
Proof.
  split.
  - unfold mixerAfter.
    assert (G : forall start,
               NoDup (map hex start) /\ (List.length start <= 3)%nat ->
               NoDup (map hex (fold_left MiddleSchoolMixer.handle events start))
               /\ (List.length (fold_left MiddleSchoolMixer.handle events start)
                   <= 3)%nat).
    { induction events as [|e events IH]; intros start Hs; [exact Hs|].
      cbn [fold_left]. apply IH. apply handle_invariant. exact Hs. }
    apply G. split; [constructor | cbn [List.length]; lia].
  - intros colors color Hn. unfold ElementaryMixer.handleColorMix.
    destruct (existsb _ colors) eqn:Ed; [exact Hn|].
    apply NoDup_map_snoc; [exact Hn|]. exact (existsb_hex_false _ _ Ed).
Qed.

(* ------------------------------------------------------------------------- *)
(** ** Wheel position, random colours and jitter *)

Lemma rgb2hsl_ext (a b : Chroma.Color) :
  sameChannels a b -> Chroma.rgb2hsl a = Chroma.rgb2hsl b.
Proof.
  intros (Hr & Hg & Hb). unfold Chroma.rgb2hsl. rewrite Hr, Hg, Hb.
  reflexivity.
Qed.

(** X25.  The wheel position of a colour made by [createColorInfo] from
    three bytes repeats its [hsl] field: [calculateWheelPosition] parses the
    hex string back and finds, as angle and radius, the hue and the
    saturation that [rgbToHsl] has rounded. *)
Theorem wheel_position_matches_hsl
    (chromaOther : string -> option Chroma.Color) (color : ColorInfo)
    (r0 g0 b0 : Z) :
  (0 <= r0 <= 255)%Z -> (0 <= g0 <= 255)%Z -> (0 <= b0 <= 255)%Z ->
  hex color = rgbToHex r0 g0 b0 ->
  Educational.calculateWheelPosition chromaOther color
  = Ok (Educational.mkWheelPosition (h (rgbToHsl r0 g0 b0))
                                    (s (rgbToHsl r0 g0 b0))).
Proof.
  intros Hr Hg Hb Hx.
  unfold Educational.calculateWheelPosition. rewrite Hx.
  destruct (chroma_rgbToHex chromaOther r0 g0 b0)
    as (c & E & _ & Er & Eg & Eb).
  rewrite E. cbn [rbind].
  assert (S : sameChannels c (Chroma.ofRgb (inject_Z r0) (inject_Z g0)
                                           (inject_Z b0))).
  { rewrite (ofRgb_bytes r0 g0 b0 Hr Hg Hb). unfold sameChannels.
    cbn [Chroma.red Chroma.green Chroma.blue]. rewrite Er, Eg, Eb.
    unfold clampByte.
    repeat split; f_equal; lia. }
  unfold rgbToHsl, Chroma.hsl. rewrite (rgb2hsl_ext _ _ S).
  destruct (Chroma.rgb2hsl _) as [[h0 s0] l0]. cbn [h s].
  f_equal. f_equal. apply round_comp.
  rewrite (orElse_zero_eq s0). reflexivity.
Qed.

Lemma wheel_position_matches_hsl_witness :
  Educational.calculateWheelPosition hexOnly redInfo
  = Ok (Educational.mkWheelPosition 0 100).
Proof.
  apply (wheel_position_matches_hsl hexOnly redInfo 255 0 0);
    [lia | lia | lia | reflexivity].
Defined.

Lemma floor_byte (x : Q) :
  0 <= x < 1 -> (0 <= JS.floor (x * 256) <= 255)%Z.
Proof.
  intros [H0 H1]. unfold JS.floor.
  pose proof (Qfloor_le (x * 256)) as F1.
  pose proof (Qlt_floor (x * 256)) as F2.
  rewrite inject_Z_plus in F2. change (inject_Z 1) with 1 in F2.
  split.
  - assert (L : (-1 < Qfloor (x * 256))%Z); [|lia].
    rewrite Zlt_Qlt. change (inject_Z (-1)) with (-1). lra.
  - assert (L : (Qfloor (x * 256) < 256)%Z); [|lia].
    rewrite Zlt_Qlt. change (inject_Z 256) with 256. lra.
Qed.

(** X26.  [generateRandomColor] draws four random numbers (three channels
    and the id) and, the random numbers lying in [0, 1), returns a colour
    whose channels are bytes, namely floor(256 x) for the first three draws,
    and whose hex string reads back as these bytes. *)
Theorem generateRandomColor_bytes
    (chromaOther : string -> option Chroma.Color) (random : nat -> Q)
    (base36 : Q -> string) (n : nat) :
  (forall k, 0 <= random k < 1) ->
  exists colorInfo,
    generateRandomColor chromaOther random base36 n
    = Ok (colorInfo, (n + 4)%nat)
    /\ rgb colorInfo
       = mkRGB (JS.floor (random n * 256))
               (JS.floor (random (S n) * 256))
               (JS.floor (random (S (S n)) * 256))
    /\ (0 <= r (rgb colorInfo) <= 255)%Z
    /\ (0 <= g (rgb colorInfo) <= 255)%Z
    /\ (0 <= b (rgb colorInfo) <= 255)%Z
    /\ hexToRgb chromaOther (hex colorInfo) = Ok (rgb colorInfo)
    /\ id colorInfo = Some ("color_" ++ base36 (random (S (S (S n))))).
Proof.
  intros Hrand.
  unfold generateRandomColor, bind, Math_random.
  destruct (createColorInfo_any chromaOther random base36
              (JS.floor (random n * 256)) (JS.floor (random (S n) * 256))
              (JS.floor (random (S (S n)) * 256)) None (S (S (S n))))
    as (nm & E).
  rewrite E. eexists.
  split; [replace (n + 4)%nat with (S (S (S (S n)))) by lia; reflexivity|].
  cbn [rgb hex id r g b].
  pose proof (floor_byte _ (Hrand n)) as B1.
  pose proof (floor_byte _ (Hrand (S n))) as B2.
  pose proof (floor_byte _ (Hrand (S (S n)))) as B3.
  split; [reflexivity|]. split; [exact B1|]. split; [exact B2|].
  split; [exact B3|]. split; [|reflexivity].
  rewrite hexToRgb_rgbToHex_any. unfold clampByte.
  f_equal. f_equal; lia.
Qed.

Lemma generateRandomColor_bytes_witness :
  exists colorInfo,
    generateRandomColor hexOnly (fun _ => 1 # 4) (fun _ => "x") 0%nat
    = Ok (colorInfo, 4%nat)
    /\ rgb colorInfo = mkRGB 64 64 64.
Proof.
  destruct (generateRandomColor_bytes hexOnly (fun _ => 1 # 4) (fun _ => "x")
              0%nat) as (colorInfo & E & Hrgb & _).
  - intros k. lra.
  - exists colorInfo. split; [exact E | exact Hrgb].
Defined.

(** X27.  [addColorJitter] never throws on a colour that chroma accepts,
    achromatic colours included (their NaN hue is replaced by 0): it draws
    exactly three random numbers and returns a string that chroma accepts
    again. *)
Theorem addColorJitter_total
    (chromaOther : string -> option Chroma.Color) (random : nat -> Q)
    (hex0 : string) (c : Chroma.Color) (intensity : Q) (n : nat) :
  chroma chromaOther hex0 = Ok c ->
  exists jittered c',
    addColorJitter chromaOther random hex0 intensity n
    = Ok (jittered, (n + 3)%nat)
    /\ chroma chromaOther jittered = Ok c'.
Proof.
  intros Hc. unfold addColorJitter, bind, lift, Math_random, ret.
  rewrite Hc. destruct (Chroma.hsl c) as [[h0 s0] l0].
  match goal with
  | |- context [Chroma.hex (Chroma.ofHsl ?a ?b ?d)] =>
      destruct (chroma_hex chromaOther _ (ofHsl_clipped a b d))
        as (c' & E & _)
  end.
  eexists. exists c'.
  split; [replace (n + 3)%nat with (S (S (S n))) by lia; reflexivity|].
  exact E.
Qed.

Lemma addColorJitter_total_witness :
  exists jittered c',
    addColorJitter hexOnly (fun _ => 1 # 2) "#808080" (3 # 100) 0%nat
    = Ok (jittered, 3%nat)
    /\ chroma hexOnly jittered = Ok c'.
Proof.
  apply (addColorJitter_total hexOnly (fun _ => 1 # 2) "#808080"
           (Chroma.mkColor 128 128 128 1) (3 # 100) 0%nat eq_refl).
Defined.

(* ------------------------------------------------------------------------- *)
(** ** Letter case of hexadecimal notation *)

Lemma upper_hexValue (c : ascii) :
  JS.hexValue (JS.upperAscii c) = JS.hexValue c.
Proof. destruct c as [[] [] [] [] [] [] [] []]; reflexivity. Qed.

Lemma upper_idem (c : ascii) :
  JS.upperAscii (JS.upperAscii c) = JS.upperAscii c.
Proof. destruct c as [[] [] [] [] [] [] [] []]; reflexivity. Qed.

Lemma upper_stripHash (s : string) :
  Chroma.stripHash (JS.toUpperCase s) = JS.toUpperCase (Chroma.stripHash s).
Proof.
  destruct s as [|c s]; [reflexivity|].
  destruct c as [[] [] [] [] [] [] [] []]; reflexivity.
Qed.

Lemma upper_length (s : string) :
  String.length (JS.toUpperCase s) = String.length s.
Proof.
  induction s as [|c s IH]; [reflexivity|].
  cbn [JS.toUpperCase String.length]. rewrite IH. reflexivity.
Qed.

Lemma upper_allHexDigits (s : string) :
  Chroma.allHexDigits (JS.toUpperCase s) = Chroma.allHexDigits s.
Proof.
  induction s as [|c s IH]; [reflexivity|].
  cbn [JS.toUpperCase Chroma.allHexDigits]. unfold JS.isHexDigit.
  rewrite upper_hexValue, IH. reflexivity.
Qed.

Lemma upper_substrFrom (n : nat) :
  forall s,
    JS.substrFrom n (JS.toUpperCase s) = JS.toUpperCase (JS.substrFrom n s).
Proof.
  induction n as [|n IH]; intros [|c s]; try reflexivity.
  cbn [JS.toUpperCase JS.substrFrom]. apply IH.
Qed.

Lemma upper_doubleDigits (s : string) :
  Chroma.doubleDigits (JS.toUpperCase s)
  = JS.toUpperCase (Chroma.doubleDigits s).
Proof.
  induction s as [|c s IH]; [reflexivity|].
  cbn [JS.toUpperCase Chroma.doubleDigits]. rewrite IH. reflexivity.
Qed.

Lemma upper_parseDigits16 (s : string) :
  forall acc,
    JS.parseDigits16 acc (JS.toUpperCase s) = JS.parseDigits16 acc s.
Proof.
  induction s as [|c s IH]; intros acc; [reflexivity|].
  cbn [JS.toUpperCase JS.parseDigits16]. rewrite upper_hexValue.
  destruct (JS.hexValue c); [apply IH | reflexivity].
Qed.

Lemma upper_toUpperCase (s : string) :
  JS.toUpperCase (JS.toUpperCase s) = JS.toUpperCase s.
Proof.
  induction s as [|c s IH]; [reflexivity|].
  cbn [JS.toUpperCase]. rewrite upper_idem, IH. reflexivity.
Qed.

(** chroma reads hexadecimal notation in either case. *)
Lemma upper_hex2rgb (s : string) :
  Chroma.hex2rgb (JS.toUpperCase s) = Chroma.hex2rgb s.
Proof.
  unfold Chroma.hex2rgb, Chroma.RE_HEX, Chroma.RE_HEXA, JS.parseInt16.
  rewrite !upper_stripHash, !upper_allHexDigits, !upper_length.
  destruct (Chroma.allHexDigits (Chroma.stripHash s)
            && (Nat.eqb (String.length (Chroma.stripHash s)) 6
                || Nat.eqb (String.length (Chroma.stripHash s)) 3)).
  - destruct (Nat.eqb (String.length s) 4 || Nat.eqb (String.length s) 7);
      rewrite ?upper_substrFrom, ?upper_length;
      match goal with
      | |- context [if ?b then _ else _] => destruct b
      end;
      rewrite ?upper_doubleDigits, !upper_parseDigits16; reflexivity.
  - destruct (Chroma.allHexDigits (Chroma.stripHash s)
              && (Nat.eqb (String.length (Chroma.stripHash s)) 8
                  || Nat.eqb (String.length (Chroma.stripHash s)) 4));
      [|reflexivity].
    destruct (Nat.eqb (String.length s) 5 || Nat.eqb (String.length s) 9);
      rewrite ?upper_substrFrom, ?upper_length;
      match goal with
      | |- context [if ?b then _ else _] => destruct b
      end;
      rewrite ?upper_doubleDigits, !upper_parseDigits16; reflexivity.
Qed.

(** X28.  The colorUtils functions do not distinguish the case of the
    letters of a hexadecimal colour: for a string in hexadecimal notation,
    [hexToRgb] and [getColorName] give the same answer for the string and
    for its upper-case form (the name table is searched with the upper-case
    form, and chroma reads both cases). *)
Theorem hex_case_insensitive
    (chromaOther : string -> option Chroma.Color) (s : string) :
  Chroma.hex2rgb s <> None ->
  hexToRgb chromaOther (JS.toUpperCase s) = hexToRgb chromaOther s
  /\ getColorName chromaOther (JS.toUpperCase s) = getColorName chromaOther s.
Proof.
  intros Hs.
  assert (E : chroma chromaOther (JS.toUpperCase s) = chroma chromaOther s).
  { unfold chroma. rewrite upper_hex2rgb.
    destruct (Chroma.hex2rgb s); [reflexivity | contradiction]. }
  unfold hexToRgb, getColorName. rewrite E, upper_toUpperCase.
  split; reflexivity.
Qed.

Lemma hex_case_insensitive_witness :
  hexToRgb hexOnly (JS.toUpperCase "#c8647d") = hexToRgb hexOnly "#c8647d"
  /\ getColorName hexOnly (JS.toUpperCase "#c8647d")
     = getColorName hexOnly "#c8647d".
Proof.
  apply (hex_case_insensitive hexOnly "#c8647d").
  intro H. vm_compute in H. discriminate H.
Defined.

(* ------------------------------------------------------------------------- *)
(** ** The end points of a mix *)

Lemma hex2rgb_whole (s : string) (c : Chroma.Color) :
  Chroma.hex2rgb s = Some c ->
  exists r0 g0 b0,
    (0 <= r0 <= 255)%Z /\ (0 <= g0 <= 255)%Z /\ (0 <= b0 <= 255)%Z
    /\ Chroma.red c = inject_Z r0 /\ Chroma.green c = inject_Z g0
    /\ Chroma.blue c = inject_Z b0.
Proof.
  unfold Chroma.hex2rgb.
  destruct (Chroma.RE_HEX s); [|destruct (Chroma.RE_HEXA s); [|discriminate]];
    intros H; apply Some_eq in H; subst c;
    match goal with
    | |- context [Chroma.mkColor (inject_Z ?x) (inject_Z ?y) (inject_Z ?z)] =>
        destruct (limit_inject_Z x) as (r0 & Hr & Er);
        destruct (limit_inject_Z y) as (g0 & Hg & Eg);
        destruct (limit_inject_Z z) as (b0 & Hb & Eb)
    end;
    unfold Chroma.clip_rgb; cbn [Chroma.red Chroma.green Chroma.blue];
    exists r0, g0, b0; repeat split; try lia; assumption.
Qed.

Lemma lrgbChannel_first (x1 x2 : Q) (n : Z) :
  (0 <= n <= 255)%Z -> x1 = inject_Z n ->
  Chroma.limit (Chroma.lrgbChannel x1 x2 0) 0 255 = inject_Z n.
Proof.
  intros Hn ->. unfold Chroma.lrgbChannel.
  rewrite (roundSqrt_square n); [apply limit_byte; exact Hn | lia |].
  rewrite inject_Z_mult. ring.
Qed.

Lemma lrgbChannel_second (x1 x2 : Q) (n : Z) :
  (0 <= n <= 255)%Z -> x2 = inject_Z n ->
  Chroma.limit (Chroma.lrgbChannel x1 x2 1) 0 255 = inject_Z n.
Proof.
  intros Hn ->. unfold Chroma.lrgbChannel.
  rewrite (roundSqrt_square n); [apply limit_byte; exact Hn | lia |].
  rewrite inject_Z_mult. ring.
Qed.

(** X29.  The end points of [mixColors]: for two colours in hexadecimal
    notation the ratio 0 returns the channels of the first colour and the
    ratio 1 those of the second, exactly (the square root of a squared byte
    is that byte). *)
Theorem mixColors_end_points
    (chromaOther : string -> option Chroma.Color) (random : nat -> Q)
    (base36 : Q -> string) (c1 c2 : ColorInfo) (ca cb : Chroma.Color)
    (n : nat) :
  Chroma.hex2rgb (hex c1) = Some ca ->
  Chroma.hex2rgb (hex c2) = Some cb ->
  exists m0 m1,
    mixColors chromaOther random base36 c1 c2 0 n = Ok (m0, S n)
    /\ rgb (info m0) = rgbOf ca
    /\ ratio m0 = [1 - 0; 0]
    /\ mixColors chromaOther random base36 c1 c2 1 n = Ok (m1, S n)
    /\ rgb (info m1) = rgbOf cb
    /\ ratio m1 = [1 - 1; 1].
Proof.
  intros Ha Hb.
  assert (Ca : chroma chromaOther (hex c1) = Ok ca)
    by (unfold chroma; rewrite Ha; reflexivity).
  assert (Cb : chroma chromaOther (hex c2) = Ok cb)
    by (unfold chroma; rewrite Hb; reflexivity).
  destruct (hex2rgb_whole _ _ Ha)
    as (r1 & g1 & b1 & Hr1 & Hg1 & Hb1 & Er1 & Eg1 & Eb1).
  destruct (hex2rgb_whole _ _ Hb)
    as (r2 & g2 & b2 & Hr2 & Hg2 & Hb2 & Er2 & Eg2 & Eb2).
  destruct (mixColors_result chromaOther random base36 c1 c2 ca cb 0 n Ca Cb)
    as (m0 & E0 & Rgb0 & _ & _ & _ & _ & Rat0).
  destruct (mixColors_result chromaOther random base36 c1 c2 ca cb 1 n Ca Cb)
    as (m1 & E1 & Rgb1 & _ & _ & _ & _ & Rat1).
  exists m0, m1.
  split; [exact E0|]. split; [|split; [exact Rat0|]].
  - rewrite Rgb0. unfold rgbOf, Chroma.rgb, Chroma.mix, Chroma.clip_rgb.
    cbn [Chroma.red Chroma.green Chroma.blue].
    rewrite (lrgbChannel_first _ _ r1 Hr1 Er1),
      (lrgbChannel_first _ _ g1 Hg1 Eg1), (lrgbChannel_first _ _ b1 Hb1 Eb1).
    rewrite Er1, Eg1, Eb1. reflexivity.
  - split; [exact E1|]. split; [|exact Rat1].
    rewrite Rgb1. unfold rgbOf, Chroma.rgb, Chroma.mix, Chroma.clip_rgb.
    cbn [Chroma.red Chroma.green Chroma.blue].
    rewrite (lrgbChannel_second _ _ r2 Hr2 Er2),
      (lrgbChannel_second _ _ g2 Hg2 Eg2), (lrgbChannel_second _ _ b2 Hb2 Eb2).
    rewrite Er2, Eg2, Eb2. reflexivity.
Qed.

Lemma mixColors_end_points_witness :
  exists m0 m1,
    mixColors hexOnly (fun _ => 0) (fun _ => "x") redInfo whiteInfo 0 0%nat
    = Ok (m0, 1%nat)
    /\ rgb (info m0) = mkRGB 255 0 0
    /\ mixColors hexOnly (fun _ => 0) (fun _ => "x") redInfo whiteInfo 1 0%nat
       = Ok (m1, 1%nat)
    /\ rgb (info m1) = mkRGB 255 255 255.
Proof.
  destruct (mixColors_end_points hexOnly (fun _ => 0) (fun _ => "x")
              redInfo whiteInfo
              (Chroma.mkColor 255 0 0 1) (Chroma.mkColor 255 255 255 1)
              0%nat eq_refl eq_refl)
    as (m0 & m1 & E0 & R0 & _ & E1 & R1 & _).
  exists m0, m1. repeat split; assumption.
Defined.

(* ------------------------------------------------------------------------- *)
(** ** The two harmony calculations *)

(** X30.  On a chromatic colour the two harmony calculations agree:
    [calculateHarmonyColors] of educationalColorUtils returns the
    complementary colour, the analogous, the triadic and the tetradic
    colours that [calculateAdvancedHarmony] returns.  (They differ on
    achromatic colours only, where the second one replaces a saturation or
    a lightness of 0 by 0.5.) *)
Theorem harmonies_agree_on_chromatic
    (chromaOther : string -> option Chroma.Color) (color : ColorInfo)
    (c : Chroma.Color) (hue sat light : Q) :
  chroma chromaOther (hex color) = Ok c ->
  Chroma.hsl c = (Some hue, sat, light) ->
  exists har comp,
    calculateAdvancedHarmony chromaOther (hex color) = Ok har
    /\ complementary har = [comp]
    /\ Educational.calculateHarmonyColors chromaOther color
       = Ok (Educational.mkHarmonyColors comp (analogous har) (triadic har)
                                         (tetradic har)).
Proof.
  intros Hc Hh.
  pose proof (hsl_of_chroma chromaOther _ c Hc) as R. rewrite Hh in R.
  destruct R as (_ & Rs & Rl).
  assert (Ns : ~ sat == 0) by lra.
  assert (Nl : ~ light == 0) by lra.
  rewrite (calculateAdvancedHarmony_rotations chromaOther (hex color) c
             (Some hue) sat light Hc Hh Ns Nl).
  eexists. eexists. split; [reflexivity|].
  cbn [complementary analogous triadic tetradic].
  split; [reflexivity|].
  unfold Educational.calculateHarmonyColors. rewrite Hc. cbn [rbind].
  rewrite Hh.
  assert (Es : JS.orElse (Some sat) 0 = sat).
  { unfold JS.orElse. rewrite (proj2 (eqb_neq sat 0) Ns). reflexivity. }
  assert (El : JS.orElse (Some light) 0 = light).
  { unfold JS.orElse. rewrite (proj2 (eqb_neq light 0) Nl). reflexivity. }
  rewrite Es, El. reflexivity.
Qed.

Lemma harmonies_agree_on_chromatic_witness :
  exists har comp,
    calculateAdvancedHarmony hexOnly (hex redInfo) = Ok har
    /\ complementary har = [comp]
    /\ Educational.calculateHarmonyColors hexOnly redInfo
       = Ok (Educational.mkHarmonyColors comp (analogous har) (triadic har)
                                         (tetradic har)).
Proof.
  destruct (Chroma.hsl (Chroma.mkColor 255 0 0 1)) as [[[hue|] sat] light]
    eqn:E.
  - exact (harmonies_agree_on_chromatic hexOnly redInfo
             (Chroma.mkColor 255 0 0 1) hue sat light eq_refl E).
  - exfalso. vm_compute in E. discriminate E.
Defined.
